(** * Story Annotator Pro: the annotation core, embedded and verified

    The development follows the TypeScript sources of the application:
    the record types of [types.ts], the import path ([processFile] of
    [FileImporter.tsx] followed by [handleFileLoad] of [App.tsx]), the
    mutators [handleSaveOrUpdateComment] and [handleDeleteComment], and the
    exporter [commonExportLogic].

    Conventions of the embedding.
    - A JavaScript [number] is an integer of [Z] (the chapter numbers,
      sentence numbers and millisecond timestamps the application handles);
      non-integral and non-finite numbers are outside the model.  Printing
      and parsing are exact on [Z]; they are those of JavaScript on the safe
      integers ([isSafeInteger]), and the properties that depend on printed
      or parsed digits are stated for safe integers.
    - A document has the types of [types.ts]; the free-form extra
      properties of an entry are JSON values.  [String] and the assignment
      of the extra properties are those of JavaScript on the plain entries
      ([plainEntry]), and the properties that depend on them are stated for
      plain documents.
    - A JavaScript string is a [string] of 8-bit characters.
    - An optional property ([groupId?: string]) is an [option]; [None] is
      [undefined].
    - The [Map<number, AnalysisItem[]>] of chapters is an association list in
      insertion order, the order in which a JavaScript [Map] is iterated.
    - A plain object used as a dictionary ([Record<string, string>]) is a
      [gmap].
    - React state is a record; a handler is a function from the state it
      closes over to the state after its [set...] calls.
    - [Date.now()] and [Math.random()] are read from an environment that
      gives the result of each successive call. *)

From Stdlib Require Import ZArith String Ascii DecimalString DecimalPos Sorted.
From stdpp Require Import base tactics option list strings gmap.

Local Open Scope Z_scope.
#[local] Set Warnings "-register-all".
#[local] Set Default Proof Using "Type".

(** ** JavaScript primitives used by the application *)

Module Js.

(** Truthiness of a string: every string but the empty one. *)
Definition truthy (s : string) : bool :=
  match s with EmptyString => false | String _ _ => true end.

(** Truthiness of an optional string property. *)
Definition truthy_opt (o : option string) : bool :=
  match o with Some s => truthy s | None => false end.

(** White space removed by [String.prototype.trim], within 8-bit
    characters: TAB, LF, VT, FF, CR, SP and NBSP. *)
Definition isWhiteSpace (c : ascii) : bool :=
  let n := nat_of_ascii c in
  (Nat.eqb n 9 || Nat.eqb n 10 || Nat.eqb n 11 || Nat.eqb n 12
   || Nat.eqb n 13 || Nat.eqb n 32 || Nat.eqb n 160)%bool.

Fixpoint trimStart (s : string) : string :=
  match s with
  | EmptyString => EmptyString
  | String c s' => if isWhiteSpace c then trimStart s' else s
  end.

Fixpoint trimEnd (s : string) : string :=
  match s with
  | EmptyString => EmptyString
  | String c s' =>
      match trimEnd s' with
      | EmptyString => if isWhiteSpace c then EmptyString else String c EmptyString
      | t => String c t
      end
  end.

Definition trim (s : string) : string := trimEnd (trimStart s).

(** Decimal rendering of a number in a template literal or [String(n)]:
    every digit.  JavaScript prints these digits for a safe integer; a
    number of 1e21 or more is printed in exponent form. *)
Definition string_of_Z (z : Z) : string :=
  NilZero.string_of_int (Z.to_int z).

(** [Array.prototype.join] on strings. *)
Fixpoint join (sep : string) (l : list string) : string :=
  match l with
  | [] => EmptyString
  | [x] => x
  | x :: rest => (x +:+ sep +:+ join sep rest)%string
  end.

(** [s.split(',')]: the pieces between commas, at least one piece. *)
Fixpoint split_comma_aux (cur : string) (s : string) : list string :=
  match s with
  | EmptyString => [String.rev cur]
  | String c s' =>
      if Ascii.eqb c ","%char
      then String.rev cur :: split_comma_aux EmptyString s'
      else split_comma_aux (String c cur) s'
  end.

Definition split_comma (s : string) : list string :=
  split_comma_aux EmptyString s.

Definition digit_of (c : ascii) : option Z :=
  let n := nat_of_ascii c in
  if (Nat.leb 48 n && Nat.leb n 57)%bool then Some (Z.of_nat (n - 48)) else None.

(** The digits at the front of [s], accumulated in base ten; [None]
    when [s] does not start with a digit. *)
Fixpoint digits (acc : option Z) (s : string) : option Z :=
  match s with
  | EmptyString => acc
  | String c s' =>
      match digit_of c with
      | Some d => digits (Some (10 * default 0 acc + d)) s'
      | None => acc
      end
  end.

(** [parseInt(s, 10)]: leading white space skipped, an optional sign, then
    the longest run of decimal digits; [None] is [NaN].  The result is the
    integer the digits denote; JavaScript gives this number when it is a safe
    integer, and the nearest double beyond. *)
Definition parseInt (s : string) : option Z :=
  match trimStart s with
  | String "-"%char s' => Z.opp <$> digits None s'
  | String "+"%char s' => digits None s'
  | s' => digits None s'
  end.

(** [Array.prototype.sort(cmp)], a stable sort.  With a comparator that is
    a total preorder the result of a stable sort is determined; it is
    computed here by insertion from the right. *)
Section Sort.
Context {A : Type} (cmp : A -> A -> Z).

Fixpoint insert (x : A) (l : list A) : list A :=
  match l with
  | [] => [x]
  | y :: l' => if Z.leb (cmp x y) 0 then x :: y :: l' else y :: insert x l'
  end.

Definition sort (l : list A) : list A := foldr insert [] l.

(** The order a comparator stands for: [a] may come before [b]. *)
Definition le (a b : A) : Prop := cmp a b <= 0.
End Sort.

(** [arr.findIndex(p)]; [None] is [-1]. *)
Fixpoint findIndex {A : Type} (p : A -> bool) (l : list A) : option nat :=
  match l with
  | [] => None
  | x :: l' => if p x then Some 0%nat else S <$> findIndex p l'
  end.

(** [arr.find(p)]; [None] is [undefined]. *)
Definition find {A : Type} (p : A -> bool) (l : list A) : option A :=
  List.find p l.

(** [arr.some(p)]. *)
Definition some {A : Type} (p : A -> bool) (l : list A) : bool :=
  existsb p l.

End Js.

(** ** The data model of [types.ts] *)

Inductive CommentType := single | group.

Record CommentObject := mkComment {
  c_id : string;
  c_text : string;
  c_type : CommentType;
  c_timestamp : Z;
  c_groupId : option string;
  c_appliesToSentenceNumbers : option (list Z)
}.

Record AnalysisItem := mkItem {
  a_id : string;
  a_Sentence : string;
  a_ChapterNumber : Z;
  a_SentenceNumber : Z;
  a_additionalAnalysis : gmap string string;
  a_comments : list CommentObject
}.

(** [Map<number, AnalysisItem[]>] in insertion order. *)
Abbreviation ChaptersMap := (list (Z * list AnalysisItem)).

Record ProcessedStoryData := mkStory {
  title : string;
  chapters : ChaptersMap
}.

Inductive EditMode := mode_single | mode_mass | mode_group.

(** [Map.prototype.get], [has] and [set]: [set] on a key that is present
    replaces the value where it stands, on a new key it appends. *)
Fixpoint map_get (k : Z) (m : ChaptersMap) : option (list AnalysisItem) :=
  match m with
  | [] => None
  | (k', v) :: m' => if Z.eqb k' k then Some v else map_get k m'
  end.

Definition map_has (k : Z) (m : ChaptersMap) : bool :=
  match map_get k m with Some _ => true | None => false end.

Fixpoint map_set (k : Z) (v : list AnalysisItem) (m : ChaptersMap) : ChaptersMap :=
  match m with
  | [] => [(k, v)]
  | (k', v') :: m' => if Z.eqb k' k then (k, v) :: m' else (k', v') :: map_set k v m'
  end.

(** [map.forEach((v, k) => map.set(k, f(v)))]: every value replaced where
    it stands. *)
Definition mapValues (f : list AnalysisItem -> list AnalysisItem) (m : ChaptersMap)
  : ChaptersMap :=
  prod_map id f <$> m.

(** [Array.from(map.values()).flat()]: every sentence, chapter by chapter. *)
Definition allSentences (m : ChaptersMap) : list AnalysisItem :=
  mjoin (snd <$> m).

Definition allComments (m : ChaptersMap) : list CommentObject :=
  mjoin (a_comments <$> allSentences m).

(** ** Documents read from and written to files *)

(** A JSON value, for the properties whose type the code tests at run time
    and for the free-form extra properties of a sentence entry. *)
Inductive JValue :=
| JNull
| JBool (b : bool)
| JNum (z : Z)
| JStr (s : string)
| JArr (l : list JValue)
| JObj (props : list (string * JValue)).

(** [String(v)], for the values [String] converts: an object prints as
    ["[object Object]"] unless it has an own property [toString], on which
    [String] throws (see [js_plain]). *)
Fixpoint js_String (v : JValue) : string :=
  match v with
  | JNull => "null"
  | JBool true => "true"
  | JBool false => "false"
  | JNum z => Js.string_of_Z z
  | JStr s => s
  | JArr l =>
      Js.join ","
        ((fix elems (l : list JValue) : list string :=
            match l with
            | [] => []
            | x :: l' =>
                match x with JNull => EmptyString | _ => js_String x end :: elems l'
            end) l)
  | JObj _ => "[object Object]"
  end.

(** Truthiness of a JSON value. *)
Definition js_truthy (v : JValue) : bool :=
  match v with
  | JNull | JBool false => false
  | JNum z => negb (Z.eqb z 0)
  | JStr s => Js.truthy s
  | _ => true
  end.

(** [typeof v === 'number'], with the number when it is one; [None] is an
    absent property. *)
Definition as_number (v : option JValue) : option Z :=
  match v with Some (JNum z) => Some z | _ => None end.

(** An entry of [all_comments] as a file gives it: [id] and [timestamp] may
    be absent, and the importer fills them in. *)
Record RawComment := mkRawComment {
  rc_id : option string;
  rc_text : string;
  rc_type : CommentType;
  rc_timestamp : option Z;
  rc_groupId : option string;
  rc_appliesToSentenceNumbers : option (list Z)
}.

(** [RawAnalysisItem]: the six named properties, and every other property
    of the entry in [r_additionalProps] (the rest of the destructuring).
    The two numbers are kept as JSON values, since [handleFileLoad] tests
    their type. *)
Record RawAnalysisItem := mkRaw {
  r_Sentence : option string;
  r_ChapterNumber : option JValue;
  r_SentenceNumber : option JValue;
  r_comment : option string;
  r_commentAppliesTo : option string;
  r_all_comments : option (list RawComment);
  r_additionalProps : gmap string JValue
}.

Record CompleteStory := mkCompleteStory {
  cs_Title : option string;
  cs_Chapters : option (list string)
}.

(** The [Analysis] property of a parsed file: absent, present but not an
    array, or an array of entries. *)
Inductive RawAnalysis :=
| AnalysisMissing
| AnalysisOther (v : JValue)
| AnalysisArray (entries : list RawAnalysisItem).

Record ImportedStoryFormat := mkImported {
  im_Analysis : RawAnalysis;
  im_TheCompleteStory : option CompleteStory
}.

(** What reading and parsing the chosen file gives. *)
Inductive FileContent :=
| FileUnreadable                       (* [reader.onerror] *)
| FileNotText                          (* the result is not a string *)
| FileNotJson                          (* [JSON.parse] throws *)
| FileJson (d : ImportedStoryFormat).

(** The error banner; the message text is kept as its kind. *)
Inductive AppError :=
| ErrReadingFile
| ErrParsing_FailedToRead
| ErrParsing_Syntax
| ErrParsing_MissingRequiredFields
| ErrParsing_AnalysisNotArray
| ErrProcessing_InvalidEntry (entry : RawAnalysisItem)
| ErrProcessing_TypeError
| ErrInvalidFileType
| ErrNoStoryDataToExport.

(** ** Application state of [App.tsx] *)

Record AppState := mkState {
  storyData : option ProcessedStoryData;
  originalCompleteStory : option CompleteStory;
  selectedAnalysisItem : option AnalysisItem;
  isModalOpen : bool;
  error : option AppError;
  isLoading : bool;
  editMode : EditMode;
  bulkSelectedSentenceIds : list string
}.

(** The results of the successive calls of [Date.now()] and of
    [Math.random().toString(36).substr(2, 9)] during one handler run. *)
Record Env := mkEnv {
  clock : nat -> Z;
  random : nat -> string
}.

(** [generateUniqueId()], at the [i]-th reading of the environment. *)
Definition generateUniqueId (env : Env) (i : nat) : string :=
  ("id-" +:+ Js.string_of_Z (clock env i) +:+ "-" +:+ random env i)%string.

(** ** Annotation mutators *)

Record EditingCommentDetail := mkDetail {
  e_id : string;
  e_groupId : option string
}.

(** [{ ...c, text: text, timestamp: now }] *)
Definition withEdit (text : string) (now : Z) (c : CommentObject) : CommentObject :=
  mkComment (c_id c) text (c_type c) now (c_groupId c) (c_appliesToSentenceNumbers c).

(** [{ ...s, comments: cs }] *)
Definition withComments (s : AnalysisItem) (cs : list CommentObject) : AnalysisItem :=
  mkItem (a_id s) (a_Sentence s) (a_ChapterNumber s) (a_SentenceNumber s)
         (a_additionalAnalysis s) cs.

(** [c.groupId === G] *)
Definition groupId_is (G : string) (c : CommentObject) : bool :=
  match c_groupId c with Some g => String.eqb g G | None => false end.

(** [c.groupId !== G] *)
Definition groupId_isnt (G : string) (c : CommentObject) : bool :=
  negb (groupId_is G c).

Definition id_is (i : string) (c : CommentObject) : bool := String.eqb (c_id c) i.

Definition sentence_id_is (i : string) (s : AnalysisItem) : bool := String.eqb (a_id s) i.

(** The loop shared by the single edit, the bulk addition and the single
    deletion: visit the entries of the map in order, and in the first
    chapter that has a sentence satisfying [p] replace that sentence by its
    image under [f], then stop ([map.set] on the key being visited replaces
    the value where it stands).  [None] when no chapter has such a
    sentence. *)
Fixpoint updateFirst (p : AnalysisItem -> bool) (f : AnalysisItem -> AnalysisItem)
    (m : ChaptersMap) : option ChaptersMap :=
  match m with
  | [] => None
  | (chapterNum, sentences) :: m' =>
      match Js.findIndex p sentences with
      | Some itemIndex => Some ((chapterNum, alter f itemIndex sentences) :: m')
      | None => cons (chapterNum, sentences) <$> updateFirst p f m'
      end
  end.

(** The sentence that loop stops at. *)
Fixpoint firstMatch (p : AnalysisItem -> bool) (m : ChaptersMap) : option AnalysisItem :=
  match m with
  | [] => None
  | (_, sentences) :: m' =>
      match Js.findIndex p sentences with
      | Some itemIndex => sentences !! itemIndex
      | None => firstMatch p m'
      end
  end.

(** *** Editing *)

Definition editGroupComments (G text : string) (now : Z) (cs : list CommentObject)
  : list CommentObject :=
  (fun c => if groupId_is G c then withEdit text now c else c) <$> cs.

(** The body of the [map] over a chapter's sentences in the group branch. *)
Definition editGroupSentence (G eid text : string) (now : Z) (s : AnalysisItem)
  : AnalysisItem :=
  match Js.findIndex (fun c => groupId_is G c && id_is eid c) (a_comments s) with
  | Some _ => withComments s (editGroupComments G text now (a_comments s))
  | None =>
      if Js.some (groupId_is G) (a_comments s)
      then withComments s (editGroupComments G text now (a_comments s))
      else s
  end.

(** Whether one of the two updating branches is taken for [s]. *)
Definition editGroupTouches (G eid : string) (s : AnalysisItem) : bool :=
  match Js.findIndex (fun c => groupId_is G c && id_is eid c) (a_comments s) with
  | Some _ => true
  | None => Js.some (groupId_is G) (a_comments s)
  end.

Definition editGroup (G eid text : string) (now : Z) (m : ChaptersMap) : ChaptersMap :=
  mapValues (fmap (editGroupSentence G eid text now)) m.

(** [itemThatContainedEditedComment] after the group branch: the last
    updated sentence whose id is that of the selected sentence. *)
Definition editGroupItem (G eid text : string) (now : Z) (sel : option AnalysisItem)
    (m : ChaptersMap) : option AnalysisItem :=
  match sel with
  | None => None
  | Some selected =>
      last (editGroupSentence G eid text now <$>
              filter (fun s => editGroupTouches G eid s && sentence_id_is (a_id selected) s)
                (allSentences m))
  end.

Definition editSingleItem (eid text : string) (now : Z) (s : AnalysisItem) : AnalysisItem :=
  withComments s ((fun c => if id_is eid c then withEdit text now c else c) <$> a_comments s).

Definition hasComment (eid : string) (s : AnalysisItem) : bool :=
  Js.some (id_is eid) (a_comments s).

Definition editSingle (eid text : string) (now : Z) (m : ChaptersMap) : ChaptersMap :=
  default m (updateFirst (hasComment eid) (editSingleItem eid text now) m).

(** The edit branch: the group path when the detail carries a truthy
    [groupId], the single path otherwise. *)
Definition editChapters (detail : EditingCommentDetail) (text : string) (now : Z)
    (m : ChaptersMap) : ChaptersMap :=
  match e_groupId detail with
  | Some groupIdToUpdate =>
      if Js.truthy groupIdToUpdate
      then editGroup groupIdToUpdate (e_id detail) text now m
      else editSingle (e_id detail) text now m
  | None => editSingle (e_id detail) text now m
  end.

(** [itemThatContainedEditedComment] after the edit branch. *)
Definition editedItem (detail : EditingCommentDetail) (text : string) (now : Z)
    (sel : option AnalysisItem) (m : ChaptersMap) : option AnalysisItem :=
  match e_groupId detail with
  | Some groupIdToUpdate =>
      if Js.truthy groupIdToUpdate
      then editGroupItem groupIdToUpdate (e_id detail) text now sel m
      else editSingleItem (e_id detail) text now <$> firstMatch (hasComment (e_id detail)) m
  | None => editSingleItem (e_id detail) text now <$> firstMatch (hasComment (e_id detail)) m
  end.

(** *** Adding *)

Definition appendComment (c : CommentObject) (s : AnalysisItem) : AnalysisItem :=
  withComments s (a_comments s ++ [c]).

Definition addSingle (newComment : CommentObject) (selected : AnalysisItem)
    (m : ChaptersMap) : ChaptersMap * option AnalysisItem :=
  let chapterNum := a_ChapterNumber selected in
  match map_get chapterNum m with
  | Some sentences =>
      match Js.findIndex (sentence_id_is (a_id selected)) sentences with
      | Some itemIndex =>
          (map_set chapterNum (alter (appendComment newComment) itemIndex sentences) m,
           appendComment newComment <$> sentences !! itemIndex)
      | None => (m, None)
      end
  | None => (m, None)
  end.

(** The sentence number recorded for a selected id: that of the first
    sentence with this id, [-1] when there is none. *)
Fixpoint sentenceNumberOf (id : string) (m : ChaptersMap) : Z :=
  match m with
  | [] => -1
  | (_, sentences) :: m' =>
      match Js.find (sentence_id_is id) sentences with
      | Some s => a_SentenceNumber s
      | None => sentenceNumberOf id m'
      end
  end.

Definition sentenceNumbersForGroup (ids : list string) (m : ChaptersMap) : list Z :=
  Js.sort (fun a b => a - b)
    (filter (fun n => n <> -1) ((fun id => sentenceNumberOf id m) <$> ids)).

(** The comment built for one target of a bulk addition. *)
Definition bulkComment (mode : EditMode) (id text : string) (now : Z)
    (commonGroupId : option string) (numbers : option (list Z)) : CommentObject :=
  match mode with
  | mode_group => mkComment id text group now commonGroupId numbers
  | _ => mkComment id text single now None None
  end.

(** [bulkSelectedSentenceIds.forEach(...)]: a fresh id is drawn for each
    selected id that is found; [tick] counts the readings of the
    environment. *)
Fixpoint addBulkLoop (env : Env) (mode : EditMode) (text : string) (now : Z)
    (commonGroupId : option string) (numbers : option (list Z))
    (ids : list string) (tick : nat) (m : ChaptersMap) : ChaptersMap :=
  match ids with
  | [] => m
  | itemId :: rest =>
      let newComment :=
        bulkComment mode (generateUniqueId env tick) text now commonGroupId numbers in
      match updateFirst (sentence_id_is itemId) (appendComment newComment) m with
      | Some m' => addBulkLoop env mode text now commonGroupId numbers rest (S tick) m'
      | None => addBulkLoop env mode text now commonGroupId numbers rest tick m
      end
  end.

Definition addBulk (env : Env) (mode : EditMode) (text : string) (now : Z)
    (ids : list string) (m : ChaptersMap) : ChaptersMap :=
  match mode with
  | mode_group =>
      let commonGroupId := generateUniqueId env 1 in
      addBulkLoop env mode text now (Some commonGroupId)
        (Some (sentenceNumbersForGroup ids m)) ids 2 m
  | _ => addBulkLoop env mode text now None None ids 1 m
  end.

(** *** [handleSaveOrUpdateComment] *)

Definition setStory (st : AppState) (m : ChaptersMap) (sel : option AnalysisItem)
    (bulk : list string) : AppState :=
  mkState ((fun prev => mkStory (title prev) m) <$> storyData st)
          (originalCompleteStory st) sel false (error st) (isLoading st)
          (editMode st) bulk.

Definition handleSaveOrUpdateComment (env : Env) (st : AppState)
    (commentText : string) (editingCommentDetail : option EditingCommentDetail)
  : AppState :=
  match storyData st with
  | None => st
  | Some story =>
      if negb (Js.truthy (Js.trim commentText)) then st else
      let newChaptersMap := chapters story in
      let now := clock env 0 in
      let text := Js.trim commentText in
      match editingCommentDetail with
      | Some detail =>
          let m := editChapters detail text now newChaptersMap in
          let item := editedItem detail text now (selectedAnalysisItem st) newChaptersMap in
          let sel :=
            match selectedAnalysisItem st, item with
            | Some selected, Some it =>
                if String.eqb (a_id selected) (a_id it) then Some it else Some selected
            | s, _ => s
            end in
          setStory st m sel (bulkSelectedSentenceIds st)
      | None =>
          match editMode st, selectedAnalysisItem st with
          | mode_single, Some selected =>
              let newComment :=
                mkComment (generateUniqueId env 1) text single now None None in
              let '(m, updated) := addSingle newComment selected newChaptersMap in
              setStory st m (match updated with Some u => Some u | None => Some selected end)
                (bulkSelectedSentenceIds st)
          | mode_single, None =>
              setStory st newChaptersMap None (bulkSelectedSentenceIds st)
          | mode, sel =>
              match bulkSelectedSentenceIds st with
              | [] => setStory st newChaptersMap sel []
              | ids => setStory st (addBulk env mode text now ids newChaptersMap) sel []
              end
          end
      end
  end.

(** *** [handleDeleteComment] *)

(** [commentToDeleteDetails]: in the first sentence whose id is [itemId],
    the first comment whose id is [commentId]. *)
Definition commentToDeleteDetails (itemId commentId : string) (m : ChaptersMap)
  : option CommentObject :=
  s ← Js.find (sentence_id_is itemId) (allSentences m);
  Js.find (id_is commentId) (a_comments s).

Definition deleteGroup (groupIdToDelete : string) (m : ChaptersMap) : ChaptersMap :=
  mapValues
    (fmap (fun s => withComments s (filter (groupId_isnt groupIdToDelete) (a_comments s))))
    m.

Definition deleteSingleItem (commentId : string) (currentItem : AnalysisItem) : AnalysisItem :=
  withComments currentItem
    (filter (fun c => negb (id_is commentId c)) (a_comments currentItem)).

Definition deleteSingle (itemId commentId : string) (m : ChaptersMap) : ChaptersMap :=
  default m (updateFirst (sentence_id_is itemId) (deleteSingleItem commentId) m).

(** The branch [handleDeleteComment] takes. *)
Definition deleteChapters (itemId commentId : string) (m : ChaptersMap) : ChaptersMap :=
  match commentToDeleteDetails itemId commentId m with
  | Some details =>
      match c_type details, c_groupId details with
      | group, Some groupIdToDelete =>
          if Js.truthy groupIdToDelete
          then deleteGroup groupIdToDelete m
          else deleteSingle itemId commentId m
      | _, _ => deleteSingle itemId commentId m
      end
  | None => deleteSingle itemId commentId m
  end.

Definition handleDeleteComment (st : AppState) (itemId commentId : string) : AppState :=
  match storyData st with
  | None => st
  | Some story =>
      let newChaptersMap := deleteChapters itemId commentId (chapters story) in
      let sel :=
        match selectedAnalysisItem st with
        | Some selected =>
            if String.eqb (a_id selected) itemId
            then Js.find (sentence_id_is itemId) (allSentences newChaptersMap)
            else Some selected
        | None => None
        end in
      mkState (Some (mkStory (title story) newChaptersMap))
              (originalCompleteStory st) sel (isModalOpen st) (error st)
              (isLoading st) (editMode st) (bulkSelectedSentenceIds st)
  end.

(** ** The operations of the core, as the handlers provide them *)

Definition emptyState : AppState :=
  mkState None None None false None false mode_single [].

(** A state holding [story], with [mode], selection [sel] and bulk
    selection [ids]. *)
Definition stateOf (story : ProcessedStoryData) (mode : EditMode)
    (sel : option AnalysisItem) (ids : list string) : AppState :=
  mkState (Some story) None sel true None false mode ids.

Definition storyOf (st : AppState) (d : ProcessedStoryData) : ProcessedStoryData :=
  default d (storyData st).

(** [addSingleComment]: the sentence is the one selected in single mode. *)
Definition addSingleComment (env : Env) (story : ProcessedStoryData)
    (selected : AnalysisItem) (text : string) : ProcessedStoryData :=
  storyOf (handleSaveOrUpdateComment env (stateOf story mode_single (Some selected) [])
             text None) story.

Inductive BulkKind := mass | grouped.

Definition modeOf (k : BulkKind) : EditMode :=
  match k with mass => mode_mass | grouped => mode_group end.

(** [addBulkComment]: the targets are the bulk selection. *)
Definition addBulkComment (env : Env) (story : ProcessedStoryData)
    (sentenceIds : list string) (text : string) (kind : BulkKind) : ProcessedStoryData :=
  storyOf (handleSaveOrUpdateComment env (stateOf story (modeOf kind) None sentenceIds)
             text None) story.

Definition editComment (env : Env) (story : ProcessedStoryData)
    (commentId : string) (groupId : option string) (newText : string)
  : ProcessedStoryData :=
  storyOf (handleSaveOrUpdateComment env (stateOf story mode_single None [])
             newText (Some (mkDetail commentId groupId))) story.

Definition deleteComment (story : ProcessedStoryData) (sentenceId commentId : string)
  : ProcessedStoryData :=
  storyOf (handleDeleteComment (stateOf story mode_single None []) sentenceId commentId)
    story.


(** ** Import: [handleFileLoad] and [processFile] *)

(** [c.id || generateUniqueId()] and [c.timestamp || Date.now()] for one
    entry of [all_comments]; [tick] counts the readings of the environment
    so far, and the count after is returned. *)
Definition importComment (env : Env) (c : RawComment) (tick : nat)
  : CommentObject * nat :=
  let '(id, tick1) :=
    if Js.truthy_opt (rc_id c) then (default EmptyString (rc_id c), tick)
    else (generateUniqueId env tick, S tick) in
  let '(timestamp, tick2) :=
    match rc_timestamp c with
    | Some z => if Z.eqb z 0 then (clock env tick1, S tick1) else (z, tick1)
    | None => (clock env tick1, S tick1)
    end in
  (mkComment id (rc_text c) (rc_type c) timestamp (rc_groupId c)
     (rc_appliesToSentenceNumbers c), tick2).

(** [all_comments.map(c => ...)] *)
Fixpoint importComments (env : Env) (cs : list RawComment) (tick : nat)
  : list CommentObject * nat :=
  match cs with
  | [] => ([], tick)
  | c :: cs' =>
      let '(c', tick1) := importComment env c tick in
      let '(cs'', tick2) := importComments env cs' tick1 in
      (c' :: cs'', tick2)
  end.

(** [rawAppliesTo.split(',').map(n => parseInt(n.trim(), 10)).filter(n => !isNaN(n))] *)
Definition parseAppliesTo (rawAppliesTo : string) : list Z :=
  omap (fun n => Js.parseInt (Js.trim n)) (Js.split_comma rawAppliesTo).

(** The comment synthesised from the legacy [comment] property. *)
Definition legacyComment (env : Env) (rawCommentText : string)
    (rawAppliesTo : option string) (tick : nat) : CommentObject * nat :=
  let id := generateUniqueId env tick in
  let timestamp := clock env (S tick) in
  match rawAppliesTo with
  | Some applies =>
      if Js.truthy applies
      then (mkComment id rawCommentText group timestamp
              (Some (generateUniqueId env (S (S tick)))) (Some (parseAppliesTo applies)),
            S (S (S tick)))
      else (mkComment id rawCommentText single timestamp None None, S (S tick))
  | None => (mkComment id rawCommentText single timestamp None None, S (S tick))
  end.

Definition currentComments (env : Env) (raw : RawAnalysisItem) (tick : nat)
  : list CommentObject * nat :=
  match r_all_comments raw with
  | Some all_comments => importComments env all_comments tick
  | None =>
      match r_comment raw with
      | Some rawCommentText =>
          if Js.truthy rawCommentText
          then let '(c, tick') :=
                 legacyComment env rawCommentText (r_commentAppliesTo raw) tick in
               ([c], tick')
          else ([], tick)
      | None => ([], tick)
      end
  end.

(** [`ch${chapterNum}-s${sentenceNum}`] *)
Definition sentenceId (chapterNum sentenceNum : Z) : string :=
  ("ch" +:+ Js.string_of_Z chapterNum +:+ "-s" +:+ Js.string_of_Z sentenceNum)%string.

(** The body of [data.Analysis.forEach] up to the construction of [item];
    the error is the [throw] of the validity test.  Every extra property
    is kept; the code loses the one named [__proto__], whose assignment goes
    to the prototype setter (see [plainEntry]). *)
Definition importEntry (env : Env) (rawItem : RawAnalysisItem) (tick : nat)
  : AppError + AnalysisItem * nat :=
  match as_number (r_ChapterNumber rawItem), as_number (r_SentenceNumber rawItem),
        r_Sentence rawItem with
  | Some chapterNum, Some sentenceNum, Some sentenceText =>
      if Js.truthy sentenceText then
        let '(comments, tick') := currentComments env rawItem tick in
        inr (mkItem (sentenceId chapterNum sentenceNum) sentenceText chapterNum sentenceNum
               (js_String <$> r_additionalProps rawItem) comments, tick')
      else inl (ErrProcessing_InvalidEntry rawItem)
  | _, _, _ => inl (ErrProcessing_InvalidEntry rawItem)
  end.

(** [if (!map.has(k)) map.set(k, []); map.get(k).push(item)] *)
Definition pushItem (item : AnalysisItem) (m : ChaptersMap) : ChaptersMap :=
  let chapterNum := a_ChapterNumber item in
  let m1 := if map_has chapterNum m then m else map_set chapterNum [] m in
  map_set chapterNum (default [] (map_get chapterNum m1) ++ [item]) m1.

(** [data.Analysis.forEach(...)], stopping at the first entry that throws. *)
Fixpoint importEntries (env : Env) (entries : list RawAnalysisItem)
    (newChaptersMap : ChaptersMap) (tick : nat) : AppError + ChaptersMap :=
  match entries with
  | [] => inr newChaptersMap
  | rawItem :: rest =>
      match importEntry env rawItem tick with
      | inl e => inl e
      | inr (item, tick') => importEntries env rest (pushItem item newChaptersMap) tick'
      end
  end.

Definition bySentenceNumber (a b : AnalysisItem) : Z :=
  a_SentenceNumber a - a_SentenceNumber b.

(** The [try] block of [handleFileLoad]: the story and the retained
    complete-story block, or the error caught.  A [data] without an array
    under [Analysis], or without the complete-story block, makes the block
    throw a [TypeError]. *)
Definition loadStory (env : Env) (data : ImportedStoryFormat)
  : AppError + ProcessedStoryData * CompleteStory :=
  match im_Analysis data with
  | AnalysisArray entries =>
      match importEntries env entries [] 0 with
      | inl e => inl e
      | inr newChaptersMap =>
          match im_TheCompleteStory data with
          | Some complete =>
              inr (mkStory (default EmptyString (cs_Title complete))
                     (mapValues (Js.sort bySentenceNumber) newChaptersMap),
                   complete)
          | None => inl ErrProcessing_TypeError
          end
      end
  | _ => inl ErrProcessing_TypeError
  end.

Definition handleFileLoad (env : Env) (st : AppState) (data : ImportedStoryFormat)
  : AppState :=
  match loadStory env data with
  | inr (story, complete) =>
      mkState (Some story) (Some complete) None (isModalOpen st) None false
              mode_single []
  | inl e =>
      mkState None None None (isModalOpen st) (Some e) false mode_single []
  end.

Definition handleProcessingError (st : AppState) (errorMessage : AppError) : AppState :=
  mkState None None (selectedAnalysisItem st) (isModalOpen st) (Some errorMessage) false
          (editMode st) (bulkSelectedSentenceIds st).

(** [!parsedData.Analysis] *)
Definition analysisFalsy (a : RawAnalysis) : bool :=
  match a with
  | AnalysisMissing => true
  | AnalysisOther v => negb (js_truthy v)
  | AnalysisArray _ => false
  end.

(** [!parsedData["The Complete Story"] || !parsedData["The Complete Story"].Title] *)
Definition titleFalsy (c : option CompleteStory) : bool :=
  match c with
  | Some complete => negb (Js.truthy_opt (cs_Title complete))
  | None => true
  end.

Definition isArray (a : RawAnalysis) : bool :=
  match a with AnalysisArray _ => true | _ => false end.

(** [processFile] of the file importer, once the file has been read. *)
Definition processFile (env : Env) (st : AppState) (file : FileContent) : AppState :=
  match file with
  | FileUnreadable => handleProcessingError st ErrReadingFile
  | FileNotText => handleProcessingError st ErrParsing_FailedToRead
  | FileNotJson => handleProcessingError st ErrParsing_Syntax
  | FileJson parsedData =>
      if (analysisFalsy (im_Analysis parsedData)
          || titleFalsy (im_TheCompleteStory parsedData))%bool
      then handleProcessingError st ErrParsing_MissingRequiredFields
      else if negb (isArray (im_Analysis parsedData))
      then handleProcessingError st ErrParsing_AnalysisNotArray
      else handleFileLoad env st parsedData
  end.

(** [handleDrop]: a dropped file is processed when its type is
    [application/json], and refused otherwise. *)
Definition handleDrop (env : Env) (st : AppState) (isJsonType : bool)
    (file : FileContent) : AppState :=
  if isJsonType then processFile env st file
  else handleProcessingError st ErrInvalidFileType.

(** [importStory]: a document loaded into the application. *)
Definition importStory (env : Env) (st : AppState) (rawDocument : ImportedStoryFormat)
  : AppState :=
  processFile env st (FileJson rawDocument).

(** ** Export: [commonExportLogic] *)

Definition byTimestampDesc (a b : CommentObject) : Z :=
  c_timestamp b - c_timestamp a.

(** [item.comments.length > 0 ? [...item.comments].sort(...)[0] : null] *)
Definition latestComment (item : AnalysisItem) : option CommentObject :=
  head (Js.sort byTimestampDesc (a_comments item)).

(** [commentText] as it is assigned to the [comment] property: only when
    truthy. *)
Definition exportedComment (item : AnalysisItem) : option string :=
  match latestComment item with
  | Some latest => if Js.truthy (c_text latest) then Some (c_text latest) else None
  | None => None
  end.

(** [commentAppliesTo] as it is assigned to the
    ["comment applies to sentences"] property: only when truthy. *)
Definition exportedAppliesTo (item : AnalysisItem) : option string :=
  match latestComment item with
  | Some latest =>
      match c_type latest, c_appliesToSentenceNumbers latest with
      | group, Some numbers =>
          let commentAppliesTo := Js.join "," (Js.string_of_Z <$> numbers) in
          if Js.truthy commentAppliesTo then Some commentAppliesTo else None
      | _, _ => None
      end
  | None => None
  end.

Record SimpleExportAnalysisItem := mkSimple {
  se_Sentence : string;
  se_SentenceNumber : Z;
  se_comment : option string;
  se_commentAppliesTo : option string
}.

Definition simpleExportItem (item : AnalysisItem) : SimpleExportAnalysisItem :=
  mkSimple (a_Sentence item) (a_SentenceNumber item)
           (exportedComment item) (exportedAppliesTo item).

Definition exportComment (c : CommentObject) : RawComment :=
  mkRawComment (Some (c_id c)) (c_text c) (c_type c) (Some (c_timestamp c))
               (c_groupId c) (c_appliesToSentenceNumbers c).

(** [ExportAnalysisItem extends RawAnalysisItem]: the entry as the written
    file gives it back. *)
Definition fullExportItem (item : AnalysisItem) : RawAnalysisItem :=
  mkRaw (Some (a_Sentence item)) (Some (JNum (a_ChapterNumber item)))
        (Some (JNum (a_SentenceNumber item)))
        (exportedComment item) (exportedAppliesTo item)
        (Some (exportComment <$> a_comments item))
        (JStr <$> a_additionalAnalysis item).

(** The number held by a property of an exported entry. *)
Definition numberOf (v : option JValue) : Z := default 0 (as_number v).

Definition bySimpleOrder (a b : SimpleExportAnalysisItem) : Z :=
  se_SentenceNumber a - se_SentenceNumber b.

Definition byFullOrder (a b : RawAnalysisItem) : Z :=
  let aCh := numberOf (r_ChapterNumber a) in
  let bCh := numberOf (r_ChapterNumber b) in
  if negb (Z.eqb aCh bCh) then aCh - bCh
  else numberOf (r_SentenceNumber a) - numberOf (r_SentenceNumber b).

Definition simpleExport (story : ProcessedStoryData) : list SimpleExportAnalysisItem :=
  Js.sort bySimpleOrder (simpleExportItem <$> allSentences (chapters story)).

Definition fullExport (story : ProcessedStoryData) (original : CompleteStory)
  : ImportedStoryFormat :=
  mkImported
    (AnalysisArray (Js.sort byFullOrder (fullExportItem <$> allSentences (chapters story))))
    (Some (mkCompleteStory (Some (title story)) (cs_Chapters original))).

Inductive ExportData :=
| SimpleData (analysis : list SimpleExportAnalysisItem)
| FullData (document : ImportedStoryFormat).

(** [commonExportLogic]: the state after, and the data handed to the
    download when there is a story to export. *)
Definition commonExportLogic (isSimpleExport : bool) (st : AppState)
  : AppState * option ExportData :=
  match storyData st, originalCompleteStory st with
  | Some story, Some original =>
      (st, Some (if isSimpleExport then SimpleData (simpleExport story)
                 else FullData (fullExport story original)))
  | _, _ =>
      (mkState (storyData st) (originalCompleteStory st) (selectedAnalysisItem st)
         (isModalOpen st) (Some ErrNoStoryDataToExport) (isLoading st) (editMode st)
         (bulkSelectedSentenceIds st), None)
  end.

Definition exportSimple (st : AppState) : option (list SimpleExportAnalysisItem) :=
  match (commonExportLogic true st).2 with
  | Some (SimpleData analysis) => Some analysis
  | _ => None
  end.

Definition exportFull (st : AppState) : option ImportedStoryFormat :=
  match (commonExportLogic false st).2 with
  | Some (FullData document) => Some document
  | _ => None
  end.

(** The comments of a list of sentences, in order. *)
Definition commentsOf (l : list AnalysisItem) : list CommentObject :=
  mjoin (a_comments <$> l).

(** A sentence [s] of [m] replaced by [s'], everything else in place. *)
Definition replacedOne (m m' : ChaptersMap) (s s' : AnalysisItem) : Prop :=
  exists l1 l2, allSentences m = l1 ++ s :: l2 /\ allSentences m' = l1 ++ s' :: l2.

(** One call of a mutator: the modal saving a comment, or deleting one. *)
Inductive Mutation :=
| SaveOrUpdate (env : Env) (commentText : string)
    (editingCommentDetail : option EditingCommentDetail)
| Delete (itemId commentId : string).

Definition runMutation (st : AppState) (mu : Mutation) : AppState :=
  match mu with
  | SaveOrUpdate env commentText detail =>
      handleSaveOrUpdateComment env st commentText detail
  | Delete itemId commentId => handleDeleteComment st itemId commentId
  end.

(** ** Properties of containers *)

(** Group consistency: the comments that carry one group id have one text
    and one timestamp. *)
Definition groupConsistent (m : ChaptersMap) : Prop :=
  forall c1 c2 G,
    c1 ∈ allComments m -> c2 ∈ allComments m ->
    c_groupId c1 = Some G -> c_groupId c2 = Some G ->
    c_text c1 = c_text c2 /\ c_timestamp c1 = c_timestamp c2.

Definition groupAgree (c1 c2 : CommentObject) : Prop :=
  c_groupId c1 = c_groupId c2 -> is_Some (c_groupId c1) ->
  c_text c1 = c_text c2 /\ c_timestamp c1 = c_timestamp c2.

#[global] Instance groupConsistent_dec m : Decision (groupConsistent m).
Proof.
  refine (cast_if (decide (Forall (fun c1 => Forall (groupAgree c1) (allComments m))
                             (allComments m)))).
  - intros c1 c2 G H1 H2 E1 E2.
    rewrite Forall_forall in f. specialize (f c1 H1).
    rewrite Forall_forall in f. apply (f c2 H2); [congruence | by rewrite E1].
  - intros H. apply n. apply Forall_forall. intros c1 H1.
    apply Forall_forall. intros c2 H2 E [G HG].
    apply (H c1 c2 G); congruence.
Defined.

Definition stateConsistent (st : AppState) : Prop :=
  match storyData st with
  | Some story => groupConsistent (chapters story)
  | None => True
  end.

(** No comment of the container carries [gid] yet. *)
Definition freshGroupId (m : ChaptersMap) (gid : string) : Prop :=
  forall c, c ∈ allComments m -> c_groupId c <> Some gid.

(** An edit names its group: it supplies a group id, or no comment with
    the edited id carries one. *)
Definition editNamesGroup (m : ChaptersMap) (detail : EditingCommentDetail) : Prop :=
  Js.truthy_opt (e_groupId detail) = true
  \/ forall c, c ∈ allComments m -> c_id c = e_id detail -> c_groupId c = None.

Definition mutationAllowed (st : AppState) (mu : Mutation) : Prop :=
  match storyData st, mu with
  | Some story, SaveOrUpdate env _ (Some detail) => editNamesGroup (chapters story) detail
  | Some story, SaveOrUpdate env _ None =>
      editMode st = mode_group -> freshGroupId (chapters story) (generateUniqueId env 1)
  | _, _ => True
  end.

(** *** Example containers *)

Definition demoEnv : Env :=
  mkEnv (fun n => 1000 + Z.of_nat n) (fun n => Js.string_of_Z (Z.of_nat n)).

Definition demoComment (id text : string) (ty : CommentType) (ts : Z)
    (gid : option string) (numbers : option (list Z)) : CommentObject :=
  mkComment id text ty ts gid numbers.

Definition demoSentence (ch sn : Z) (cs : list CommentObject) : AnalysisItem :=
  mkItem ("ch" +:+ Js.string_of_Z ch +:+ "-s" +:+ Js.string_of_Z sn) "Once upon a time."
         ch sn ∅ cs.

(** Two sentences linked by one group comment. *)
Definition linkedStory : ProcessedStoryData :=
  mkStory "Tale"
    [(1, [demoSentence 1 1 [demoComment "c1" "tighten pacing" group 10 (Some "g1") (Some [1; 2])];
          demoSentence 1 2 [demoComment "c2" "tighten pacing" group 10 (Some "g1") (Some [1; 2])]])].

(** The document [linkedStory] is imported from. *)
Definition linkedDocument : ImportedStoryFormat :=
  mkImported
    (AnalysisArray
       [mkRaw (Some "Once upon a time.") (Some (JNum 1)) (Some (JNum 1)) None None
          (Some [mkRawComment (Some "c1") "tighten pacing" group (Some 10) (Some "g1")
                   (Some [1; 2])]) ∅;
        mkRaw (Some "Once upon a time.") (Some (JNum 1)) (Some (JNum 2)) None None
          (Some [mkRawComment (Some "c2") "tighten pacing" group (Some 10) (Some "g1")
                   (Some [1; 2])]) ∅])
    (Some (mkCompleteStory (Some "Tale") None)).

(** The document [emptyGroupIdStory] is imported from. *)
Definition emptyGroupIdDocument : ImportedStoryFormat :=
  mkImported
    (AnalysisArray
       [mkRaw (Some "Once upon a time.") (Some (JNum 1)) (Some (JNum 1)) None None
          (Some [mkRawComment (Some "c1") "tighten pacing" group (Some 10) (Some "")
                   (Some [1; 2])]) ∅;
        mkRaw (Some "Once upon a time.") (Some (JNum 1)) (Some (JNum 2)) None None
          (Some [mkRawComment (Some "c2") "tighten pacing" group (Some 10) (Some "")
                   (Some [1; 2])]) ∅])
    (Some (mkCompleteStory (Some "Tale") None)).

(** Two sentences whose group comments carry the empty string as group
    id, as [emptyGroupIdDocument] gives them in [all_comments]. *)
Definition emptyGroupIdStory : ProcessedStoryData :=
  mkStory "Tale"
    [(1, [demoSentence 1 1 [demoComment "c1" "tighten pacing" group 10 (Some "") (Some [1; 2])];
          demoSentence 1 2 [demoComment "c2" "tighten pacing" group 10 (Some "") (Some [1; 2])]])].

(** The document [sameIdStory] is imported from: the first entry gives
    two comments of the same group the same id. *)
Definition sameIdDocument : ImportedStoryFormat :=
  mkImported
    (AnalysisArray
       [mkRaw (Some "Once upon a time.") (Some (JNum 1)) (Some (JNum 1)) None None
          (Some [mkRawComment (Some "c1") "tighten pacing" group (Some 10) (Some "g1")
                   (Some [1; 2]);
                 mkRawComment (Some "c1") "tighten pacing" group (Some 10) (Some "g1")
                   (Some [1; 2])]) ∅;
        mkRaw (Some "Once upon a time.") (Some (JNum 1)) (Some (JNum 2)) None None
          (Some [mkRawComment (Some "c2") "tighten pacing" group (Some 10) (Some "g1")
                   (Some [1; 2])]) ∅])
    (Some (mkCompleteStory (Some "Tale") None)).

(** A sentence holding two instances of a group comment under one id,
    and a second sentence holding a third instance. *)
Definition sameIdStory : ProcessedStoryData :=
  mkStory "Tale"
    [(1, [demoSentence 1 1 [demoComment "c1" "tighten pacing" group 10 (Some "g1") (Some [1; 2]);
                            demoComment "c1" "tighten pacing" group 10 (Some "g1") (Some [1; 2])];
          demoSentence 1 2 [demoComment "c2" "tighten pacing" group 10 (Some "g1") (Some [1; 2])]])].

(** The only channel by which a handler reports a failure: the error
    banner. *)
Definition signalsError (st : AppState) : Prop := is_Some (error st).

(** ** Validity of a document *)

(** An entry [handleFileLoad] rejects: a chapter number or a sentence
    number that is not a number, or a sentence text that is missing or
    empty. *)
Definition invalidEntry (raw : RawAnalysisItem) : Prop :=
  as_number (r_ChapterNumber raw) = None
  \/ as_number (r_SentenceNumber raw) = None
  \/ r_Sentence raw = None
  \/ r_Sentence raw = Some EmptyString.

Definition invalidDocument (d : ImportedStoryFormat) : Prop :=
  im_Analysis d = AnalysisMissing
  \/ (exists v, im_Analysis d = AnalysisOther v)
  \/ im_TheCompleteStory d = None
  \/ (exists complete, im_TheCompleteStory d = Some complete /\ cs_Title complete = None)
  \/ (exists entries raw,
        im_Analysis d = AnalysisArray entries /\ raw ∈ entries /\ invalidEntry raw).

Definition isValidationError (e : AppError) : Prop :=
  e = ErrParsing_MissingRequiredFields
  \/ e = ErrParsing_AnalysisNotArray
  \/ exists raw, e = ErrProcessing_InvalidEntry raw.

(** A document whose second entry gives the chapter number as a string. *)
Definition badChapterDocument : ImportedStoryFormat :=
  mkImported
    (AnalysisArray
       [mkRaw (Some "Once upon a time.") (Some (JNum 1)) (Some (JNum 1)) None None None ∅;
        mkRaw (Some "The end.") (Some (JStr "one")) (Some (JNum 2)) None None None ∅])
    (Some (mkCompleteStory (Some "Tale") (Some ["Once upon a time. The end."]))).

(** [c] is the latest comment of [cs]: the first, in list order, among the
    comments with the greatest timestamp. *)
Definition isLatest (cs : list CommentObject) (c : CommentObject) : Prop :=
  exists l1 l2, cs = l1 ++ c :: l2
    /\ Forall (fun x => c_timestamp x < c_timestamp c) l1
    /\ Forall (fun x => c_timestamp x <= c_timestamp c) l2.

(** A document in the legacy format whose applies-to property names no
    sentence number. *)
Definition legacyGroupDocument : ImportedStoryFormat :=
  mkImported
    (AnalysisArray
       [mkRaw (Some "Once upon a time.") (Some (JNum 1)) (Some (JNum 1))
          (Some "tighten pacing") (Some "n/a") None ∅])
    (Some (mkCompleteStory (Some "Tale") (Some ["Once upon a time."]))).

(** ** Equivalence of stories across a round trip *)

(** The same comment, up to a timestamp that was 0 (which an import
    replaces by the import time). *)
Definition commentEquiv (c c' : CommentObject) : Prop :=
  c_id c' = c_id c
  /\ c_text c' = c_text c
  /\ c_type c' = c_type c
  /\ c_groupId c' = c_groupId c
  /\ c_appliesToSentenceNumbers c' = c_appliesToSentenceNumbers c
  /\ (c_timestamp c <> 0 -> c_timestamp c' = c_timestamp c).

Definition itemEquiv (a a' : AnalysisItem) : Prop :=
  a_id a' = a_id a
  /\ a_Sentence a' = a_Sentence a
  /\ a_ChapterNumber a' = a_ChapterNumber a
  /\ a_SentenceNumber a' = a_SentenceNumber a
  /\ a_additionalAnalysis a' = a_additionalAnalysis a
  /\ Forall2 commentEquiv (a_comments a) (a_comments a').

(** The same title and, chapter by chapter, the same sentences in the same
    order. *)
Definition storyEquiv (s s' : ProcessedStoryData) : Prop :=
  title s' = title s
  /\ forall k, option_Forall2 (Forall2 itemEquiv)
                 (map_get k (chapters s)) (map_get k (chapters s')).

(** The entries of a list that belong to chapter [k]. *)
Definition chapterItems (k : Z) (l : list AnalysisItem) : list AnalysisItem :=
  filter (fun it => a_ChapterNumber it = k) l.

(** The map after the items of [items] have been pushed in turn. *)
Definition pushAll (items : list AnalysisItem) (m : ChaptersMap) : ChaptersMap :=
  foldl (fun m item => pushItem item m) m items.

(** What [handleFileLoad] guarantees of an item it has built. *)
Definition importedItem (item : AnalysisItem) : Prop :=
  a_id item = sentenceId (a_ChapterNumber item) (a_SentenceNumber item)
  /\ Js.truthy (a_Sentence item) = true
  /\ Forall (fun c => Js.truthy (c_id c) = true) (a_comments item).

(** Each list of a map holds items of its chapter. *)
Definition wellKeyed (m : ChaptersMap) : Prop :=
  Forall (fun e => Forall (fun it => a_ChapterNumber it = e.1) e.2) m.

(** The order of the full export, on sentences. *)
Definition byChapterThenSentence (a b : AnalysisItem) : Z :=
  byFullOrder (fullExportItem a) (fullExportItem b).

(** A document with legacy and full comments, chapters out of order. *)
Definition mixedDocument : ImportedStoryFormat :=
  mkImported
    (AnalysisArray
       [mkRaw (Some "The end.") (Some (JNum 2)) (Some (JNum 1))
          (Some "tighten pacing") (Some "1, 3") None {["Plot Function" := JStr "closing"]};
        mkRaw (Some "She left.") (Some (JNum 1)) (Some (JNum 2)) None None
          (Some [mkRawComment None "cut" group None (Some "g") (Some [1; 2]);
                 mkRawComment (Some "k") "keep" single (Some 7) None None])
          {["Mood" := JNum 3]};
        mkRaw (Some "Once upon a time.") (Some (JNum 1)) (Some (JNum 1)) None None None ∅])
    (Some (mkCompleteStory (Some "Tale") (Some ["Once upon a time. She left."; "The end."]))).

(** A document one of whose sentences is numbered [-1]. *)
Definition minusOneDocument : ImportedStoryFormat :=
  mkImported
    (AnalysisArray
       [mkRaw (Some "Before the tale.") (Some (JNum 1)) (Some (JNum (-1))) None None None ∅;
        mkRaw (Some "Once upon a time.") (Some (JNum 1)) (Some (JNum 2)) None None None ∅])
    (Some (mkCompleteStory (Some "Tale") (Some ["Before the tale. Once upon a time."]))).

(** Two maps with the same chapters in the same order, each with as many
    sentences. *)
Definition sameShape (m m' : ChaptersMap) : Prop :=
  Forall2 (fun e e' => e'.1 = e.1 /\ length e'.2 = length e.2) m m'.

(** * Further properties of the application: definitions *)

(** ** The documents on which the embedding is exact *)

(** [Number.isSafeInteger], on integers: at most 2^53 - 1 in absolute
    value. *)
Definition isSafeInteger (z : Z) : bool := Z.abs z <=? 9007199254740991.

(** The values [String] prints as [js_String] says: a safe integer, a
    string, a boolean, [null], an array of such values, and an object
    without an own property [toString] (what an object holds is not
    printed). *)
Fixpoint js_plain (v : JValue) : bool :=
  match v with
  | JNum z => isSafeInteger z
  | JArr l =>
      (fix all (l : list JValue) : bool :=
         match l with
         | [] => true
         | x :: l' => js_plain x && all l'
         end) l
  | JObj props => negb (existsb (fun p => String.eqb p.1 "toString") props)
  | _ => true
  end.

(** An entry on which the import is the code's, digit for digit: its two
    numbers are safe integers, no extra property is named [__proto__], every
    extra property is printed by [String], and the numbers of the legacy
    applies-to property are safe integers. *)
Definition plainEntry (raw : RawAnalysisItem) : Prop :=
  (forall z, as_number (r_ChapterNumber raw) = Some z -> isSafeInteger z = true)
  /\ (forall z, as_number (r_SentenceNumber raw) = Some z -> isSafeInteger z = true)
  /\ r_additionalProps raw !! "__proto__" = None
  /\ map_Forall (fun _ v => js_plain v = true) (r_additionalProps raw)
  /\ Forall (fun z => isSafeInteger z = true)
       (parseAppliesTo (default EmptyString (r_commentAppliesTo raw))).

Definition plainDocument (d : ImportedStoryFormat) : Prop :=
  forall entries, im_Analysis d = AnalysisArray entries -> Forall plainEntry entries.

(** The sentence-number lists of the comments of [item] hold safe
    integers. *)
Definition safeNumbers (item : AnalysisItem) : Prop :=
  Forall (fun c => Forall (fun z => isSafeInteger z = true)
                     (default [] (c_appliesToSentenceNumbers c)))
    (a_comments item).

(** ** What an import makes of a document *)

(** An entry [handleFileLoad] accepts. *)
Definition validEntry (raw : RawAnalysisItem) : Prop :=
  is_Some (as_number (r_ChapterNumber raw))
  /\ is_Some (as_number (r_SentenceNumber raw))
  /\ exists sentenceText, r_Sentence raw = Some sentenceText /\ Js.truthy sentenceText = true.

(** A document [processFile] and [handleFileLoad] accept. *)
Definition validDocument (d : ImportedStoryFormat) : Prop :=
  exists entries complete t,
    im_Analysis d = AnalysisArray entries
    /\ im_TheCompleteStory d = Some complete
    /\ cs_Title complete = Some t /\ Js.truthy t = true
    /\ Forall validEntry entries.

(** A comment built from an entry of [all_comments]: the id and the
    timestamp of the file when it gives them, the other fields as they are. *)
Definition commentFromRaw (rc : RawComment) (c : CommentObject) : Prop :=
  c_text c = rc_text rc
  /\ c_type c = rc_type rc
  /\ c_groupId c = rc_groupId rc
  /\ c_appliesToSentenceNumbers c = rc_appliesToSentenceNumbers rc
  /\ Js.truthy (c_id c) = true
  /\ (forall id, rc_id rc = Some id -> Js.truthy id = true -> c_id c = id)
  /\ (forall z, rc_timestamp rc = Some z -> z <> 0 -> c_timestamp c = z).

(** The comment synthesised from the legacy properties. *)
Definition commentFromLegacy (rawCommentText : string) (rawAppliesTo : option string)
    (c : CommentObject) : Prop :=
  c_text c = rawCommentText
  /\ Js.truthy (c_id c) = true
  /\ if Js.truthy_opt rawAppliesTo
     then c_type c = group
          /\ (exists gid, c_groupId c = Some gid /\ Js.truthy gid = true)
          /\ c_appliesToSentenceNumbers c
             = Some (parseAppliesTo (default EmptyString rawAppliesTo))
     else c_type c = single /\ c_groupId c = None
          /\ c_appliesToSentenceNumbers c = None.

(** The comments of the sentence built from [raw]. *)
Definition commentsFromEntry (raw : RawAnalysisItem) (cs : list CommentObject) : Prop :=
  match r_all_comments raw with
  | Some all_comments => Forall2 commentFromRaw all_comments cs
  | None =>
      if Js.truthy_opt (r_comment raw)
      then exists c, cs = [c]
             /\ commentFromLegacy (default EmptyString (r_comment raw))
                  (r_commentAppliesTo raw) c
      else cs = []
  end.

(** The sentence built from [raw]. *)
Definition itemFromEntry (raw : RawAnalysisItem) (item : AnalysisItem) : Prop :=
  as_number (r_ChapterNumber raw) = Some (a_ChapterNumber item)
  /\ as_number (r_SentenceNumber raw) = Some (a_SentenceNumber item)
  /\ r_Sentence raw = Some (a_Sentence item)
  /\ a_id item = sentenceId (a_ChapterNumber item) (a_SentenceNumber item)
  /\ a_additionalAnalysis item = js_String <$> r_additionalProps raw
  /\ commentsFromEntry raw (a_comments item).

(** The lists of a map are in ascending order of sentence number. *)
Definition sortedChapters (m : ChaptersMap) : Prop :=
  Forall (fun e => StronglySorted (fun a b => a_SentenceNumber a <= a_SentenceNumber b) e.2) m.

(** ** What the mutators leave alone *)

(** A sentence without its comments, and a map of such sentences: what no
    mutator may change. *)
Definition frameOf (s : AnalysisItem) : AnalysisItem := withComments s [].

Definition framesOf (m : ChaptersMap) : ChaptersMap := mapValues (fmap frameOf) m.

(** An edit may change the text and the timestamp of a comment, to the new
    text and the edit time, and nothing else of it. *)
Definition editedFrom (text : string) (now : Z) (c c' : CommentObject) : Prop :=
  c' = c \/ c' = withEdit text now c.

(** The well-formedness an import establishes. *)
Definition storyWellFormed (m : ChaptersMap) : Prop :=
  NoDup m.*1
  /\ wellKeyed m
  /\ sortedChapters m
  /\ Forall (fun e => e.2 <> []) m
  /\ Forall importedItem (allSentences m).

Definition stateWellFormed (st : AppState) : Prop :=
  match storyData st with
  | Some story => storyWellFormed (chapters story)
  | None => True
  end.

(** [R] relates the comments of every sentence before and after, and the
    sentences are otherwise the same, in the same order. *)
Definition perSentence (R : list CommentObject -> list CommentObject -> Prop)
    (m m' : ChaptersMap) : Prop :=
  Forall2 (fun s s' => frameOf s' = frameOf s /\ R (a_comments s) (a_comments s'))
    (allSentences m) (allSentences m').

(** A comment made by the call that saves [text] under [env]. *)
Definition addedBy (env : Env) (text : string) (c : CommentObject) : Prop :=
  c_text c = Js.trim text
  /\ c_timestamp c = clock env 0
  /\ exists tick, c_id c = generateUniqueId env tick.

Definition appendedTo (env : Env) (text : string) (cs cs' : list CommentObject) : Prop :=
  exists new, cs' = cs ++ new /\ Forall (addedBy env text) new.

Definition editedTo (env : Env) (text : string) (cs cs' : list CommentObject) : Prop :=
  Forall2 (editedFrom (Js.trim text) (clock env 0)) cs cs'.

Definition removedFrom (cs cs' : list CommentObject) : Prop := cs' `sublist_of` cs.

(** ** Selection, modal and mode handlers of [App.tsx] *)

(** [has(id) ? delete(id) : add(id)] on a copy of the [Set] of selected
    ids; a [Set] keeps its elements in insertion order. *)
Definition toggleSelection (id : string) (selection : list string) : list string :=
  if bool_decide (id ∈ selection) then filter (fun x => x <> id) selection
  else selection ++ [id].

Definition handleSelectSentence (st : AppState) (item : AnalysisItem) : AppState :=
  match editMode st with
  | mode_single =>
      mkState (storyData st) (originalCompleteStory st) (Some item) true (error st)
              (isLoading st) (editMode st) (bulkSelectedSentenceIds st)
  | _ =>
      mkState (storyData st) (originalCompleteStory st) None (isModalOpen st) (error st)
              (isLoading st) (editMode st)
              (toggleSelection (a_id item) (bulkSelectedSentenceIds st))
  end.

Definition handleOpenModalForBulkAnnotate (st : AppState) : AppState :=
  match bulkSelectedSentenceIds st, editMode st with
  | [], _ => st
  | _, mode_single => st
  | _, _ =>
      mkState (storyData st) (originalCompleteStory st) None true (error st)
              (isLoading st) (editMode st) (bulkSelectedSentenceIds st)
  end.

Definition handleCloseModal (st : AppState) : AppState :=
  mkState (storyData st) (originalCompleteStory st) (selectedAnalysisItem st) false
          (error st) (isLoading st) (editMode st) (bulkSelectedSentenceIds st).

(** [setEditMode(mode)] from a mode button, with the effect that depends
    on [editMode]: it runs when the mode has changed, and empties the bulk
    selection when the mode is then single. *)
Definition chooseEditMode (st : AppState) (mode : EditMode) : AppState :=
  mkState (storyData st) (originalCompleteStory st) (selectedAnalysisItem st)
          (isModalOpen st) (error st) (isLoading st) mode
          (match mode, editMode st with
           | mode_single, mode_single => bulkSelectedSentenceIds st
           | mode_single, _ => []
           | _, _ => bulkSelectedSentenceIds st
           end).

(** [setError(null)] from the banner's close button. *)
Definition dismissError (st : AppState) : AppState :=
  mkState (storyData st) (originalCompleteStory st) (selectedAnalysisItem st)
          (isModalOpen st) None (isLoading st) (editMode st) (bulkSelectedSentenceIds st).

(** [displayChapters]: the entries of the map, as pairs of a chapter
    number and its sentences, sorted by chapter number. *)
Definition byChapterNumber (a b : Z * list AnalysisItem) : Z := a.1 - b.1.

Definition displayChapters (st : AppState) : list (Z * list AnalysisItem) :=
  match storyData st with
  | None => []
  | Some story => Js.sort byChapterNumber (chapters story)
  end.

(** ** Rendering: [StoryDisplay] *)

Definition doubleQuote : string := String (ascii_of_nat 34) EmptyString.

(** [getCommentSummary]: the summary shown under a sentence, and the
    array it was given as the call leaves it -- [comments.sort(...)] sorts
    the array of the sentence itself, not a copy. *)
Definition getCommentSummary (comments : list CommentObject)
  : string * list CommentObject :=
  match comments with
  | [] => (EmptyString, comments)
  | _ =>
      let sorted := Js.sort byTimestampDesc comments in
      match head sorted with
      | None => (EmptyString, sorted)
      | Some latest =>
          let summary :=
            ("Annotation (" +:+ Js.string_of_Z (Z.of_nat (length comments)) +:+ "): "
             +:+ doubleQuote +:+ String.substring 0 40 (c_text latest))%string in
          let summary :=
            if Nat.ltb 40 (String.length (c_text latest))
            then (summary +:+ "...")%string else summary in
          let summary := (summary +:+ doubleQuote)%string in
          let summary :=
            match c_type latest with
            | group => (summary +:+ " (Group)")%string
            | single => summary
            end in
          (summary, sorted)
      end
  end.

(** A sentence after its paragraph has been rendered:
    [item.comments.length > 0 && getCommentSummary(item.comments)]. *)
Definition renderSentence (item : AnalysisItem) : AnalysisItem :=
  match a_comments item with
  | [] => item
  | comments => withComments item (getCommentSummary comments).2
  end.

(** The story held by the state after [StoryDisplay] has rendered it; the
    component returns early without a title or without a chapter. *)
Definition renderStory (story : ProcessedStoryData) : ProcessedStoryData :=
  if (negb (Js.truthy (title story)) || bool_decide (chapters story = []))%bool
  then story
  else mkStory (title story) (mapValues (fmap renderSentence) (chapters story)).

(** Latest first. *)
Definition latestFirst (cs : list CommentObject) : Prop :=
  StronglySorted (fun a b => c_timestamp b <= c_timestamp a) cs.

Definition reordered (cs cs' : list CommentObject) : Prop :=
  cs' ≡ₚ cs /\ latestFirst cs'.

(** ** The application as a whole *)

(** The state after the page has rendered.  [StoryDisplay] is rendered
    when a story is held and nothing is loading, and sorts the comment arrays
    of the story where it does not return early.  The selected sentence is an
    object of its own in the state; [sharesComments] says whether its
    comment array is one of the arrays of the story, and is then sorted with
    it. *)
Definition storyShown (st : AppState) : bool :=
  negb (isLoading st)
  && match storyData st with
     | Some story => Js.truthy (title story) && negb (bool_decide (chapters story = []))
     | None => false
     end.

Definition afterRender (sharesComments : bool) (st : AppState) : AppState :=
  if storyShown st then
    mkState (renderStory <$> storyData st) (originalCompleteStory st)
            (if sharesComments then renderSentence <$> selectedAnalysisItem st
             else selectedAnalysisItem st)
            (isModalOpen st) (error st) (isLoading st) (editMode st)
            (bulkSelectedSentenceIds st)
  else st.

(** What happens between two states of the application: a handler runs,
    or the page renders.  The handlers are not restricted to the moments at
    which the page offers them, and a render may come at any moment; the
    application renders after every change of state. *)
Inductive Action :=
| Rendered (sharesComments : bool)
| FileChosen (env : Env) (file : FileContent)
| FileDropped (env : Env) (isJsonType : bool) (file : FileContent)
| SentenceClicked (item : AnalysisItem)
| BulkAnnotateClicked
| ModalClosed
| EditModeChosen (mode : EditMode)
| ErrorDismissed
| Mutated (mu : Mutation)
| ExportClicked (isSimpleExport : bool).

Definition act (st : AppState) (a : Action) : AppState :=
  match a with
  | Rendered sharesComments => afterRender sharesComments st
  | FileChosen env file => processFile env st file
  | FileDropped env isJsonType file => handleDrop env st isJsonType file
  | SentenceClicked item => handleSelectSentence st item
  | BulkAnnotateClicked => handleOpenModalForBulkAnnotate st
  | ModalClosed => handleCloseModal st
  | EditModeChosen mode => chooseEditMode st mode
  | ErrorDismissed => dismissError st
  | Mutated mu => runMutation st mu
  | ExportClicked isSimpleExport => (commonExportLogic isSimpleExport st).1
  end.

(** The state after a session that starts with the initial state. *)
Definition run (actions : list Action) : AppState := foldl act emptyState actions.

(** A session whose files, where they parse, are plain documents: the
    sessions of which [run] is, step by step, the state of the
    application. *)
Definition plainAction (a : Action) : Prop :=
  match a with
  | FileChosen _ (FileJson d) => plainDocument d
  | FileDropped _ _ (FileJson d) => plainDocument d
  | _ => True
  end.

Definition plainSession (actions : list Action) : Prop := Forall plainAction actions.

Definition appInvariant (st : AppState) : Prop :=
  stateWellFormed st
  /\ (storyData st = None <-> originalCompleteStory st = None)
  /\ (is_Some (error st) -> storyData st = None)
  /\ NoDup (bulkSelectedSentenceIds st)
  /\ (editMode st = mode_single -> bulkSelectedSentenceIds st = [])
  /\ isLoading st = false.

(** ** Order of the exports *)

(** Ascending by chapter number, then by sentence number. *)
Definition chapterThenSentence (a b : AnalysisItem) : Prop :=
  a_ChapterNumber a < a_ChapterNumber b
  \/ (a_ChapterNumber a = a_ChapterNumber b /\ a_SentenceNumber a <= a_SentenceNumber b).

(** ** The name of the exported file *)







(** ** The annotation modal *)

Module AnnotationModal.

Record ModalState := mkModal {
  newCommentText : string;
  editingCommentDetail : option EditingCommentDetail
}.

(** The pencil next to a comment of the list. *)
Definition handleEditComment (comment : CommentObject) (ms : ModalState) : ModalState :=
  mkModal (c_text comment) (Some (mkDetail (c_id comment) (c_groupId comment))).

(** Typing in the text area. *)
Definition setNewCommentText (text : string) (ms : ModalState) : ModalState :=
  mkModal text (editingCommentDetail ms).

(** The save button: the application's [handleSaveOrUpdateComment] is
    the [onSaveOrUpdateComment] property. *)
Definition handleSaveOrUpdate (env : Env) (ms : ModalState) (st : AppState)
  : ModalState * AppState :=
  if String.eqb (Js.trim (newCommentText ms)) EmptyString then (ms, st)
  else (mkModal EmptyString None,
        handleSaveOrUpdateComment env st (Js.trim (newCommentText ms))
          (editingCommentDetail ms)).

(** The bin next to a comment: [item] is the selected sentence of the
    application. *)
Definition handleDelete (commentId : string) (ms : ModalState) (st : AppState)
  : ModalState * AppState :=
  match selectedAnalysisItem st with
  | Some item =>
      (match editingCommentDetail ms with
       | Some detail =>
           if String.eqb (e_id detail) commentId then mkModal EmptyString None else ms
       | None => ms
       end,
       handleDeleteComment st (a_id item) commentId)
  | None => (ms, st)
  end.

End AnnotationModal.

(** ** The file name shown by the importer *)

(** [fileName] of [FileImporter] after [processFile] on the file called
    [name]: set after [onFileLoad] has returned, cleared on an error of
    reading or parsing. *)
Definition fileNameAfterProcess (name : string) (file : FileContent) : option string :=
  match file with
  | FileJson parsedData =>
      if (analysisFalsy (im_Analysis parsedData)
          || titleFalsy (im_TheCompleteStory parsedData))%bool
      then None
      else if negb (isArray (im_Analysis parsedData)) then None
      else Some name
  | _ => None
  end.

(** After [handleDrop]: a file of another type leaves the name as it was. *)
Definition fileNameAfterDrop (current : option string) (isJsonType : bool)
    (name : string) (file : FileContent) : option string :=
  if isJsonType then fileNameAfterProcess name file else current.

(** ** The legacy applies-to field, written and read back *)

(** A character of a decimal numeral: a digit or the minus sign. *)
Definition isNumeralChar (c : ascii) : bool :=
  let n := nat_of_ascii c in
  ((Nat.leb 48 n && Nat.leb n 57) || Nat.eqb n 45)%bool.

Fixpoint isNumeral (s : string) : bool :=
  match s with
  | EmptyString => true
  | String c s' => isNumeralChar c && isNumeral s'
  end.

(** * Part II: properties of the embedding *)

(** ** Facts about the JavaScript primitives *)

Section JsFacts.
Context {A : Type}.
Implicit Types (p : A -> bool) (l : list A).

Lemma findIndex_None p l :
  Js.findIndex p l = None <-> Forall (fun x => p x = false) l.
Proof.
  induction l as [|x l IH]; simpl.
  - split; [constructor | done].
  - destruct (p x) eqn:Hx.
    + split; [done | inversion 1; congruence].
    + rewrite fmap_None, IH. split; [by constructor | by inversion 1].
Qed.

Lemma findIndex_Some p l i :
  Js.findIndex p l = Some i ->
  exists l1 x l2, l = l1 ++ x :: l2 /\ length l1 = i
    /\ Forall (fun y => p y = false) l1 /\ p x = true.
Proof.
  revert i. induction l as [|x l IH]; intros i; simpl; [done|].
  destruct (p x) eqn:Hx.
  - intros [= <-]. by exists [], x, l.
  - intros (j & Hj & ->)%fmap_Some.
    destruct (IH j Hj) as (l1 & y & l2 & -> & <- & Hl1 & Hy).
    exists (x :: l1), y, l2. repeat split; auto.
Qed.

Lemma findIndex_lookup p l i :
  Js.findIndex p l = Some i -> exists x, l !! i = Some x /\ p x = true.
Proof.
  intros (l1 & x & l2 & -> & <- & _ & Hx)%findIndex_Some.
  exists x. by rewrite list_lookup_middle.
Qed.

Lemma some_false p l :
  Js.some p l = false <-> Forall (fun x => p x = false) l.
Proof.
  unfold Js.some. induction l as [|x l IH]; simpl.
  - split; [constructor | done].
  - rewrite orb_false_iff, IH. split; [intros []; by constructor | by inversion 1].
Qed.

Lemma some_true p l :
  Js.some p l = true <-> exists x, x ∈ l /\ p x = true.
Proof.
  unfold Js.some. rewrite existsb_exists.
  by setoid_rewrite list_elem_of_In.
Qed.

Lemma find_None p l :
  Js.find p l = None <-> Forall (fun x => p x = false) l.
Proof.
  unfold Js.find. induction l as [|x l IH]; simpl.
  - split; [constructor | done].
  - destruct (p x) eqn:Hx.
    + split; [done | inversion 1; congruence].
    + rewrite IH. split; [by constructor | by inversion 1].
Qed.

Lemma find_Some p l x :
  Js.find p l = Some x ->
  exists l1 l2, l = l1 ++ x :: l2 /\ Forall (fun y => p y = false) l1 /\ p x = true.
Proof.
  unfold Js.find. induction l as [|y l IH]; simpl; [done|].
  destruct (p y) eqn:Hy.
  - intros [= <-]. by exists [], l.
  - intros (l1 & l2 & -> & Hl1 & Hx)%IH.
    exists (y :: l1), l2. repeat split; auto.
Qed.

Lemma find_app_false p l1 l2 :
  Forall (fun y => p y = false) l1 -> Js.find p (l1 ++ l2) = Js.find p l2.
Proof.
  unfold Js.find. induction 1 as [|y l1 Hy _ IH]; simpl; [done|]. by rewrite Hy.
Qed.

Lemma findIndex_app_false p l1 l2 :
  Forall (fun y => p y = false) l1 ->
  Js.findIndex p (l1 ++ l2) = (fun i => (length l1 + i)%nat) <$> Js.findIndex p l2.
Proof.
  induction 1 as [|y l1 Hy _ IH]; simpl.
  - by destruct (Js.findIndex p l2).
  - rewrite Hy, IH. by destruct (Js.findIndex p l2).
Qed.

Lemma alter_middle (f : A -> A) l1 x l2 :
  alter f (length l1) (l1 ++ x :: l2) = l1 ++ f x :: l2.
Proof. induction l1; simpl; by f_equal. Qed.

Lemma fmap_id_on (f : A -> A) l :
  Forall (fun x => f x = x) l -> f <$> l = l.
Proof. induction 1; simpl; by f_equal. Qed.
End JsFacts.

(** ** Sentences and comments of a container *)

Lemma allComments_eq m : allComments m = commentsOf (allSentences m).
Proof. done. Qed.

Lemma allSentences_app (m1 m2 : ChaptersMap) :
  allSentences (m1 ++ m2) = allSentences m1 ++ allSentences m2.
Proof. unfold allSentences. by rewrite fmap_app, join_app. Qed.

Lemma allSentences_cons k ss (m : ChaptersMap) :
  allSentences ((k, ss) :: m) = ss ++ allSentences m.
Proof. done. Qed.

Lemma commentsOf_app l1 l2 : commentsOf (l1 ++ l2) = commentsOf l1 ++ commentsOf l2.
Proof. unfold commentsOf. by rewrite fmap_app, join_app. Qed.

Lemma commentsOf_cons s l : commentsOf (s :: l) = a_comments s ++ commentsOf l.
Proof. done. Qed.

Lemma elem_of_commentsOf c l :
  c ∈ commentsOf l <-> exists s, s ∈ l /\ c ∈ a_comments s.
Proof.
  unfold commentsOf. rewrite list_elem_of_join. split.
  - intros (cs & Hc & (s & -> & Hs)%list_elem_of_fmap). eauto.
  - intros (s & Hs & Hc). exists (a_comments s). split; [done|].
    by apply list_elem_of_fmap_2.
Qed.

Lemma elem_of_allComments c m :
  c ∈ allComments m <-> exists s, s ∈ allSentences m /\ c ∈ a_comments s.
Proof. apply elem_of_commentsOf. Qed.

Lemma commentsOf_fmap (f : AnalysisItem -> AnalysisItem) (g : CommentObject -> CommentObject) l :
  (forall s, a_comments (f s) = g <$> a_comments s) ->
  commentsOf (f <$> l) = g <$> commentsOf l.
Proof.
  intros Hf. induction l as [|s l IH]; [done|].
  rewrite fmap_cons, !commentsOf_cons, fmap_app, Hf. by f_equal.
Qed.

Lemma allSentences_mapValues_fmap (f : AnalysisItem -> AnalysisItem) m :
  allSentences (mapValues (fmap f) m) = f <$> allSentences m.
Proof.
  induction m as [|[k ss] m IH]; [done|].
  unfold mapValues in *. rewrite fmap_cons. simpl.
  rewrite !allSentences_cons, fmap_app. by f_equal.
Qed.

(** *** The shared loop *)

Lemma updateFirst_None p f m :
  updateFirst p f m = None <-> Forall (fun s => p s = false) (allSentences m).
Proof.
  induction m as [|[k ss] m IH]; simpl.
  - split; [constructor | done].
  - rewrite allSentences_cons, Forall_app.
    destruct (Js.findIndex p ss) as [i|] eqn:Hi.
    + split; [done|]. intros [Hss%findIndex_None _]. congruence.
    + rewrite fmap_None, IH. apply findIndex_None in Hi. tauto.
Qed.

Lemma updateFirst_Some p f m m' :
  updateFirst p f m = Some m' ->
  exists pre k l1 s l2 post,
    m = pre ++ (k, l1 ++ s :: l2) :: post
    /\ m' = pre ++ (k, l1 ++ f s :: l2) :: post
    /\ Forall (fun x => p x = false) (allSentences pre)
    /\ Forall (fun x => p x = false) l1
    /\ p s = true.
Proof.
  revert m'. induction m as [|[k ss] m IH]; intros m'; simpl; [done|].
  destruct (Js.findIndex p ss) as [i|] eqn:Hi.
  - intros [= <-].
    apply findIndex_Some in Hi as (l1 & s & l2 & -> & <- & Hl1 & Hs).
    exists [], k, l1, s, l2, m. rewrite alter_middle. repeat split; auto.
  - intros (m0 & Hm0 & ->)%fmap_Some.
    destruct (IH _ Hm0) as (pre & k' & l1 & s & l2 & post & -> & -> & Hpre & Hl1 & Hs).
    exists ((k, ss) :: pre), k', l1, s, l2, post. repeat split; auto.
    rewrite allSentences_cons, Forall_app. split; [|done]. by apply findIndex_None.
Qed.

Lemma firstMatch_spec p f m m' :
  updateFirst p f m = Some m' ->
  exists s, firstMatch p m = Some s /\ p s = true.
Proof.
  revert m'. induction m as [|[k ss] m IH]; intros m'; simpl; [done|].
  destruct (Js.findIndex p ss) as [i|] eqn:Hi.
  - intros _. by apply findIndex_lookup.
  - intros (m0 & Hm0 & ->)%fmap_Some. eauto.
Qed.

(** Flattened view of one step of the loop. *)
Lemma updateFirst_flat p f m m' :
  updateFirst p f m = Some m' ->
  exists l1 s l2,
    allSentences m = l1 ++ s :: l2
    /\ allSentences m' = l1 ++ f s :: l2
    /\ Forall (fun x => p x = false) l1
    /\ p s = true.
Proof.
  intros (pre & k & l1 & s & l2 & post & -> & -> & Hpre & Hl1 & Hs)%updateFirst_Some.
  exists (allSentences pre ++ l1), s, (l2 ++ allSentences post).
  rewrite !allSentences_app, !allSentences_cons, Forall_app.
  by rewrite <- !(assoc_L (++)).
Qed.

Lemma updateFirst_replacedOne p f m m' :
  updateFirst p f m = Some m' -> exists s, p s = true /\ replacedOne m m' s (f s).
Proof.
  intros (l1 & s & l2 & ? & ? & _ & ?)%updateFirst_flat. exists s. split; [done|].
  by exists l1, l2.
Qed.

Lemma replacedOne_comments m m' s s' c :
  replacedOne m m' s s' ->
  c ∈ allComments m' -> c ∈ a_comments s' \/ c ∈ allComments m.
Proof.
  intros (l1 & l2 & Hm & Hm'). rewrite !allComments_eq, Hm, Hm'.
  rewrite !commentsOf_app, !commentsOf_cons, !elem_of_app. tauto.
Qed.

Lemma replacedOne_sentence m m' s s' : replacedOne m m' s s' -> s ∈ allSentences m.
Proof. intros (l1 & l2 & -> & _). rewrite elem_of_app, elem_of_cons. auto. Qed.

Lemma map_set_present k v ss (m : ChaptersMap) :
  map_get k m = Some ss ->
  exists pre post, m = pre ++ (k, ss) :: post /\ map_set k v m = pre ++ (k, v) :: post.
Proof.
  induction m as [|[k' v'] m IH]; simpl; [done|].
  destruct (Z.eqb_spec k' k) as [->|Hk].
  - intros [= ->]. by exists [], m.
  - intros (pre & post & -> & ->)%IH. by exists ((k', v') :: pre), post.
Qed.

Lemma addSingle_replacedOne c selected m m' u :
  addSingle c selected m = (m', Some u) ->
  exists s, replacedOne m m' s (appendComment c s).
Proof.
  unfold addSingle.
  destruct (map_get _ m) as [ss|] eqn:Hget; [|done].
  destruct (Js.findIndex _ ss) as [i|] eqn:Hi; [|done].
  intros [= <- _].
  apply findIndex_Some in Hi as (l1 & s & l2 & -> & <- & _ & _).
  destruct (map_set_present _ (alter (appendComment c) (length l1) (l1 ++ s :: l2)) _ _ Hget)
    as (pre & post & Hm & ->).
  exists s, (allSentences pre ++ l1), (l2 ++ allSentences post).
  rewrite Hm, alter_middle, !allSentences_app, !allSentences_cons.
  by rewrite <- !(assoc_L (++)).
Qed.

Lemma addSingle_None c selected m m' :
  addSingle c selected m = (m', None) -> m' = m.
Proof.
  unfold addSingle.
  destruct (map_get _ m) as [ss|]; [|by intros [= <-]].
  destruct (Js.findIndex _ ss) as [i|] eqn:Hi; [|by intros [= <-]].
  apply findIndex_lookup in Hi as (x & -> & _). done.
Qed.

(** *** Group consistency under the mutators *)

Lemma groupId_is_true G c : groupId_is G c = true <-> c_groupId c = Some G.
Proof.
  unfold groupId_is. destruct (c_groupId c) as [g|]; [|done].
  rewrite String.eqb_eq. split; congruence.
Qed.

Lemma groupId_is_false G c : groupId_is G c = false <-> c_groupId c <> Some G.
Proof. rewrite <- groupId_is_true. by destruct (groupId_is G c). Qed.

Lemma id_is_true i c : id_is i c = true <-> c_id c = i.
Proof. apply String.eqb_eq. Qed.

Lemma sentence_id_is_true i s : sentence_id_is i s = true <-> a_id s = i.
Proof. apply String.eqb_eq. Qed.

Lemma editGroupSentence_comments G eid text now s :
  a_comments (editGroupSentence G eid text now s)
  = editGroupComments G text now (a_comments s).
Proof.
  unfold editGroupSentence. destruct (Js.findIndex _ _); [done|].
  destruct (Js.some _ _) eqn:H; [done|].
  apply some_false in H. symmetry. apply fmap_id_on.
  eapply Forall_impl; [exact H|]. intros c Hc; simpl in *. by rewrite Hc.
Qed.

Lemma allComments_editGroup G eid text now m :
  allComments (editGroup G eid text now m)
  = editGroupComments G text now (allComments m).
Proof.
  unfold editGroup. rewrite !allComments_eq, allSentences_mapValues_fmap.
  apply commentsOf_fmap, editGroupSentence_comments.
Qed.

Lemma groupConsistent_editGroup G eid text now m :
  groupConsistent m -> groupConsistent (editGroup G eid text now m).
Proof.
  intros H c1 c2 G'. rewrite allComments_editGroup. unfold editGroupComments.
  intros (a & -> & Ha)%list_elem_of_fmap (b & -> & Hb)%list_elem_of_fmap.
  destruct (groupId_is G a) eqn:Ea, (groupId_is G b) eqn:Eb; simpl; intros H1 H2.
  - done.
  - apply groupId_is_true in Ea. apply groupId_is_false in Eb. congruence.
  - apply groupId_is_true in Eb. apply groupId_is_false in Ea. congruence.
  - by eapply H.
Qed.

(** Removing comments, or changing only comments without a group id, keeps
    the container consistent. *)
Lemma groupConsistent_grouped_subset m m' :
  (forall c, c ∈ allComments m' -> is_Some (c_groupId c) -> c ∈ allComments m) ->
  groupConsistent m -> groupConsistent m'.
Proof.
  intros Hsub H c1 c2 G H1 H2 E1 E2.
  apply (H c1 c2 G); auto; apply Hsub; auto; by eexists.
Qed.

Lemma groupConsistent_editSingle eid text now m :
  (forall c, c ∈ allComments m -> c_id c = eid -> c_groupId c = None) ->
  groupConsistent m -> groupConsistent (editSingle eid text now m).
Proof.
  intros Hid. unfold editSingle.
  destruct (updateFirst _ _ m) as [m'|] eqn:Hup; simpl; [|done].
  apply groupConsistent_grouped_subset. intros c Hc [G HG].
  apply updateFirst_replacedOne in Hup as (s & _ & Hrep).
  destruct (replacedOne_comments _ _ _ _ _ Hrep Hc) as [Hin|]; [|done].
  simpl in Hin. apply list_elem_of_fmap in Hin as (c0 & -> & Hc0).
  assert (c0 ∈ allComments m) as Hm.
  { apply elem_of_allComments. eauto using replacedOne_sentence. }
  destruct (id_is eid c0) eqn:E; [|done].
  apply id_is_true in E. specialize (Hid c0 Hm E). simpl in HG. congruence.
Qed.

Lemma groupConsistent_append m m' s c :
  replacedOne m m' s (appendComment c s) ->
  (forall G c0, c_groupId c = Some G -> c0 ∈ allComments m -> c_groupId c0 = Some G ->
     c_text c0 = c_text c /\ c_timestamp c0 = c_timestamp c) ->
  groupConsistent m -> groupConsistent m'.
Proof.
  intros Hrep Hc H.
  assert (forall x, x ∈ allComments m' -> x = c \/ x ∈ allComments m) as Hin.
  { intros x Hx. destruct (replacedOne_comments _ _ _ _ _ Hrep Hx) as [Hx'|]; [|auto].
    simpl in Hx'. rewrite elem_of_app, list_elem_of_singleton in Hx'.
    destruct Hx' as [Hx'|]; [right|auto].
    apply elem_of_allComments. eauto using replacedOne_sentence. }
  intros c1 c2 G H1 H2 E1 E2.
  destruct (Hin _ H1) as [->|H1'], (Hin _ H2) as [->|H2']; [done| | |by eapply H].
  - destruct (Hc G c2 E1 H2' E2). split; congruence.
  - by apply (Hc G c1).
Qed.

Lemma bulkComment_text mode id text now gid nums :
  c_text (bulkComment mode id text now gid nums) = text
  /\ c_timestamp (bulkComment mode id text now gid nums) = now.
Proof. by destruct mode. Qed.

Lemma bulkComment_groupId mode id id' text now gid nums :
  c_groupId (bulkComment mode id text now gid nums)
  = c_groupId (bulkComment mode id' text now gid nums).
Proof. by destruct mode. Qed.

Lemma groupConsistent_addBulkLoop env mode text now gid nums ids tick m :
  (forall G c0, c_groupId (bulkComment mode "" text now gid nums) = Some G ->
     c0 ∈ allComments m -> c_groupId c0 = Some G ->
     c_text c0 = text /\ c_timestamp c0 = now) ->
  groupConsistent m ->
  groupConsistent (addBulkLoop env mode text now gid nums ids tick m).
Proof.
  revert tick m. induction ids as [|itemId ids IH]; intros tick m Hnew H; simpl; [done|].
  set (c := bulkComment mode (generateUniqueId env tick) text now gid nums).
  destruct (updateFirst _ _ m) as [m'|] eqn:Hup; [|by apply IH].
  apply updateFirst_replacedOne in Hup as (s & _ & Hrep).
  destruct (bulkComment_text mode (generateUniqueId env tick) text now gid nums) as [Ht Hn].
  apply IH.
  - intros G c0 HG Hc0 E.
    destruct (replacedOne_comments _ _ _ _ _ Hrep Hc0) as [Hin|Hin]; [|by eapply Hnew].
    simpl in Hin. rewrite elem_of_app, list_elem_of_singleton in Hin.
    destruct Hin as [Hin| ->]; [|done].
    eapply Hnew; eauto. apply elem_of_allComments. eauto using replacedOne_sentence.
  - eapply groupConsistent_append; [exact Hrep| |done].
    intros G c0 HG Hc0 E. fold c in Ht, Hn. rewrite Ht, Hn.
    eapply Hnew; eauto. by rewrite (bulkComment_groupId _ _ (generateUniqueId env tick)).
Qed.

Lemma groupConsistent_addBulk env mode text now ids m :
  (mode = mode_group -> freshGroupId m (generateUniqueId env 1)) ->
  groupConsistent m -> groupConsistent (addBulk env mode text now ids m).
Proof.
  intros Hfresh H. unfold addBulk.
  destruct mode; apply groupConsistent_addBulkLoop; auto; try done.
  simpl. intros G c0 [= <-] Hc0 E. by destruct (Hfresh eq_refl c0).
Qed.

Lemma allComments_deleteGroup G m c :
  c ∈ allComments (deleteGroup G m) -> c ∈ allComments m /\ c_groupId c <> Some G.
Proof.
  unfold deleteGroup. rewrite !allComments_eq, allSentences_mapValues_fmap.
  rewrite !elem_of_commentsOf.
  intros (s' & (s & -> & Hs)%list_elem_of_fmap & Hc). simpl in Hc.
  apply list_elem_of_filter in Hc as [Hg Hc]. split; [eauto|].
  apply groupId_is_false. unfold groupId_isnt in Hg. by destruct (groupId_is G c).
Qed.

Lemma allComments_deleteSingle itemId commentId m c :
  c ∈ allComments (deleteSingle itemId commentId m) -> c ∈ allComments m.
Proof.
  unfold deleteSingle. destruct (updateFirst _ _ m) as [m'|] eqn:Hup; simpl; [|done].
  apply updateFirst_replacedOne in Hup as (s & _ & Hrep). intros Hc.
  destruct (replacedOne_comments _ _ _ _ _ Hrep Hc) as [Hin|]; [|done].
  simpl in Hin. apply list_elem_of_filter in Hin as [_ Hin].
  apply elem_of_allComments. eauto using replacedOne_sentence.
Qed.

Lemma allComments_deleteChapters itemId commentId m c :
  c ∈ allComments (deleteChapters itemId commentId m) -> c ∈ allComments m.
Proof.
  unfold deleteChapters.
  destruct (commentToDeleteDetails _ _ m) as [d|]; [|apply allComments_deleteSingle].
  destruct (c_type d); [apply allComments_deleteSingle|].
  destruct (c_groupId d) as [g|]; [|apply allComments_deleteSingle].
  destruct (Js.truthy g); [|apply allComments_deleteSingle].
  by intros []%allComments_deleteGroup.
Qed.

#[local] Arguments addBulk : simpl never.
#[local] Arguments addSingle : simpl never.
#[local] Arguments editGroup : simpl never.
#[local] Arguments editSingle : simpl never.
#[local] Arguments editGroupItem : simpl never.

Lemma stateConsistent_setStory st story m sel bulk :
  storyData st = Some story -> groupConsistent m ->
  stateConsistent (setStory st m sel bulk).
Proof. intros Hs Hm. unfold stateConsistent, setStory. simpl. by rewrite Hs. Qed.

Lemma stateConsistent_save env st text detail :
  stateConsistent st -> mutationAllowed st (SaveOrUpdate env text detail) ->
  stateConsistent (handleSaveOrUpdateComment env st text detail).
Proof.
  intros Hst Hok. unfold handleSaveOrUpdateComment.
  unfold mutationAllowed in Hok. unfold stateConsistent in Hst.
  destruct (storyData st) as [story|] eqn:Hs; [|by unfold stateConsistent; rewrite Hs].
  destruct (Js.truthy (Js.trim text)); simpl; [|by unfold stateConsistent; rewrite Hs].
  destruct detail as [[eid gid]|]; simpl in *.
  - assert (Js.truthy_opt gid = false ->
            groupConsistent (editSingle eid (Js.trim text) (clock env 0) (chapters story)))
      as Hsingle.
    { intros Hg. destruct Hok as [Hok|Hok]; simpl in Hok; [congruence|].
      by apply groupConsistent_editSingle. }
    eapply stateConsistent_setStory; [done|]. unfold editChapters. simpl.
    destruct gid as [g|]; [destruct (Js.truthy g) eqn:Hg|].
    + by apply groupConsistent_editGroup.
    + by apply Hsingle.
    + by apply Hsingle.
  - destruct (editMode st) eqn:Hmode.
    + destruct (selectedAnalysisItem st) as [selected|];
        [|by eapply stateConsistent_setStory].
      destruct (addSingle _ selected (chapters story)) as [m [u|]] eqn:Hadd.
      * eapply stateConsistent_setStory; [done|].
        apply addSingle_replacedOne in Hadd as (s & Hrep).
        eapply groupConsistent_append; [exact Hrep|done|done].
      * eapply stateConsistent_setStory; [done|].
        by rewrite (addSingle_None _ _ _ _ Hadd).
    + destruct (selectedAnalysisItem st), (bulkSelectedSentenceIds st);
        cbv beta iota; eapply stateConsistent_setStory; try done;
        by apply groupConsistent_addBulk.
    + destruct (selectedAnalysisItem st), (bulkSelectedSentenceIds st);
        cbv beta iota; eapply stateConsistent_setStory; try done;
        apply groupConsistent_addBulk; auto.
Qed.

Lemma stateConsistent_delete st itemId commentId :
  stateConsistent st -> stateConsistent (handleDeleteComment st itemId commentId).
Proof.
  unfold stateConsistent, handleDeleteComment.
  destruct (storyData st) as [story|] eqn:Hs; simpl; [|by rewrite Hs].
  apply groupConsistent_grouped_subset. intros c Hc _.
  by eapply allComments_deleteChapters.
Qed.

(** C1 (as amended).  Group consistency is preserved by every call of a
    mutator -- adding a single comment, adding in mass mode, adding in group
    mode with a group id no comment carries yet, deleting, and editing --
    provided an edit names its group: it supplies a non-empty group id, or
    no comment with the edited id carries a group id. *)
Theorem group_consistency_preserved st mu :
  stateConsistent st -> mutationAllowed st mu ->
  stateConsistent (runMutation st mu).
Proof.
  destruct mu as [env text detail|itemId commentId]; simpl.
  - apply stateConsistent_save.
  - intros H _. by apply stateConsistent_delete.
Qed.

Lemma group_consistency_preserved_witness :
  stateConsistent (stateOf linkedStory mode_single None [])
  /\ mutationAllowed (stateOf linkedStory mode_single None [])
       (SaveOrUpdate demoEnv "cut entirely" (Some (mkDetail "c1" (Some "g1"))))
  /\ stateConsistent
       (runMutation (stateOf linkedStory mode_single None [])
          (SaveOrUpdate demoEnv "cut entirely" (Some (mkDetail "c1" (Some "g1"))))).
Proof.
  assert (stateConsistent (stateOf linkedStory mode_single None [])) as H1.
  { apply (bool_decide_unpack _). vm_compute. exact I. }
  assert (mutationAllowed (stateOf linkedStory mode_single None [])
            (SaveOrUpdate demoEnv "cut entirely" (Some (mkDetail "c1" (Some "g1"))))) as H2.
  { left. reflexivity. }
  split; [exact H1|]. split; [exact H2|].
  exact (group_consistency_preserved _ _ H1 H2).
Defined.

(** C1 (as stated) fails: editing one instance of a group comment by its
    comment id alone leaves its sibling with the old text. *)
Lemma group_consistency_broken_by_edit_without_group_id :
  storyData (importStory demoEnv emptyState linkedDocument) = Some linkedStory
  /\ groupConsistent (chapters linkedStory)
  /\ ~ groupConsistent (chapters (editComment demoEnv linkedStory "c1" None "cut entirely")).
Proof.
  split; [reflexivity|].
  split; apply (bool_decide_unpack _); vm_compute; exact I.
Qed.

(** *** Filters that keep all or nothing *)

Lemma filter_all {A} (P : A -> Prop) `{forall x, Decision (P x)} (l : list A) :
  Forall P l -> filter P l = l.
Proof.
  induction 1 as [|x l Hx _ IH]; [done|]. rewrite filter_cons_True by done.
  by f_equal.
Qed.

Lemma filter_none {A} (P : A -> Prop) `{forall x, Decision (P x)} (l : list A) :
  Forall (fun x => ~ P x) l -> filter P l = [].
Proof.
  induction 1 as [|x l Hx _ IH]; [done|]. by rewrite filter_cons_False.
Qed.

(** *** Comments with distinct ids *)

Lemma unique_id_split cid (cs : list CommentObject) :
  NoDup (c_id <$> cs) -> Js.some (id_is cid) cs = true ->
  exists cs1 c0 cs2,
    cs = cs1 ++ c0 :: cs2 /\ c_id c0 = cid
    /\ Forall (fun x => id_is cid x = false) (cs1 ++ cs2).
Proof.
  intros Hnd (c0 & Hc0 & Hid%id_is_true)%some_true.
  apply list_elem_of_split in Hc0 as (cs1 & cs2 & ->).
  exists cs1, c0, cs2. split; [done|]. split; [done|].
  rewrite fmap_app, fmap_cons in Hnd.
  apply NoDup_app in Hnd as (_ & H1 & [H2 _]%NoDup_cons).
  apply Forall_app. split; apply Forall_forall; intros x Hx;
    destruct (id_is cid x) eqn:E; try done; apply id_is_true in E.
  - destruct (H1 (c_id x)); [by apply list_elem_of_fmap_2|]. rewrite E, Hid. left.
  - destruct H2. rewrite Hid, <- E. by apply list_elem_of_fmap_2.
Qed.

Lemma edit_one_of_unique cid (g : CommentObject -> CommentObject) cs1 c0 cs2 :
  c_id c0 = cid -> Forall (fun x => id_is cid x = false) (cs1 ++ cs2) ->
  (fun c => if id_is cid c then g c else c) <$> (cs1 ++ c0 :: cs2)
  = cs1 ++ g c0 :: cs2.
Proof.
  intros Hid [H1 H2]%Forall_app. rewrite fmap_app, fmap_cons.
  apply id_is_true in Hid. rewrite Hid. f_equal; [|f_equal]; apply fmap_id_on.
  - eapply Forall_impl; [exact H1|]. intros x Hx. simpl in *. by rewrite Hx.
  - eapply Forall_impl; [exact H2|]. intros x Hx. simpl in *. by rewrite Hx.
Qed.

Lemma delete_one_of_unique cid cs1 (c0 : CommentObject) cs2 :
  c_id c0 = cid -> Forall (fun x => id_is cid x = false) (cs1 ++ cs2) ->
  filter (fun c => negb (id_is cid c)) (cs1 ++ c0 :: cs2) = cs1 ++ cs2.
Proof.
  intros Hid [H1 H2]%Forall_app. rewrite filter_app, filter_cons.
  apply id_is_true in Hid. rewrite Hid. simpl. f_equal; apply filter_all.
  - eapply Forall_impl; [exact H1|]. intros x Hx. simpl in *. by rewrite Hx.
  - eapply Forall_impl; [exact H2|]. intros x Hx. simpl in *. by rewrite Hx.
Qed.

(** *** Editing *)

Lemma withComments_same s : withComments s (a_comments s) = s.
Proof. by destruct s. Qed.

Lemma mkStory_eta story : mkStory (title story) (chapters story) = story.
Proof. by destruct story. Qed.

Lemma editGroupSentence_eq G eid text now s :
  editGroupSentence G eid text now s
  = withComments s (editGroupComments G text now (a_comments s)).
Proof.
  unfold editGroupSentence. destruct (Js.findIndex _ _); [done|].
  destruct (Js.some _ _) eqn:H; [done|].
  apply some_false in H.
  transitivity (withComments s (a_comments s)); [by rewrite withComments_same|].
  f_equal. symmetry. apply fmap_id_on.
  eapply Forall_impl; [exact H|]. intros c Hc; simpl in *. by rewrite Hc.
Qed.

Lemma mapValues_ext f g (m : ChaptersMap) :
  (forall ss, f ss = g ss) -> mapValues f m = mapValues g m.
Proof.
  intros H. unfold mapValues. apply list_fmap_ext. intros _ [k ss] _. simpl.
  by rewrite H.
Qed.

Lemma mapValues_fmap_id_on (f : AnalysisItem -> AnalysisItem) (m : ChaptersMap) :
  Forall (fun s => f s = s) (allSentences m) -> mapValues (fmap f) m = m.
Proof.
  induction m as [|[k ss] m IH]; [done|].
  rewrite allSentences_cons, Forall_app. intros [Hss Hm].
  unfold mapValues in *. rewrite fmap_cons. simpl. rewrite (fmap_id_on _ _ Hss).
  f_equal. by apply IH.
Qed.

Lemma editGroup_eq G eid text now m :
  editGroup G eid text now m
  = mapValues (fmap (fun s => withComments s (editGroupComments G text now (a_comments s)))) m.
Proof.
  unfold editGroup. apply mapValues_ext. intros ss.
  apply list_fmap_ext. intros _ s _. apply editGroupSentence_eq.
Qed.

Lemma editGroup_fresh G eid text now m :
  freshGroupId m G -> editGroup G eid text now m = m.
Proof.
  intros Hfresh. unfold editGroup. apply mapValues_fmap_id_on.
  apply Forall_forall. intros s Hs. rewrite editGroupSentence_eq.
  transitivity (withComments s (a_comments s)); [|apply withComments_same].
  f_equal. apply fmap_id_on.
  apply Forall_forall. intros c Hc.
  destruct (groupId_is G c) eqn:E; [|done].
  apply groupId_is_true in E. destruct (Hfresh c); [|done].
  apply elem_of_allComments. eauto.
Qed.

Lemma hasComment_false eid s :
  hasComment eid s = false <-> forall c, c ∈ a_comments s -> c_id c <> eid.
Proof.
  unfold hasComment. rewrite some_false, Forall_forall.
  split; intros H c Hc; specialize (H c Hc).
  - intros E%id_is_true. congruence.
  - destruct (id_is eid c) eqn:E; [|done]. by apply id_is_true in E.
Qed.

Lemma editSingle_absent eid text now m :
  (forall c, c ∈ allComments m -> c_id c <> eid) -> editSingle eid text now m = m.
Proof.
  intros Habs. unfold editSingle.
  destruct (updateFirst _ _ m) as [m'|] eqn:Hup; [|done].
  apply updateFirst_replacedOne in Hup as (s & Hs & Hrep).
  apply replacedOne_sentence in Hrep.
  assert (hasComment eid s = false); [|congruence].
  apply hasComment_false. intros c Hc. apply Habs, elem_of_allComments. eauto.
Qed.

Lemma editSingle_present eid text now m c :
  c ∈ allComments m -> c_id c = eid ->
  exists pre k l1 s l2 post,
    m = pre ++ (k, l1 ++ s :: l2) :: post
    /\ Forall (fun x => hasComment eid x = false) (allSentences pre ++ l1)
    /\ hasComment eid s = true
    /\ editSingle eid text now m
       = pre ++ (k, l1 ++ editSingleItem eid text now s :: l2) :: post.
Proof.
  intros Hc Hid. unfold editSingle.
  destruct (updateFirst _ _ m) as [m'|] eqn:Hup.
  - apply updateFirst_Some in Hup
      as (pre & k & l1 & s & l2 & post & -> & -> & Hpre & Hl1 & Hs).
    exists pre, k, l1, s, l2, post. rewrite Forall_app. done.
  - apply updateFirst_None in Hup. rewrite Forall_forall in Hup.
    apply elem_of_allComments in Hc as (s & Hs & Hc).
    specialize (Hup s Hs). rewrite hasComment_false in Hup. by destruct (Hup c Hc).
Qed.

Lemma save_edit env st story text detail :
  storyData st = Some story -> Js.truthy (Js.trim text) = true ->
  let st' := handleSaveOrUpdateComment env st text (Some detail) in
  storyData st' = Some (mkStory (title story)
                          (editChapters detail (Js.trim text) (clock env 0) (chapters story)))
  /\ error st' = error st /\ isModalOpen st' = false.
Proof.
  intros Hs Ht. unfold handleSaveOrUpdateComment. rewrite Hs, Ht. simpl.
  by rewrite Hs.
Qed.

Lemma editComment_eq env story cid gid text :
  Js.truthy (Js.trim text) = true ->
  editComment env story cid gid text
  = mkStory (title story)
      (editChapters (mkDetail cid gid) (Js.trim text) (clock env 0) (chapters story)).
Proof.
  intros Ht. unfold editComment, storyOf.
  by destruct (save_edit env (stateOf story mode_single None []) story text
                 (mkDetail cid gid) eq_refl Ht) as (-> & _).
Qed.

(** C3 (as amended).  An edit that supplies a non-empty group id replaces,
    in one transformation of the container, the text of every comment
    carrying that group id by the trimmed new text and its timestamp by the
    edit time, in every sentence of every chapter, and changes nothing else;
    afterwards every comment of the group carries the new text and the edit
    time. *)
Theorem group_edit_propagates env story cid G newText :
  Js.truthy G = true -> Js.truthy (Js.trim newText) = true ->
  let text := Js.trim newText in
  let now := clock env 0 in
  let story' := editComment env story cid (Some G) newText in
  title story' = title story
  /\ chapters story'
     = mapValues (fmap (fun s => withComments s
                                   ((fun c => if groupId_is G c then withEdit text now c else c)
                                      <$> a_comments s)))
         (chapters story)
  /\ forall c, c ∈ allComments (chapters story') -> c_groupId c = Some G ->
       c_text c = text /\ c_timestamp c = now.
Proof.
  intros HG Ht. simpl. rewrite (editComment_eq _ _ _ _ _ Ht).
  unfold editChapters. simpl. rewrite HG. split; [done|]. split.
  - apply editGroup_eq.
  - intros c. rewrite allComments_editGroup.
    intros (c0 & -> & _)%list_elem_of_fmap E.
    destruct (groupId_is G c0) eqn:E0; [done|].
    apply groupId_is_false in E0. done.
Qed.

Lemma group_edit_propagates_witness :
  Js.truthy "g1" = true /\ Js.truthy (Js.trim " cut entirely ") = true
  /\ forall c,
       c ∈ allComments (chapters (editComment demoEnv linkedStory "c1" (Some "g1") " cut entirely ")) ->
       c_groupId c = Some "g1" ->
       c_text c = "cut entirely" /\ c_timestamp c = 1000.
Proof.
  split; [reflexivity|]. split; [reflexivity|].
  exact (proj2 (proj2 (group_edit_propagates demoEnv linkedStory "c1" "g1" " cut entirely "
                          eq_refl eq_refl))).
Defined.

(** C3 (as stated) fails for a group whose id is the empty string: the
    edit takes the single path and the sibling keeps the old text. *)
Lemma group_edit_empty_group_id_not_propagated :
  let story' := editComment demoEnv emptyGroupIdStory "c1" (Some "") "cut entirely" in
  storyData (importStory demoEnv emptyState emptyGroupIdDocument) = Some emptyGroupIdStory
  /\ exists c, c ∈ allComments (chapters emptyGroupIdStory)
       /\ c_id c = "c1" /\ c_type c = group /\ c_groupId c = Some ""
       /\ exists c', c' ∈ allComments (chapters story')
            /\ c_groupId c' = Some "" /\ c_text c' <> "cut entirely".
Proof.
  simpl. split; [reflexivity|].
  eexists. split; [apply list_elem_of_here|]. repeat split.
  eexists. split; [apply list_elem_of_further, list_elem_of_here|]. by repeat split.
Qed.

(** C9 (as amended).  Dispatch of an edit is by the supplied group id,
    not by the kind stored on the comment.  When no (non-empty) group id is
    supplied, the edit stops at the first sentence, in chapter order, that
    holds a comment with the edited id: in that sentence every comment with
    this id -- the one comment, when the comment ids of the sentence are
    distinct -- gets the new text and the edit time; every other sentence
    and every comment with another id, the siblings of the same group among
    them, stays as it was, whatever kind and group id the edited comment
    has. *)
Theorem edit_without_group_id_is_local env story cid gid newText c :
  Js.truthy_opt gid = false -> Js.truthy (Js.trim newText) = true ->
  c ∈ allComments (chapters story) -> c_id c = cid ->
  let text := Js.trim newText in
  let now := clock env 0 in
  let story' := editComment env story cid gid newText in
  (exists pre k l1 s l2 post,
     chapters story = pre ++ (k, l1 ++ s :: l2) :: post
     /\ Forall (fun x => hasComment cid x = false) (allSentences pre ++ l1)
     /\ hasComment cid s = true
     /\ chapters story'
        = pre ++ (k, l1 ++ withComments s
                              ((fun c0 => if id_is cid c0 then withEdit text now c0 else c0)
                                 <$> a_comments s) :: l2) :: post
     /\ (NoDup (c_id <$> a_comments s) ->
         exists cs1 c0 cs2,
           a_comments s = cs1 ++ c0 :: cs2 /\ c_id c0 = cid
           /\ chapters story'
              = pre ++ (k, l1 ++ withComments s (cs1 ++ withEdit text now c0 :: cs2) :: l2)
                    :: post))
  /\ Forall2 (fun c0 c0' => c0' = c0 \/ (c_id c0 = cid /\ c0' = withEdit text now c0))
       (allComments (chapters story)) (allComments (chapters story')).
Proof.
  intros Hg Ht Hc Hid. simpl. rewrite (editComment_eq _ _ _ _ _ Ht).
  assert (editChapters (mkDetail cid gid) (Js.trim newText) (clock env 0) (chapters story)
          = editSingle cid (Js.trim newText) (clock env 0) (chapters story)) as ->.
  { unfold editChapters. simpl. destruct gid as [g|]; [|done]. simpl in Hg. by rewrite Hg. }
  destruct (editSingle_present cid (Js.trim newText) (clock env 0) _ c Hc Hid)
    as (pre & k & l1 & s & l2 & post & Hm & Hpre & Hs & Hm').
  simpl. split.
  - exists pre, k, l1, s, l2, post. repeat split; try done.
    intros Hnd. destruct (unique_id_split cid _ Hnd Hs) as (cs1 & c0 & cs2 & Hcs & Hc0 & Hrest).
    exists cs1, c0, cs2. split; [done|]. split; [done|].
    rewrite Hm'. unfold editSingleItem. rewrite Hcs.
    by rewrite (edit_one_of_unique cid _ cs1 c0 cs2 Hc0 Hrest).
  - rewrite Hm', Hm, !allComments_eq, !allSentences_app, !allSentences_cons.
    rewrite <- !(assoc_L (++)). simpl.
    rewrite !commentsOf_app, !commentsOf_cons, !commentsOf_app.
    assert (forall l : list CommentObject,
              Forall2 (fun c0 c0' => c0' = c0 \/ (c_id c0 = cid
                         /\ c0' = withEdit (Js.trim newText) (clock env 0) c0)) l l) as Hrefl.
    { intros l. apply Forall_Forall2_diag, Forall_forall. auto. }
    repeat apply Forall2_app; auto.
    simpl. apply Forall2_fmap_r, Forall_Forall2_diag, Forall_forall.
    intros c0 _. simpl. destruct (id_is cid c0) eqn:E; [|auto].
    apply id_is_true in E. auto.
Qed.

Lemma edit_without_group_id_is_local_witness :
  Js.truthy_opt None = false /\ Js.truthy (Js.trim "cut entirely") = true
  /\ allComments (chapters (editComment demoEnv linkedStory "c1" None "cut entirely"))
     = [demoComment "c1" "cut entirely" group 1000 (Some "g1") (Some [1; 2]);
        demoComment "c2" "tighten pacing" group 10 (Some "g1") (Some [1; 2])]
  /\ Forall2 (fun c0 c0' => c0' = c0 \/ (c_id c0 = "c1" /\ c0' = withEdit "cut entirely" 1000 c0))
       (allComments (chapters linkedStory))
       (allComments (chapters (editComment demoEnv linkedStory "c1" None "cut entirely"))).
Proof.
  split; [reflexivity|]. split; [reflexivity|]. split; [reflexivity|].
  refine (proj2 (edit_without_group_id_is_local demoEnv linkedStory "c1" None "cut entirely"
                   (demoComment "c1" "tighten pacing" group 10 (Some "g1") (Some [1; 2]))
                   eq_refl eq_refl _ eq_refl)).
  apply list_elem_of_here.
Defined.

(** C9 (as stated) fails when a sentence holds two comments with the
    edited id: both are rewritten, not a single instance, and here the second
    is a sibling of the same group. *)
Lemma edit_without_group_id_rewrites_same_id_sibling :
  let story' := editComment demoEnv sameIdStory "c1" None "cut entirely" in
  storyData (importStory demoEnv emptyState sameIdDocument) = Some sameIdStory
  /\ allComments (chapters sameIdStory)
     = [demoComment "c1" "tighten pacing" group 10 (Some "g1") (Some [1; 2]);
        demoComment "c1" "tighten pacing" group 10 (Some "g1") (Some [1; 2]);
        demoComment "c2" "tighten pacing" group 10 (Some "g1") (Some [1; 2])]
  /\ allComments (chapters story')
     = [demoComment "c1" "cut entirely" group 1000 (Some "g1") (Some [1; 2]);
        demoComment "c1" "cut entirely" group 1000 (Some "g1") (Some [1; 2]);
        demoComment "c2" "tighten pacing" group 10 (Some "g1") (Some [1; 2])].
Proof. simpl. split; [reflexivity|]. split; reflexivity. Qed.

(** C7 (as amended).  An edit whose comment id is on no comment signals
    nothing: the handler ends as after a successful edit, with the error
    banner untouched and the modal closed; and when no comment carries the
    supplied group id (or none is supplied) the container is the one it was
    given. *)
Theorem edit_absent_id_is_silent env st story text detail :
  storyData st = Some story -> Js.truthy (Js.trim text) = true ->
  (forall c, c ∈ allComments (chapters story) -> c_id c <> e_id detail) ->
  let st' := handleSaveOrUpdateComment env st text (Some detail) in
  error st' = error st /\ isModalOpen st' = false
  /\ ((forall G, e_groupId detail = Some G -> Js.truthy G = true ->
         freshGroupId (chapters story) G) ->
      storyData st' = Some story).
Proof.
  intros Hs Ht Habs.
  destruct (save_edit env st story text detail Hs Ht) as (Hst & He & Hm).
  simpl. split; [done|]. split; [done|]. intros Hfresh. rewrite Hst. f_equal.
  transitivity (mkStory (title story) (chapters story)); [|apply mkStory_eta].
  f_equal. unfold editChapters. destruct (e_groupId detail) as [G|]; [|by apply editSingle_absent].
  destruct (Js.truthy G) eqn:HG; [|by apply editSingle_absent].
  by apply editGroup_fresh, Hfresh.
Qed.

Lemma edit_absent_id_is_silent_witness :
  let st := stateOf linkedStory mode_single None [] in
  let st' := handleSaveOrUpdateComment demoEnv st "cut entirely" (Some (mkDetail "zz" None)) in
  error st' = error st /\ isModalOpen st' = false /\ storyData st' = Some linkedStory.
Proof.
  assert (forall c, c ∈ allComments (chapters linkedStory) -> c_id c <> "zz") as Habs.
  { intros c Hc. apply (bool_decide_unpack _).
    revert c Hc. apply Forall_forall. apply (bool_decide_unpack _). vm_compute. exact I. }
  destruct (edit_absent_id_is_silent demoEnv (stateOf linkedStory mode_single None [])
              linkedStory "cut entirely" (mkDetail "zz" None) eq_refl eq_refl Habs)
    as (H1 & H2 & H3).
  split; [exact H1|]. split; [exact H2|]. apply H3. intros G HG. discriminate HG.
Defined.

(** C7 (as stated) fails: editing with an id no comment has raises no
    error; the state is the one a successful save leaves. *)
Lemma edit_absent_id_signals_nothing :
  let st := stateOf linkedStory mode_single None [] in
  let st' := handleSaveOrUpdateComment demoEnv st "cut entirely" (Some (mkDetail "zz" None)) in
  (forall c, c ∈ allComments (chapters linkedStory) -> c_id c <> "zz")
  /\ ~ signalsError st'
  /\ st' = mkState (Some linkedStory) None None false None false mode_single [].
Proof.
  simpl. split.
  - intros c Hc. apply (bool_decide_unpack _).
    revert c Hc. apply Forall_forall. apply (bool_decide_unpack _). vm_compute. exact I.
  - split; [|reflexivity]. intros [e He]. discriminate He.
Qed.

(** *** Deleting *)

Lemma commentsOf_fmap_filter (f : AnalysisItem -> AnalysisItem)
    (P : CommentObject -> Prop) `{forall c, Decision (P c)} l :
  (forall s, a_comments (f s) = filter P (a_comments s)) ->
  commentsOf (f <$> l) = filter P (commentsOf l).
Proof.
  intros Hf. induction l as [|s l IH]; [done|].
  rewrite fmap_cons, !commentsOf_cons, filter_app, Hf. by f_equal.
Qed.

Lemma allComments_deleteGroup_eq G m :
  allComments (deleteGroup G m) = filter (groupId_isnt G) (allComments m).
Proof.
  unfold deleteGroup. rewrite !allComments_eq, allSentences_mapValues_fmap.
  by apply commentsOf_fmap_filter.
Qed.

Lemma deleteComment_eq story sid cid :
  deleteComment story sid cid
  = mkStory (title story) (deleteChapters sid cid (chapters story)).
Proof. done. Qed.

Lemma handleDeleteComment_story st story sid cid :
  storyData st = Some story ->
  storyData (handleDeleteComment st sid cid)
  = Some (mkStory (title story) (deleteChapters sid cid (chapters story)))
  /\ error (handleDeleteComment st sid cid) = error st.
Proof. intros Hs. unfold handleDeleteComment. by rewrite Hs. Qed.

Lemma deleteSingle_present sid cid m s0 :
  s0 ∈ allSentences m -> a_id s0 = sid ->
  exists pre k l1 s l2 post,
    m = pre ++ (k, l1 ++ s :: l2) :: post
    /\ Forall (fun x => sentence_id_is sid x = false) (allSentences pre ++ l1)
    /\ a_id s = sid
    /\ deleteSingle sid cid m
       = pre ++ (k, l1 ++ deleteSingleItem cid s :: l2) :: post.
Proof.
  intros Hs0 Hid. unfold deleteSingle.
  destruct (updateFirst _ _ m) as [m'|] eqn:Hup.
  - apply updateFirst_Some in Hup
      as (pre & k & l1 & s & l2 & post & -> & -> & Hpre & Hl1 & Hs).
    exists pre, k, l1, s, l2, post. rewrite Forall_app.
    by apply sentence_id_is_true in Hs.
  - apply updateFirst_None in Hup. rewrite Forall_forall in Hup.
    specialize (Hup s0 Hs0). apply sentence_id_is_true in Hid. congruence.
Qed.

Lemma deleteSingleItem_absent cid s :
  (forall c, c ∈ a_comments s -> c_id c <> cid) -> deleteSingleItem cid s = s.
Proof.
  intros Habs. unfold deleteSingleItem.
  transitivity (withComments s (a_comments s)); [|apply withComments_same].
  f_equal. apply filter_all, Forall_forall. intros c Hc.
  destruct (id_is cid c) eqn:E; [|done].
  apply id_is_true in E. by destruct (Habs c Hc).
Qed.

Lemma deleteSingle_absent sid cid m :
  (forall s c, s ∈ allSentences m -> a_id s = sid -> c ∈ a_comments s -> c_id c <> cid) ->
  deleteSingle sid cid m = m.
Proof.
  intros Habs. unfold deleteSingle.
  destruct (updateFirst _ _ m) as [m'|] eqn:Hup; [|done].
  apply updateFirst_Some in Hup
    as (pre & k & l1 & s & l2 & post & -> & -> & _ & _ & Hs). simpl.
  rewrite deleteSingleItem_absent; [done|].
  intros c. apply Habs; [|by apply sentence_id_is_true].
  rewrite allSentences_app, allSentences_cons, !elem_of_app, elem_of_cons. auto.
Qed.

Lemma commentToDeleteDetails_Some sid cid m d :
  commentToDeleteDetails sid cid m = Some d ->
  exists s, s ∈ allSentences m /\ a_id s = sid /\ d ∈ a_comments s /\ c_id d = cid.
Proof.
  unfold commentToDeleteDetails.
  destruct (Js.find _ (allSentences m)) as [s|] eqn:Hs; [|done]. simpl.
  intros (c1 & c2 & Hc & _ & Hd%id_is_true)%find_Some.
  apply find_Some in Hs as (l1 & l2 & Hm & _ & Hid%sentence_id_is_true).
  exists s. rewrite Hm, Hc, !elem_of_app, !elem_of_cons. auto 10.
Qed.

Lemma commentToDeleteDetails_first sid cid m d :
  commentToDeleteDetails sid cid m = Some d ->
  exists s, Js.find (sentence_id_is sid) (allSentences m) = Some s
            /\ Js.find (id_is cid) (a_comments s) = Some d.
Proof.
  unfold commentToDeleteDetails.
  destruct (Js.find _ (allSentences m)) as [s|]; [|done]. simpl. eauto.
Qed.

Lemma commentToDeleteDetails_absent sid cid m :
  (forall s c, s ∈ allSentences m -> a_id s = sid -> c ∈ a_comments s -> c_id c <> cid) ->
  commentToDeleteDetails sid cid m = None.
Proof.
  intros Habs. destruct (commentToDeleteDetails sid cid m) as [d|] eqn:Hd; [|done].
  apply commentToDeleteDetails_Some in Hd as (s & Hs & Hid & Hd & Hc).
  by destruct (Habs s d).
Qed.

(** C4 (as amended).  Deleting the comment a sentence id and a comment id
    identify: when it is of kind group and carries a non-empty group id,
    every comment carrying that group id is removed from every sentence and
    nothing else changes, so that no comment with that group id remains;
    when it is not of kind group, the first sentence with the given id loses
    its comments with the given comment id -- that one comment, comment ids
    being distinct -- and nothing else changes; and when no comment has the
    given comment id, the container is returned as it was and no error is
    raised. *)
Theorem delete_comment_behaviour :
  (forall story sid cid d G,
     commentToDeleteDetails sid cid (chapters story) = Some d ->
     c_type d = group -> c_groupId d = Some G -> Js.truthy G = true ->
     let story' := deleteComment story sid cid in
     title story' = title story
     /\ chapters story'
        = mapValues (fmap (fun s => withComments s (filter (groupId_isnt G) (a_comments s))))
            (chapters story)
     /\ allComments (chapters story') = filter (groupId_isnt G) (allComments (chapters story))
     /\ forall c, c ∈ allComments (chapters story') -> c_groupId c <> Some G)
  /\ (forall story sid cid d,
        commentToDeleteDetails sid cid (chapters story) = Some d ->
        c_type d <> group ->
        let story' := deleteComment story sid cid in
        title story' = title story
        /\ exists pre k l1 s l2 post,
             chapters story = pre ++ (k, l1 ++ s :: l2) :: post
             /\ Forall (fun x => sentence_id_is sid x = false) (allSentences pre ++ l1)
             /\ a_id s = sid
             /\ chapters story'
                = pre ++ (k, l1 ++ withComments s
                                      (filter (fun c => negb (id_is cid c)) (a_comments s))
                                    :: l2) :: post
             /\ (NoDup (c_id <$> a_comments s) ->
                 exists cs1 cs2,
                   a_comments s = cs1 ++ d :: cs2
                   /\ chapters story'
                      = pre ++ (k, l1 ++ withComments s (cs1 ++ cs2) :: l2) :: post))
  /\ (forall st story sid cid,
        storyData st = Some story ->
        (forall c, c ∈ allComments (chapters story) -> c_id c <> cid) ->
        storyData (handleDeleteComment st sid cid) = Some story
        /\ error (handleDeleteComment st sid cid) = error st).
Proof.
  split; [|split].
  - intros story sid cid d G Hd Hty Hg HG. cbv zeta. rewrite deleteComment_eq. simpl.
    unfold deleteChapters. rewrite Hd, Hty, Hg, HG. split; [done|]. split; [done|].
    split; [apply allComments_deleteGroup_eq|].
    intros c Hc. by apply allComments_deleteGroup in Hc as [_ ?].
  - intros story sid cid d Hd Hty. cbv zeta. rewrite deleteComment_eq. simpl.
    split; [done|].
    assert (deleteChapters sid cid (chapters story) = deleteSingle sid cid (chapters story))
      as ->.
    { unfold deleteChapters. rewrite Hd. by destruct (c_type d). }
    pose proof (commentToDeleteDetails_first _ _ _ _ Hd) as Hfirst.
    apply commentToDeleteDetails_Some in Hd as (s0 & Hs0 & Hid & _).
    destruct (deleteSingle_present sid cid _ s0 Hs0 Hid)
      as (pre & k & l1 & s & l2 & post & Hm & Hpre & Hs & Hm').
    exists pre, k, l1, s, l2, post. repeat split; try done.
    intros Hnd.
    assert (Js.find (sentence_id_is sid) (allSentences (chapters story)) = Some s) as Hfs.
    { rewrite Hm.
      replace (allSentences (pre ++ (k, l1 ++ s :: l2) :: post))
        with ((allSentences pre ++ l1) ++ s :: (l2 ++ allSentences post)).
      - rewrite find_app_false by done. unfold Js.find. simpl.
        by rewrite (proj2 (sentence_id_is_true sid s) Hs).
      - by rewrite allSentences_app, allSentences_cons, <- !(assoc_L (++)). }
    destruct Hfirst as (s' & Hs' & Hd). rewrite Hfs in Hs'. injection Hs' as <-.
    apply find_Some in Hd as (cs1 & cs2 & Hcs & Hcs1 & Hd%id_is_true).
    exists cs1, cs2. split; [done|].
    rewrite Hm'. unfold deleteSingleItem. rewrite Hcs.
    rewrite (delete_one_of_unique cid cs1 d cs2 Hd); [done|].
    rewrite Hcs, fmap_app, fmap_cons in Hnd.
    apply NoDup_app in Hnd as (_ & H1 & [H2 _]%NoDup_cons).
    apply Forall_app. split; [done|]. apply Forall_forall. intros x Hx.
    destruct (id_is cid x) eqn:E; [|done]. apply id_is_true in E.
    destruct H2. rewrite Hd, <- E. by apply list_elem_of_fmap_2.
  - intros st story sid cid Hs Habs.
    destruct (handleDeleteComment_story st story sid cid Hs) as [-> ->].
    split; [|done]. f_equal.
    transitivity (mkStory (title story) (chapters story)); [|apply mkStory_eta].
    f_equal.
    assert (forall s c, s ∈ allSentences (chapters story) -> a_id s = sid ->
                        c ∈ a_comments s -> c_id c <> cid) as Habs'.
    { intros s c Hs' _ Hc. apply Habs, elem_of_allComments. eauto. }
    unfold deleteChapters. rewrite commentToDeleteDetails_absent by done.
    by apply deleteSingle_absent.
Qed.

Lemma delete_comment_behaviour_witness :
  (commentToDeleteDetails "ch1-s2" "c2" (chapters linkedStory)
   = Some (demoComment "c2" "tighten pacing" group 10 (Some "g1") (Some [1; 2]))
   /\ allComments (chapters (deleteComment linkedStory "ch1-s2" "c2")) = []
   /\ forall c, c ∈ allComments (chapters (deleteComment linkedStory "ch1-s2" "c2")) ->
        c_groupId c <> Some "g1")
  /\ (storyData (handleDeleteComment (stateOf linkedStory mode_single None []) "ch1-s2" "zz")
      = Some linkedStory).
Proof.
  destruct delete_comment_behaviour as (HA & _ & HC).
  split.
  - split; [reflexivity|]. split; [reflexivity|].
    exact (proj2 (proj2 (proj2 (HA linkedStory "ch1-s2" "c2" _ "g1"
                                   eq_refl eq_refl eq_refl eq_refl)))).
  - refine (proj1 (HC (stateOf linkedStory mode_single None []) linkedStory
                      "ch1-s2" "zz" eq_refl _)).
    intros c Hc. apply (bool_decide_unpack _).
    revert c Hc. apply Forall_forall. apply (bool_decide_unpack _). vm_compute. exact I.
Defined.

(** C4 (as stated) fails for a group whose id is the empty string: the
    deletion takes the single path and the sibling stays. *)
Lemma delete_empty_group_id_leaves_sibling :
  storyData (importStory demoEnv emptyState emptyGroupIdDocument) = Some emptyGroupIdStory
  /\ commentToDeleteDetails "ch1-s1" "c1" (chapters emptyGroupIdStory)
     = Some (demoComment "c1" "tighten pacing" group 10 (Some "") (Some [1; 2]))
  /\ exists c', c' ∈ allComments (chapters (deleteComment emptyGroupIdStory "ch1-s1" "c1"))
       /\ c_groupId c' = Some "".
Proof.
  split; [reflexivity|]. split; [reflexivity|].
  eexists. split; [apply list_elem_of_here|]. reflexivity.
Qed.

(** ** Import *)

Lemma importEntry_invalid env raw tick :
  invalidEntry raw -> importEntry env raw tick = inl (ErrProcessing_InvalidEntry raw).
Proof.
  unfold importEntry. intros [H|[H|[H|H]]]; rewrite H.
  - done.
  - by destruct (as_number (r_ChapterNumber raw)).
  - by destruct (as_number (r_ChapterNumber raw)), (as_number (r_SentenceNumber raw)).
  - by destruct (as_number (r_ChapterNumber raw)), (as_number (r_SentenceNumber raw)).
Qed.

Lemma importEntry_error env raw tick e :
  importEntry env raw tick = inl e -> e = ErrProcessing_InvalidEntry raw.
Proof.
  unfold importEntry.
  destruct (as_number (r_ChapterNumber raw)), (as_number (r_SentenceNumber raw)),
    (r_Sentence raw) as [t|]; try (by intros [= <-]).
  destruct (Js.truthy t); [|by intros [= <-]].
  by destruct (currentComments env raw tick).
Qed.

Lemma importEntries_error env entries m tick e :
  importEntries env entries m tick = inl e -> exists raw, e = ErrProcessing_InvalidEntry raw.
Proof.
  revert m tick. induction entries as [|raw rest IH]; intros m tick; simpl; [done|].
  destruct (importEntry env raw tick) as [e'|[item tick']] eqn:He.
  - intros [= <-]. apply importEntry_error in He. eauto.
  - apply IH.
Qed.

Lemma importEntries_invalid env entries raw m tick :
  raw ∈ entries -> invalidEntry raw ->
  exists raw', importEntries env entries m tick = inl (ErrProcessing_InvalidEntry raw').
Proof.
  intros Hin Hbad. revert m tick.
  induction Hin as [raw rest|raw raw0 rest Hin IH]; intros m tick; simpl.
  - rewrite importEntry_invalid by done. by eexists.
  - destruct (importEntry env raw0 tick) as [e'|[item tick']] eqn:He.
    + apply importEntry_error in He as ->. by eexists.
    + by apply IH.
Qed.

Lemma processFile_error env st file e :
  error (processFile env st file) = Some e ->
  storyData (processFile env st file) = None
  /\ originalCompleteStory (processFile env st file) = None.
Proof.
  unfold processFile. destruct file as [| | |d]; try done.
  destruct (_ || _)%bool; [done|]. destruct (negb _); [done|].
  unfold handleFileLoad. by destruct (loadStory env d) as [e'|[story complete]].
Qed.

Lemma invalid_document_error env st d :
  invalidDocument d ->
  exists e, error (importStory env st d) = Some e /\ isValidationError e.
Proof.
  intros Hbad. unfold importStory, processFile, isValidationError.
  destruct d as [analysis complete]. unfold invalidDocument in Hbad. simpl in *.
  destruct Hbad as [->|[[v ->]|[->|[(c & -> & Hc)|(entries & raw & -> & Hin & Hraw)]]]];
    simpl.
  - eauto.
  - destruct (js_truthy v); simpl; [|eauto].
    destruct (titleFalsy complete); simpl; eauto.
  - rewrite orb_true_r. eauto.
  - rewrite Hc. simpl. rewrite orb_true_r. eauto.
  - destruct (titleFalsy complete) eqn:Ht; simpl; [eauto|].
    unfold handleFileLoad, loadStory. simpl.
    destruct (importEntries_invalid env entries raw [] 0%nat Hin Hraw) as [raw' ->].
    simpl. eexists. split; [done|]. right; right. by eexists.
Qed.



(** C10.  A failed import discards the story that was loaded.  Whenever
    an import attempt ends with an error -- the dropped file is of another
    type, the file cannot be read, is not JSON, lacks the required fields,
    or has an entry that fails validation -- the story container and the
    retained complete-story block are both null afterwards, whatever story
    the state held; and each of these failures does end with an error. *)
Theorem failed_import_discards_story env st :
  (forall isJsonType file,
     signalsError (handleDrop env st isJsonType file) ->
     storyData (handleDrop env st isJsonType file) = None
     /\ originalCompleteStory (handleDrop env st isJsonType file) = None)
  /\ (forall file,
        signalsError (processFile env st file) ->
        storyData (processFile env st file) = None
        /\ originalCompleteStory (processFile env st file) = None)
  /\ signalsError (processFile env st FileUnreadable)
  /\ signalsError (processFile env st FileNotText)
  /\ signalsError (processFile env st FileNotJson)
  /\ (forall d, invalidDocument d -> signalsError (processFile env st (FileJson d))).
Proof.
  split; [|split; [|split; [|split; [|split]]]]; try by eexists.
  - intros [] file [e He]; [by eapply processFile_error|done].
  - intros file [e He]. by eapply processFile_error.
  - intros d Hd.
    destruct (invalid_document_error env st d Hd) as (e & He & _).
    by exists e.
Qed.

Lemma failed_import_discards_story_witness :
  let st := mkState (Some linkedStory) (Some (mkCompleteStory (Some "Tale") None))
              None false None false mode_single [] in
  signalsError (processFile demoEnv st (FileJson badChapterDocument))
  /\ storyData (processFile demoEnv st (FileJson badChapterDocument)) = None
  /\ originalCompleteStory (processFile demoEnv st (FileJson badChapterDocument)) = None.
Proof.
  simpl.
  assert (signalsError
            (processFile demoEnv
               (mkState (Some linkedStory) (Some (mkCompleteStory (Some "Tale") None))
                  None false None false mode_single [])
               (FileJson badChapterDocument))) as H.
  { eexists. reflexivity. }
  split; [exact H|].
  exact (proj1 (proj2 (failed_import_discards_story demoEnv _)) _ H).
Defined.

(** ** Export *)

Section SortFacts.
Context {A : Type} (cmp : A -> A -> Z).

Lemma insert_Permutation x l : Js.insert cmp x l ≡ₚ x :: l.
Proof.
  induction l as [|y l IH]; simpl; [done|].
  destruct (Z.leb _ _); [done|]. rewrite IH. apply Permutation_swap.
Qed.

Lemma sort_cons x l : Js.sort cmp (x :: l) = Js.insert cmp x (Js.sort cmp l).
Proof. done. Qed.

Lemma sort_Permutation l : Js.sort cmp l ≡ₚ l.
Proof.
  induction l as [|x l IH]; simpl; [done|].
  by rewrite insert_Permutation, IH.
Qed.

Lemma elem_of_sort x l : x ∈ Js.sort cmp l <-> x ∈ l.
Proof. by rewrite sort_Permutation. Qed.

Lemma head_insert x l :
  head (Js.insert cmp x l)
  = match head l with
    | Some y => if Z.leb (cmp x y) 0 then Some x else Some y
    | None => Some x
    end.
Proof. destruct l as [|y l]; simpl; [done|]. by destruct (Z.leb _ _). Qed.
End SortFacts.

Lemma isLatest_bound cs c x : isLatest cs c -> x ∈ cs -> c_timestamp x <= c_timestamp c.
Proof.
  intros (l1 & l2 & -> & H1 & H2). rewrite Forall_forall in H1, H2.
  rewrite elem_of_app, elem_of_cons. intros [Hx|[->|Hx]]; [|lia|by apply H2].
  specialize (H1 x Hx). lia.
Qed.

Lemma latestComment_spec item :
  a_comments item <> [] ->
  exists latest, latestComment item = Some latest /\ isLatest (a_comments item) latest.
Proof.
  unfold latestComment. induction (a_comments item) as [|x cs IH]; [done|].
  intros _. simpl. rewrite head_insert.
  destruct cs as [|y cs'].
  - simpl. exists x. split; [done|]. exists [], []. by repeat constructor.
  - destruct IH as (c & Hc & Hlatest); [done|]. rewrite Hc.
    unfold byTimestampDesc. destruct (Z.leb_spec (c_timestamp c - c_timestamp x) 0).
    + exists x. split; [done|]. exists [], (y :: cs'). split; [done|].
      split; [constructor|]. apply Forall_forall. intros z Hz.
      pose proof (isLatest_bound _ _ _ Hlatest Hz). lia.
    + exists c. split; [done|]. destruct Hlatest as (l1 & l2 & -> & H1 & H2).
      exists (x :: l1), l2. split; [done|]. split; [|done].
      constructor; [lia|done].
Qed.

Lemma latestComment_nil item : a_comments item = [] -> latestComment item = None.
Proof. unfold latestComment. by intros ->. Qed.

Lemma string_of_Z_truthy z : Js.truthy (Js.string_of_Z z) = true.
Proof.
  unfold Js.string_of_Z. destruct (Z.to_int z) as [d|d]; [|done].
  by destruct d.
Qed.

Lemma join_truthy sep x l : Js.truthy x = true -> Js.truthy (Js.join sep (x :: l)) = true.
Proof. destruct x; [done|]. intros _. by destruct l. Qed.

(** C8 (as amended).  Simple export has one entry per sentence, carrying
    the sentence text and number.  A sentence with no comment gets neither
    legacy field.  For a sentence with comments, with [latest] the first
    comment in list order among those with the greatest timestamp: the
    comment field is the text of [latest] when that text is not empty, and is
    absent when it is empty; the applies-to field is present exactly when
    [latest] is of kind group and carries a non-empty list of sentence
    numbers, and is then these numbers joined by commas. *)
Theorem simple_export_latest_comment st story original :
  storyData st = Some story -> originalCompleteStory st = Some original ->
  exists analysis,
    exportSimple st = Some analysis
    /\ analysis ≡ₚ simpleExportItem <$> allSentences (chapters story)
    /\ forall item, item ∈ allSentences (chapters story) ->
         let entry := simpleExportItem item in
         entry ∈ analysis
         /\ se_Sentence entry = a_Sentence item
         /\ se_SentenceNumber entry = a_SentenceNumber item
         /\ (a_comments item = [] ->
             se_comment entry = None /\ se_commentAppliesTo entry = None)
         /\ (a_comments item <> [] ->
             exists latest,
               isLatest (a_comments item) latest
               /\ se_comment entry
                  = (if Js.truthy (c_text latest) then Some (c_text latest) else None)
               /\ se_commentAppliesTo entry
                  = match c_type latest, c_appliesToSentenceNumbers latest with
                    | group, Some (n :: numbers) =>
                        Some (Js.join "," (Js.string_of_Z <$> n :: numbers))
                    | _, _ => None
                    end).
Proof.
  intros Hs Ho. exists (simpleExport story). split; [|split].
  - unfold exportSimple, commonExportLogic. by rewrite Hs, Ho.
  - apply sort_Permutation.
  - intros item Hitem. simpl. split.
    { apply elem_of_sort. by apply list_elem_of_fmap_2. }
    split; [done|]. split; [done|]. split.
    + intros Hnil. unfold exportedComment, exportedAppliesTo.
      by rewrite (latestComment_nil _ Hnil).
    + intros Hne. destruct (latestComment_spec item Hne) as (latest & Hl & Hlatest).
      exists latest. split; [done|]. unfold exportedComment, exportedAppliesTo.
      rewrite Hl. split; [done|].
      destruct (c_type latest); [done|].
      destruct (c_appliesToSentenceNumbers latest) as [[|n numbers]|]; [done| |done].
      rewrite fmap_cons, join_truthy; [done|]. apply string_of_Z_truthy.
Qed.

Lemma simple_export_latest_comment_witness :
  let story :=
    mkStory "Tale"
      [(1, [demoSentence 1 1 [demoComment "c1" "first" single 10 None None;
                              demoComment "c2" "second" group 20 (Some "g") (Some [1; 4])]])] in
  let st := mkState (Some story) (Some (mkCompleteStory (Some "Tale") None))
              None false None false mode_single [] in
  exportSimple st = Some [mkSimple "Once upon a time." 1 (Some "second") (Some "1,4")]
  /\ exists analysis, exportSimple st = Some analysis
       /\ analysis ≡ₚ simpleExportItem <$> allSentences (chapters story).
Proof.
  simpl. split; [reflexivity|].
  destruct (simple_export_latest_comment
              (mkState
                 (Some (mkStory "Tale"
                    [(1, [demoSentence 1 1
                            [demoComment "c1" "first" single 10 None None;
                             demoComment "c2" "second" group 20 (Some "g") (Some [1; 4])]])]))
                 (Some (mkCompleteStory (Some "Tale") None))
                 None false None false mode_single [])
              _ _ eq_refl eq_refl) as (analysis & H1 & H2 & _).
  exists analysis. split; [exact H1 | exact H2].
Defined.

(** C8 (as stated) fails: a sentence whose latest comment is of kind group
    but names no sentence number -- here imported from the legacy format --
    is exported without the applies-to field. *)
Lemma simple_export_group_without_applies_to :
  let st := importStory demoEnv emptyState legacyGroupDocument in
  exists story item latest,
    storyData st = Some story
    /\ allSentences (chapters story) = [item]
    /\ a_comments item = [latest]
    /\ c_type latest = group
    /\ exportSimple st = Some [mkSimple "Once upon a time." 1 (Some "tighten pacing") None].
Proof.
  simpl. eexists _, _, _. split; [reflexivity|]. split; [reflexivity|].
  split; [reflexivity|]. split; reflexivity.
Qed.

(** ** Stable sorting *)

Section SortOrder.
Context {A : Type} (cmp : A -> A -> Z).

Local Abbreviation cmpLe := (Js.le cmp).

Hypothesis cmp_total : forall a b, cmpLe a b \/ cmpLe b a.
Hypothesis cmp_trans : forall a b c, cmpLe a b -> cmpLe b c -> cmpLe a c.

Lemma insert_head_le x l :
  Forall (cmpLe x) l -> Js.insert cmp x l = x :: l.
Proof.
  destruct 1 as [|y l Hy _]; simpl; [done|].
  unfold Js.le in Hy. by destruct (Z.leb_spec (cmp x y) 0); [|lia].
Qed.

Lemma sort_sorted_id l :
  StronglySorted cmpLe l -> Js.sort cmp l = l.
Proof.
  induction 1 as [|x l _ IH Hx]; simpl; [done|].
  rewrite IH. by apply insert_head_le.
Qed.

Lemma insert_StronglySorted x l :
  StronglySorted cmpLe l -> StronglySorted cmpLe (Js.insert cmp x l).
Proof using cmp_total cmp_trans.
  induction 1 as [|y l Hl IH Hy]; simpl; [by repeat constructor|].
  destruct (Z.leb_spec (cmp x y) 0) as [Hxy|Hxy].
  - constructor; [by constructor|]. constructor; [done|].
    eapply Forall_impl; [exact Hy|]. intros z Hz. by eapply cmp_trans.
  - constructor; [done|].
    rewrite (insert_Permutation cmp x l). constructor; [|done].
    destruct (cmp_total x y) as [H|H]; [unfold Js.le in H; lia|done].
Qed.

Lemma sort_StronglySorted l : StronglySorted cmpLe (Js.sort cmp l).
Proof using cmp_total cmp_trans.
  induction l as [|x l IH]; simpl; [constructor|]. by apply insert_StronglySorted.
Qed.

Lemma sort_idempotent l : Js.sort cmp (Js.sort cmp l) = Js.sort cmp l.
Proof using cmp_total cmp_trans. apply sort_sorted_id, sort_StronglySorted. Qed.

Lemma filter_insert_False (P : A -> Prop) `{forall x, Decision (P x)} x l :
  ~ P x -> filter P (Js.insert cmp x l) = filter P l.
Proof.
  intros Hx. induction l as [|y l IH]; simpl.
  - by rewrite filter_cons_False.
  - destruct (Z.leb _ _).
    + by rewrite filter_cons_False.
    + rewrite !filter_cons, IH. done.
Qed.

Lemma filter_insert_True (P : A -> Prop) `{forall x, Decision (P x)} x l :
  P x -> StronglySorted cmpLe l ->
  filter P (Js.insert cmp x l) = Js.insert cmp x (filter P l).
Proof using cmp_trans.
  intros Hx. induction 1 as [|y l Hl IH Hy]; simpl.
  - by rewrite filter_cons_True.
  - destruct (Z.leb_spec (cmp x y) 0) as [Hxy|Hxy].
    + rewrite filter_cons_True by done. symmetry. apply insert_head_le.
      apply Forall_forall. intros z [_ Hz]%list_elem_of_filter.
      apply elem_of_cons in Hz as [->|Hz]; [done|].
      rewrite Forall_forall in Hy. eapply cmp_trans; [exact Hxy|]. by apply Hy.
    + rewrite !filter_cons, IH. destruct (decide (P y)); [|done].
      simpl. by destruct (Z.leb_spec (cmp x y) 0); [lia|].
Qed.

Lemma filter_sort (P : A -> Prop) `{forall x, Decision (P x)} l :
  filter P (Js.sort cmp l) = Js.sort cmp (filter P l).
Proof using cmp_total cmp_trans.
  induction l as [|x l IH]; simpl; [done|].
  rewrite filter_cons. destruct (decide (P x)).
  - rewrite filter_insert_True by auto using sort_StronglySorted. simpl. by rewrite IH.
  - by rewrite filter_insert_False.
Qed.
End SortOrder.

Section SortMorphisms.
Context {A B : Type}.

Lemma insert_fmap (cmp : B -> B -> Z) (f : A -> B) x l :
  Js.insert cmp (f x) (f <$> l) = f <$> Js.insert (fun a b => cmp (f a) (f b)) x l.
Proof.
  induction l as [|y l IH]; [done|]. rewrite fmap_cons. cbn [Js.insert].
  destruct (Z.leb _ _); [done|]. rewrite fmap_cons. by f_equal.
Qed.

Lemma sort_fmap (cmp : B -> B -> Z) (f : A -> B) l :
  Js.sort cmp (f <$> l) = f <$> Js.sort (fun a b => cmp (f a) (f b)) l.
Proof.
  induction l as [|x l IH]; [done|].
  rewrite fmap_cons, !sort_cons, IH. apply insert_fmap.
Qed.

Lemma insert_ext_in (cmp cmp' : A -> A -> Z) x l :
  Forall (fun y => cmp x y = cmp' x y) l -> Js.insert cmp x l = Js.insert cmp' x l.
Proof.
  induction 1 as [|y l Hy _ IH]; simpl; [done|]. rewrite Hy, IH. done.
Qed.

Lemma sort_ext_in (cmp cmp' : A -> A -> Z) l :
  (forall a b, a ∈ l -> b ∈ l -> cmp a b = cmp' a b) ->
  Js.sort cmp l = Js.sort cmp' l.
Proof.
  induction l as [|x l IH]; intros H; simpl; [done|].
  rewrite <- IH.
  - apply insert_ext_in, Forall_forall. intros y Hy%elem_of_sort.
    apply H; [left|by right].
  - intros a b Ha Hb. apply H; by right.
Qed.

Lemma insert_Forall2 (R : A -> B -> Prop) (cmp : A -> A -> Z) (cmp' : B -> B -> Z)
    x x' l l' :
  (forall a a' b b', R a a' -> R b b' -> cmp a b = cmp' a' b') ->
  R x x' -> Forall2 R l l' ->
  Forall2 R (Js.insert cmp x l) (Js.insert cmp' x' l').
Proof.
  intros Hcmp Hx. induction 1 as [|y y' l l' Hy Hl IH]; simpl.
  - by repeat constructor.
  - rewrite (Hcmp x x' y y') by done.
    destruct (Z.leb _ _); repeat constructor; done.
Qed.

Lemma sort_Forall2 (R : A -> B -> Prop) (cmp : A -> A -> Z) (cmp' : B -> B -> Z) l l' :
  (forall a a' b b', R a a' -> R b b' -> cmp a b = cmp' a' b') ->
  Forall2 R l l' -> Forall2 R (Js.sort cmp l) (Js.sort cmp' l').
Proof.
  intros Hcmp. induction 1; simpl; [constructor|]. by apply insert_Forall2.
Qed.

Lemma filter_Forall2 (R : A -> B -> Prop) (P : A -> Prop) (Q : B -> Prop)
    `{forall x, Decision (P x)} `{forall x, Decision (Q x)} l l' :
  (forall a a', R a a' -> (P a <-> Q a')) ->
  Forall2 R l l' -> Forall2 R (filter P l) (filter Q l').
Proof.
  intros HPQ. induction 1 as [|x x' l l' Hx Hl IH]; [constructor|].
  rewrite !filter_cons. destruct (decide (P x)) as [HP|HP].
  - rewrite decide_True by by apply (HPQ x x'). by constructor.
  - rewrite decide_False; [done|]. by rewrite <- (HPQ x x').
Qed.
End SortMorphisms.

(** ** The chapters map *)

Lemma map_get_map_set_eq k v (m : ChaptersMap) : map_get k (map_set k v m) = Some v.
Proof.
  induction m as [|[k' v'] m IH]; simpl; [by rewrite Z.eqb_refl|].
  destruct (Z.eqb_spec k' k) as [->|Hk]; simpl; [by rewrite Z.eqb_refl|].
  by destruct (Z.eqb_spec k' k).
Qed.

Lemma map_get_map_set_ne k k' v (m : ChaptersMap) :
  k' <> k -> map_get k' (map_set k v m) = map_get k' m.
Proof.
  intros Hne. induction m as [|[k0 v0] m IH]; simpl.
  - by destruct (Z.eqb_spec k k').
  - destruct (Z.eqb_spec k0 k) as [->|Hk]; simpl.
    + destruct (Z.eqb_spec k k'); [congruence|done].
    + by rewrite IH.
Qed.

Lemma map_get_None k (m : ChaptersMap) : map_get k m = None <-> k ∉ m.*1.
Proof.
  induction m as [|[k' v] m IH]; csimpl.
  - split; [intros _; apply not_elem_of_nil|done].
  - rewrite not_elem_of_cons. destruct (Z.eqb_spec k' k) as [->|Hk].
    + split; [done|]. by intros [? _].
    + rewrite IH. split; [by split|by intros []].
Qed.

Lemma keys_map_set k v (m : ChaptersMap) :
  (map_set k v m).*1 = if map_has k m then m.*1 else m.*1 ++ [k].
Proof.
  unfold map_has. induction m as [|[k' v'] m IH]; csimpl; [done|].
  destruct (Z.eqb_spec k' k) as [->|Hk]; csimpl; [done|].
  rewrite IH. by destruct (map_get k m).
Qed.

Lemma NoDup_map_set k v (m : ChaptersMap) : NoDup m.*1 -> NoDup (map_set k v m).*1.
Proof.
  intros Hm. rewrite keys_map_set. unfold map_has.
  destruct (map_get k m) eqn:Hk; [done|].
  apply NoDup_app. split; [done|]. split; [|apply NoDup_singleton].
  intros x Hx ->%list_elem_of_singleton. by apply map_get_None in Hk.
Qed.

Lemma wellKeyed_get k v (m : ChaptersMap) :
  wellKeyed m -> map_get k m = Some v -> Forall (fun it => a_ChapterNumber it = k) v.
Proof.
  induction 1 as [|[k' v'] m Hv _ IH]; simpl; [done|].
  destruct (Z.eqb_spec k' k) as [->|Hk]; [by intros [= <-]|done].
Qed.

Lemma wellKeyed_map_set k v (m : ChaptersMap) :
  wellKeyed m -> Forall (fun it => a_ChapterNumber it = k) v -> wellKeyed (map_set k v m).
Proof.
  unfold wellKeyed. intros Hm Hv. induction Hm as [|[k' v'] m Hv' ? IH]; simpl.
  - by repeat constructor.
  - destruct (Z.eqb_spec k' k); by constructor.
Qed.

Lemma map_get_pushItem k item (m : ChaptersMap) :
  map_get k (pushItem item m)
  = if decide (a_ChapterNumber item = k)
    then Some (default [] (map_get k m) ++ [item])
    else map_get k m.
Proof.
  unfold pushItem, map_has. destruct (decide _) as [<-|Hk].
  - rewrite map_get_map_set_eq. f_equal. f_equal.
    destruct (map_get _ m) eqn:Hget; simpl; [by rewrite Hget|].
    by rewrite map_get_map_set_eq.
  - rewrite map_get_map_set_ne by done.
    destruct (map_get (a_ChapterNumber item) m); [done|].
    by rewrite map_get_map_set_ne.
Qed.

Lemma pushItem_invariants item (m : ChaptersMap) :
  NoDup m.*1 -> wellKeyed m -> NoDup (pushItem item m).*1 /\ wellKeyed (pushItem item m).
Proof.
  intros Hn Hw. unfold pushItem.
  set (k := a_ChapterNumber item).
  set (m1 := if map_has k m then m else map_set k [] m).
  assert (NoDup m1.*1 /\ wellKeyed m1) as [Hn1 Hw1].
  { unfold m1. destruct (map_has k m); [done|].
    split; [by apply NoDup_map_set | by apply wellKeyed_map_set]. }
  split; [by apply NoDup_map_set|]. apply wellKeyed_map_set; [done|].
  apply Forall_app. split; [|by repeat constructor].
  destruct (map_get k m1) as [v|] eqn:Hget; [|constructor].
  by eapply wellKeyed_get.
Qed.

Lemma pushAll_invariants items (m : ChaptersMap) :
  NoDup m.*1 -> wellKeyed m -> NoDup (pushAll items m).*1 /\ wellKeyed (pushAll items m).
Proof.
  revert m. induction items as [|item items IH]; intros m Hn Hw; simpl; [done|].
  destruct (pushItem_invariants item m Hn Hw). by apply IH.
Qed.

Lemma map_get_pushAll k items (m : ChaptersMap) :
  map_get k (pushAll items m)
  = match chapterItems k items with
    | [] => map_get k m
    | l => Some (default [] (map_get k m) ++ l)
    end.
Proof.
  revert m. induction items as [|item items IH]; intros m; [done|].
  simpl. rewrite IH, map_get_pushItem. unfold chapterItems. rewrite filter_cons.
  destruct (decide (a_ChapterNumber item = k)) as [Hk|Hk]; [|done].
  simpl. destruct (filter _ items); [done|].
  by rewrite <- (assoc_L (++)).
Qed.

Lemma map_get_mapValues k f (m : ChaptersMap) :
  map_get k (mapValues f m) = f <$> map_get k m.
Proof.
  induction m as [|[k' v] m IH]; [done|]. unfold mapValues in *. rewrite fmap_cons.
  simpl. by destruct (Z.eqb_spec k' k).
Qed.

Lemma keys_mapValues f (m : ChaptersMap) : (mapValues f m).*1 = m.*1.
Proof.
  unfold mapValues. rewrite <- list_fmap_compose. apply list_fmap_ext.
  by intros _ [] _.
Qed.

Lemma wellKeyed_mapValues f (m : ChaptersMap) :
  (forall l, f l ≡ₚ l) -> wellKeyed m -> wellKeyed (mapValues f m).
Proof.
  intros Hf. unfold wellKeyed, mapValues. rewrite Forall_fmap.
  intros Hm. eapply Forall_impl; [exact Hm|].
  intros [k v] Hv. simpl in *. by rewrite Hf.
Qed.

Lemma chapterItems_allSentences k (m : ChaptersMap) :
  NoDup m.*1 -> wellKeyed m ->
  chapterItems k (allSentences m) = default [] (map_get k m).
Proof.
  unfold chapterItems.
  induction m as [|[k' v] m IH]; intros Hn Hw; [done|].
  rewrite fmap_cons in Hn. simpl in Hn. apply NoDup_cons in Hn as [Hk' Hn].
  apply Forall_cons in Hw as [Hv Hw]. simpl in Hv.
  rewrite allSentences_cons, filter_app, IH by done. simpl.
  destruct (Z.eqb_spec k' k) as [->|Hk].
  - apply map_get_None in Hk'. rewrite Hk'. simpl. rewrite app_nil_r.
    by apply filter_all.
  - rewrite (filter_none _ v); [done|].
    eapply Forall_impl; [exact Hv|]. simpl. congruence.
Qed.

(** ** What an import builds *)

Lemma generateUniqueId_truthy env i : Js.truthy (generateUniqueId env i) = true.
Proof. done. Qed.

Lemma importComment_id env c tick :
  Js.truthy (c_id (importComment env c tick).1) = true.
Proof.
  unfold importComment. destruct (Js.truthy_opt (rc_id c)) eqn:Hid.
  - destruct (rc_timestamp c) as [z|]; [destruct (Z.eqb z 0)|]; simpl;
      by destruct (rc_id c).
  - by destruct (rc_timestamp c) as [z|]; [destruct (Z.eqb z 0)|].
Qed.

Lemma importComments_ids env cs tick :
  Forall (fun c => Js.truthy (c_id c) = true) (importComments env cs tick).1.
Proof.
  revert tick. induction cs as [|c cs IH]; intros tick; simpl; [constructor|].
  pose proof (importComment_id env c tick) as Hc.
  destruct (importComment env c tick) as [c' tick1].
  specialize (IH tick1). destruct (importComments env cs tick1) as [cs' tick2].
  by constructor.
Qed.

Lemma currentComments_ids env raw tick :
  Forall (fun c => Js.truthy (c_id c) = true) (currentComments env raw tick).1.
Proof.
  unfold currentComments. destruct (r_all_comments raw) as [cs|].
  { apply importComments_ids. }
  destruct (r_comment raw) as [t|]; [|constructor].
  destruct (Js.truthy t); [|constructor].
  unfold legacyComment.
  destruct (r_commentAppliesTo raw) as [a|]; [destruct (Js.truthy a)|];
    by repeat constructor.
Qed.

Lemma importEntry_inr env raw tick item tick' :
  importEntry env raw tick = inr (item, tick') -> importedItem item.
Proof.
  unfold importEntry.
  destruct (as_number (r_ChapterNumber raw)) as [ch|]; [|done].
  destruct (as_number (r_SentenceNumber raw)) as [sn|]; [|done].
  destruct (r_Sentence raw) as [t|]; [|done].
  destruct (Js.truthy t) eqn:Ht; [|done].
  pose proof (currentComments_ids env raw tick) as Hc.
  destruct (currentComments env raw tick) as [cs tick1].
  intros [= <- <-]. by repeat split.
Qed.

Lemma importEntries_inr env entries m tick m' :
  importEntries env entries m tick = inr m' ->
  exists items, m' = pushAll items m /\ Forall importedItem items.
Proof.
  revert m tick. induction entries as [|raw rest IH]; intros m tick; simpl.
  - intros [= <-]. by exists [].
  - destruct (importEntry env raw tick) as [e|[item tick']] eqn:He; [done|].
    intros (items & -> & Hitems)%IH. exists (item :: items). split; [done|].
    constructor; [|done]. by eapply importEntry_inr.
Qed.

(** *** Reading back what was exported *)

Lemma importComment_export env c tick :
  Js.truthy (c_id c) = true ->
  commentEquiv c (importComment env (exportComment c) tick).1.
Proof.
  intros Hid. unfold importComment, exportComment. simpl. rewrite Hid.
  destruct (Z.eqb_spec (c_timestamp c) 0); by repeat split.
Qed.

Lemma importComments_export env cs tick :
  Forall (fun c => Js.truthy (c_id c) = true) cs ->
  Forall2 commentEquiv cs (importComments env (exportComment <$> cs) tick).1.
Proof.
  intros Hcs. revert tick. induction Hcs as [|c cs Hc _ IH]; intros tick; [constructor|].
  rewrite fmap_cons. simpl.
  pose proof (importComment_export env c tick Hc) as Hc'.
  destruct (importComment env (exportComment c) tick) as [c' tick1].
  specialize (IH tick1).
  destruct (importComments env (exportComment <$> cs) tick1) as [cs' tick2].
  by constructor.
Qed.

Lemma js_String_JStr (m : gmap string string) : js_String <$> (JStr <$> m) = m.
Proof.
  rewrite <- map_fmap_compose. rewrite <- (map_fmap_id m) at 2.
  by apply map_fmap_ext.
Qed.

Lemma importEntry_export env item tick :
  importedItem item ->
  exists item' tick',
    importEntry env (fullExportItem item) tick = inr (item', tick')
    /\ itemEquiv item item'.
Proof.
  intros (Hid & Ht & Hcs). unfold importEntry, fullExportItem, currentComments. simpl.
  rewrite Ht.
  pose proof (importComments_export env (a_comments item) tick Hcs) as Hc.
  destruct (importComments env (exportComment <$> a_comments item) tick) as [cs' tick'].
  eexists _, _. split; [done|]. unfold itemEquiv. simpl.
  by rewrite js_String_JStr.
Qed.

Lemma importEntries_export env items m tick :
  Forall importedItem items ->
  exists items',
    importEntries env (fullExportItem <$> items) m tick = inr (pushAll items' m)
    /\ Forall2 itemEquiv items items'.
Proof.
  intros Hitems. revert m tick.
  induction Hitems as [|item items Hitem _ IH]; intros m tick.
  - by exists [].
  - rewrite fmap_cons. simpl.
    destruct (importEntry_export env item tick Hitem) as (item' & tick' & -> & He).
    destruct (IH (pushItem item' m) tick') as (items' & -> & Hi).
    exists (item' :: items'). split; [done|]. by constructor.
Qed.

(** *** The two orders *)

Lemma bySentenceNumber_total a b :
  Js.le bySentenceNumber a b \/ Js.le bySentenceNumber b a.
Proof. unfold Js.le, bySentenceNumber. lia. Qed.

Lemma bySentenceNumber_trans a b c :
  Js.le bySentenceNumber a b -> Js.le bySentenceNumber b c -> Js.le bySentenceNumber a c.
Proof. unfold Js.le, bySentenceNumber. lia. Qed.

Lemma byChapterThenSentence_eq a b :
  byChapterThenSentence a b
  = if negb (Z.eqb (a_ChapterNumber a) (a_ChapterNumber b))
    then a_ChapterNumber a - a_ChapterNumber b
    else a_SentenceNumber a - a_SentenceNumber b.
Proof. done. Qed.

Lemma byChapterThenSentence_total a b :
  Js.le byChapterThenSentence a b \/ Js.le byChapterThenSentence b a.
Proof.
  unfold Js.le. rewrite !byChapterThenSentence_eq.
  destruct (Z.eqb_spec (a_ChapterNumber a) (a_ChapterNumber b)),
    (Z.eqb_spec (a_ChapterNumber b) (a_ChapterNumber a)); simpl; lia.
Qed.

Lemma byChapterThenSentence_trans a b c :
  Js.le byChapterThenSentence a b -> Js.le byChapterThenSentence b c ->
  Js.le byChapterThenSentence a c.
Proof.
  unfold Js.le. rewrite !byChapterThenSentence_eq.
  destruct (Z.eqb_spec (a_ChapterNumber a) (a_ChapterNumber b)),
    (Z.eqb_spec (a_ChapterNumber b) (a_ChapterNumber c)),
    (Z.eqb_spec (a_ChapterNumber a) (a_ChapterNumber c)); simpl; lia.
Qed.

Lemma byChapterThenSentence_same_chapter a b :
  a_ChapterNumber a = a_ChapterNumber b ->
  byChapterThenSentence a b = bySentenceNumber a b.
Proof.
  intros H. rewrite byChapterThenSentence_eq, H, Z.eqb_refl. done.
Qed.

Lemma sort_fullExport l :
  Js.sort byFullOrder (fullExportItem <$> l)
  = fullExportItem <$> Js.sort byChapterThenSentence l.
Proof. exact (sort_fmap byFullOrder fullExportItem l). Qed.

Lemma chapterItems_sort_full k l :
  chapterItems k (Js.sort byChapterThenSentence l)
  = Js.sort bySentenceNumber (chapterItems k l).
Proof.
  unfold chapterItems.
  rewrite (filter_sort byChapterThenSentence byChapterThenSentence_total
             byChapterThenSentence_trans).
  apply sort_ext_in. intros a b [Ha _]%list_elem_of_filter [Hb _]%list_elem_of_filter.
  apply byChapterThenSentence_same_chapter. congruence.
Qed.

Lemma itemEquiv_bySentenceNumber a a' b b' :
  itemEquiv a a' -> itemEquiv b b' -> bySentenceNumber a b = bySentenceNumber a' b'.
Proof.
  intros (_ & _ & _ & Ha & _) (_ & _ & _ & Hb & _). unfold bySentenceNumber. congruence.
Qed.

(** *** The import handler *)

Lemma importStory_Some env st d s :
  storyData (importStory env st d) = Some s ->
  exists entries complete t m,
    im_Analysis d = AnalysisArray entries
    /\ im_TheCompleteStory d = Some complete
    /\ cs_Title complete = Some t /\ Js.truthy t = true
    /\ importEntries env entries [] 0 = inr m
    /\ s = mkStory t (mapValues (Js.sort bySentenceNumber) m)
    /\ originalCompleteStory (importStory env st d) = Some complete.
Proof.
  unfold importStory, processFile, handleFileLoad, loadStory.
  destruct d as [analysis complete]. simpl.
  destruct analysis as [|v|entries]; simpl.
  - done.
  - by destruct (negb (js_truthy v) || titleFalsy complete)%bool.
  - destruct complete as [[[t|] chs]|]; simpl; try done.
    destruct (Js.truthy t) eqn:Ht; simpl; [|done].
    destruct (importEntries env entries [] 0) as [e|m] eqn:Hm; simpl; [done|].
    intros [= <-]. by eexists entries, _, t, m.
Qed.

Lemma importStory_ok env st entries t chs m :
  Js.truthy t = true ->
  importEntries env entries [] 0 = inr m ->
  storyData (importStory env st
               (mkImported (AnalysisArray entries) (Some (mkCompleteStory (Some t) chs))))
  = Some (mkStory t (mapValues (Js.sort bySentenceNumber) m)).
Proof.
  intros Ht Hm. unfold importStory, processFile, handleFileLoad, loadStory. simpl.
  by rewrite Ht, Hm.
Qed.

Lemma pushAll_nil_get k items :
  map_get k (pushAll items [])
  = match chapterItems k items with [] => None | l => Some l end.
Proof. by rewrite map_get_pushAll. Qed.

Lemma imported_chapters_invariants items :
  NoDup (mapValues (Js.sort bySentenceNumber) (pushAll items [])).*1
  /\ wellKeyed (mapValues (Js.sort bySentenceNumber) (pushAll items [])).
Proof.
  destruct (pushAll_invariants items []) as [Hn Hw]; [constructor|constructor|].
  rewrite keys_mapValues. split; [done|].
  apply wellKeyed_mapValues; [|done]. intros l. apply sort_Permutation.
Qed.

Lemma elem_of_imported_sentences items x :
  x ∈ allSentences (mapValues (Js.sort bySentenceNumber) (pushAll items [])) -> x ∈ items.
Proof.
  intros Hx. destruct (imported_chapters_invariants items) as [Hn Hw].
  assert (x ∈ chapterItems (a_ChapterNumber x)
                (allSentences (mapValues (Js.sort bySentenceNumber) (pushAll items []))))
    as Hx'.
  { by apply list_elem_of_filter. }
  rewrite chapterItems_allSentences, map_get_mapValues, pushAll_nil_get in Hx' by done.
  destruct (chapterItems _ items) as [|y l] eqn:Hl.
  { by apply elem_of_nil in Hx'. }
  change (x ∈ Js.sort bySentenceNumber (y :: l)) in Hx'.
  apply elem_of_sort in Hx'. rewrite <- Hl in Hx'.
  by apply list_elem_of_filter in Hx' as [_ ?].
Qed.

(** C5.  Round trip: for every document [d] that imports, exporting the
    imported story in full and importing the exported document again gives a
    story equivalent to the first: the same title and, in every chapter, the
    same sentences in the same order -- same id, text, chapter number,
    sentence number and additional-analysis pairs -- with the same comments
    -- same id, text, kind, group id and applies-to numbers, and the same
    timestamp unless the first import left it 0, which happens only where
    [d] gave no timestamp. *)
Theorem import_export_round_trip env1 env2 st d s1 :
  storyData (importStory env1 st d) = Some s1 ->
  exists exported s2,
    exportFull (importStory env1 st d) = Some exported
    /\ storyData (importStory env2 (importStory env1 st d) exported) = Some s2
    /\ storyEquiv s1 s2.
Proof.
  intros Hs1.
  destruct (importStory_Some _ _ _ _ Hs1)
    as (entries & complete & t & m1 & _ & _ & _ & Ht & Hm1 & -> & Ho).
  apply importEntries_inr in Hm1 as (items1 & -> & Hitems1).
  set (chapters1 := mapValues (Js.sort bySentenceNumber) (pushAll items1 [])) in *.
  set (sorted := Js.sort byChapterThenSentence (allSentences chapters1)).
  assert (Forall importedItem sorted) as Hsorted.
  { apply Forall_forall. intros x Hx%elem_of_sort%elem_of_imported_sentences.
    rewrite Forall_forall in Hitems1. auto. }
  destruct (importEntries_export env2 sorted [] 0%nat Hsorted) as (items2 & Hm2 & Heq).
  eexists _, _. split; [|split].
  - unfold exportFull, commonExportLogic. rewrite Hs1, Ho. done.
  - unfold fullExport. simpl. rewrite sort_fullExport. fold chapters1. fold sorted.
    by apply importStory_ok.
  - split; [done|]. intros k. simpl. unfold chapters1.
    rewrite !map_get_mapValues, !pushAll_nil_get.
    assert (chapterItems k sorted
            = Js.sort bySentenceNumber (chapterItems k items1)) as Hk.
    { unfold sorted. rewrite chapterItems_sort_full.
      destruct (imported_chapters_invariants items1) as [Hn Hw].
      unfold chapters1.
      rewrite chapterItems_allSentences, map_get_mapValues, pushAll_nil_get by done.
      destruct (chapterItems k items1) as [|y l] eqn:Hl; [done|].
      change (Js.sort bySentenceNumber (Js.sort bySentenceNumber (y :: l))
              = Js.sort bySentenceNumber (y :: l)).
      apply (sort_idempotent bySentenceNumber bySentenceNumber_total
               bySentenceNumber_trans). }
    assert (Forall2 itemEquiv (Js.sort bySentenceNumber (chapterItems k items1))
              (chapterItems k items2)) as Hk2.
    { rewrite <- Hk. unfold chapterItems. eapply filter_Forall2; [|exact Heq].
      intros a a' (_ & _ & Hch & _). simpl. by rewrite Hch. }
    destruct (chapterItems k items1) as [|y l] eqn:Hl.
    + apply Forall2_nil_inv_l in Hk2 as ->. constructor.
    + destruct (chapterItems k items2) as [|y2 l2] eqn:Hl2.
      { apply Forall2_length in Hk2.
        rewrite (Permutation_length (sort_Permutation _ _)) in Hk2. done. }
      constructor.
      rewrite <- (sort_idempotent bySentenceNumber bySentenceNumber_total
                    bySentenceNumber_trans).
      eapply sort_Forall2; [|exact Hk2]. apply itemEquiv_bySentenceNumber.
Qed.

Lemma import_export_round_trip_witness :
  exists s1 exported s2,
    storyData (importStory demoEnv emptyState mixedDocument) = Some s1
    /\ exportFull (importStory demoEnv emptyState mixedDocument) = Some exported
    /\ storyData (importStory demoEnv (importStory demoEnv emptyState mixedDocument) exported)
       = Some s2
    /\ storyEquiv s1 s2.
Proof.
  assert (exists s1, storyData (importStory demoEnv emptyState mixedDocument) = Some s1)
    as [s1 Hs1].
  { eexists. vm_compute. reflexivity. }
  destruct (import_export_round_trip demoEnv demoEnv emptyState mixedDocument s1 Hs1)
    as (exported & s2 & H1 & H2 & H3).
  exists s1, exported, s2. split; [exact Hs1|]. split; [exact H1|]. split; [exact H2|exact H3].
Defined.

(** A timestamp is left 0 by an import only where the document gave none. *)
Lemma importComment_timestamp_zero env c tick :
  c_timestamp (importComment env c tick).1 = 0 ->
  rc_timestamp c = None \/ rc_timestamp c = Some 0.
Proof.
  unfold importComment. destruct (rc_timestamp c) as [z|]; [|auto].
  destruct (Z.eqb_spec z 0) as [->|Hz]; [auto|].
  by destruct (Js.truthy_opt (rc_id c)).
Qed.

(** ** Bulk addition in group mode *)

(** C2, at the input where it fails.  A story is imported with a sentence
    numbered -1; both its sentences are selected and annotated as a group.
    The two new comments share the list [[2]], not the sorted sentence
    numbers [[-1; 2]] of the targets: -1 is also the mark
    [sentenceNumbersForGroup] gives to an id it does not find, and the
    filter on that mark drops it. *)
Theorem group_add_drops_sentence_numbered_minus_one :
  exists story,
    storyData (importStory demoEnv emptyState minusOneDocument) = Some story
    /\ a_id <$> allSentences (chapters story) = ["ch1-s-1"; "ch1-s2"]
    /\ a_SentenceNumber <$> allSentences (chapters story) = [-1; 2]
    /\ c_appliesToSentenceNumbers
         <$> allComments (chapters (addBulkComment demoEnv story ["ch1-s-1"; "ch1-s2"]
                                      "tighten pacing" grouped))
       = [Some [2]; Some [2]].
Proof.
  eexists. split; [vm_compute; reflexivity|]. by vm_compute.
Qed.

Lemma sameShape_refl m : sameShape m m.
Proof. apply Forall_Forall2_diag, Forall_forall. done. Qed.

Lemma sameShape_trans m1 m2 m3 : sameShape m1 m2 -> sameShape m2 m3 -> sameShape m1 m3.
Proof.
  unfold sameShape. intros H12. revert m3.
  induction H12 as [|e1 e2 m1 m2 [? ?] _ IH]; intros m3 H23.
  - by apply Forall2_nil_inv_l in H23 as ->.
  - apply Forall2_cons_inv_l in H23 as (e3 & m3' & [? ?] & H23 & ->).
    constructor; [split; congruence | by apply IH].
Qed.

Lemma findIndex_same_ids j (l l' : list AnalysisItem) :
  a_id <$> l = a_id <$> l' ->
  Js.findIndex (sentence_id_is j) l = Js.findIndex (sentence_id_is j) l'.
Proof.
  revert l'. induction l as [|x l IH]; intros [|x' l']; try done.
  rewrite !fmap_cons. intros [= Hx Hl]. simpl. unfold sentence_id_is at 1 3.
  rewrite Hx. by rewrite (IH l').
Qed.

(** One step of the bulk loop on an id the container has. *)
Lemma appendToFirst_step id c m :
  (exists s, s ∈ allSentences m /\ a_id s = id) ->
  exists m1 l1 s1 l2,
    updateFirst (sentence_id_is id) (appendComment c) m = Some m1
    /\ allSentences m = l1 ++ s1 :: l2
    /\ allSentences m1 = l1 ++ appendComment c s1 :: l2
    /\ a_id s1 = id
    /\ Js.findIndex (sentence_id_is id) (allSentences m) = Some (length l1)
    /\ sameShape m m1.
Proof.
  intros (s & Hs & Hid).
  destruct (updateFirst (sentence_id_is id) (appendComment c) m) as [m1|] eqn:Hup.
  - apply updateFirst_Some in Hup
      as (pre & k & l1 & s1 & l2 & post & -> & -> & Hpre & Hl1 & Hs1).
    exists (pre ++ (k, l1 ++ appendComment c s1 :: l2) :: post),
      (allSentences pre ++ l1), s1, (l2 ++ allSentences post).
    split; [done|].
    rewrite !allSentences_app, !allSentences_cons, <- !(assoc_L (++)).
    split; [done|]. split; [done|]. split; [by apply sentence_id_is_true|]. split.
    + rewrite (assoc_L (++)), findIndex_app_false by by apply Forall_app.
      simpl. rewrite Hs1. simpl. f_equal. lia.
    + apply Forall2_app; [apply sameShape_refl|].
      constructor; [|apply sameShape_refl]. simpl. split; [done|].
      by rewrite !length_app.
  - apply updateFirst_None in Hup. rewrite Forall_forall in Hup.
    specialize (Hup s Hs). apply sentence_id_is_true in Hid. congruence.
Qed.

Lemma addBulkLoop_spec env mode text now gid nums ids :
  forall tick m,
    NoDup ids ->
    (forall id, id ∈ ids -> exists s, s ∈ allSentences m /\ a_id s = id) ->
    let m' := addBulkLoop env mode text now gid nums ids tick m in
    sameShape m m'
    /\ length (allComments m') = (length (allComments m) + length ids)%nat
    /\ forall i s, allSentences m !! i = Some s ->
         (a_id s ∈ ids ->
          Js.findIndex (sentence_id_is (a_id s)) (allSentences m) = Some i ->
          exists cid, allSentences m' !! i
                      = Some (appendComment (bulkComment mode cid text now gid nums) s))
         /\ (~ (a_id s ∈ ids
                /\ Js.findIndex (sentence_id_is (a_id s)) (allSentences m) = Some i) ->
             allSentences m' !! i = Some s).
Proof.
  induction ids as [|id ids IH]; intros tick m Hnd Hex; simpl.
  { split; [apply sameShape_refl|]. split; [lia|]. intros i s Hi.
    split; [by intros ?%elem_of_nil|done]. }
  apply NoDup_cons in Hnd as [Hid Hnd].
  set (c := bulkComment mode (generateUniqueId env tick) text now gid nums).
  destruct (appendToFirst_step id c m) as (m1 & l1 & s1 & l2 & -> & Hm & Hm1 & Hs1 & Hfi & Hsh).
  { apply Hex. left. }
  assert (a_id <$> allSentences m1 = a_id <$> allSentences m) as Hids.
  { by rewrite Hm, Hm1, !fmap_app, !fmap_cons. }
  destruct (IH (S tick) m1 Hnd) as (Hsh' & Hlen & Hall).
  { intros id' Hid'. destruct (Hex id') as (s & Hs & <-); [by right|].
    apply (list_elem_of_fmap_2 a_id) in Hs. rewrite <- Hids in Hs.
    apply list_elem_of_fmap in Hs as (s' & ? & ?). eauto. }
  split; [by eapply sameShape_trans|]. split.
  { rewrite Hlen, !allComments_eq, Hm, Hm1, !commentsOf_app, !commentsOf_cons.
    rewrite !length_app. simpl. rewrite !length_app. simpl. lia. }
  intros i s Hi.
  destruct (decide (i = length l1)) as [->|Hne].
  - assert (s = s1) as ->.
    { rewrite Hm, list_lookup_middle in Hi by done. congruence. }
    assert (allSentences m1 !! length l1 = Some (appendComment c s1)) as Hi1.
    { by rewrite Hm1, list_lookup_middle. }
    destruct (Hall _ _ Hi1) as [_ Hkeep]. rewrite Hkeep.
    + split; [by exists (generateUniqueId env tick)|].
      intros Hnot. destruct Hnot. split; [rewrite Hs1; left|by rewrite Hs1].
    + simpl. rewrite Hs1. by intros [? _].
  - assert (allSentences m1 !! i = Some s) as Hi1.
    { rewrite Hm1. rewrite Hm in Hi.
      destruct (decide (i < length l1)%nat).
      - rewrite lookup_app_l in Hi |- * by done. done.
      - rewrite lookup_app_r in Hi |- * by lia.
        destruct (i - length l1)%nat as [|j] eqn:Hj; [lia|done]. }
    destruct (Hall _ _ Hi1) as [Hadd Hkeep].
    rewrite (findIndex_same_ids _ _ _ Hids) in Hadd, Hkeep.
    split.
    + intros Hin Hfirst. apply Hadd; [|done].
      apply elem_of_cons in Hin as [Heq|]; [|done].
      rewrite Heq, Hfi in Hfirst. congruence.
    + intros Hnot. apply Hkeep. intros [Hin Hfirst]. apply Hnot.
      split; [by right|done].
Qed.

Lemma find_app {A} (p : A -> bool) l1 l2 :
  Js.find p (l1 ++ l2)
  = match Js.find p l1 with Some x => Some x | None => Js.find p l2 end.
Proof.
  unfold Js.find. induction l1 as [|x l1 IH]; simpl; [done|]. by destruct (p x).
Qed.

Lemma sentenceNumberOf_find id m :
  sentenceNumberOf id m
  = match Js.find (sentence_id_is id) (allSentences m) with
    | Some s => a_SentenceNumber s
    | None => -1
    end.
Proof.
  induction m as [|[k ss] m IH]; simpl; [done|].
  rewrite allSentences_cons, find_app. by destruct (Js.find _ ss).
Qed.

Lemma StronglySorted_weaken {A} (R R' : A -> A -> Prop) l :
  (forall a b, R a b -> R' a b) -> StronglySorted R l -> StronglySorted R' l.
Proof.
  intros HR. induction 1 as [|x l _ IH Hx]; constructor; [done|].
  eapply Forall_impl; [exact Hx|]. auto.
Qed.

Lemma addBulkComment_grouped_eq env story ids text :
  Js.truthy (Js.trim text) = true ->
  addBulkComment env story ids text grouped
  = mkStory (title story)
      (addBulkLoop env mode_group (Js.trim text) (clock env 0)
         (Some (generateUniqueId env 1))
         (Some (sentenceNumbersForGroup ids (chapters story))) ids 2 (chapters story)).
Proof.
  intros Ht. unfold addBulkComment, storyOf, handleSaveOrUpdateComment, stateOf. simpl.
  rewrite Ht. simpl. by destruct ids.
Qed.

(** C2, away from the failing input.  For a set of sentence ids the
    container has, none of whose sentences is numbered -1, and a non-blank
    text, adding in group mode keeps every chapter and sentence in place,
    appends to the first sentence with each selected id one comment of kind
    group -- all with the one generated group id, the trimmed text, the one
    timestamp and the one list of the targets' sentence numbers in ascending
    order -- and changes no other sentence and no other comment; the number
    of comments grows by the number of selected ids. *)
Theorem group_add_postcondition env story ids newText :
  NoDup ids ->
  (forall id, id ∈ ids -> exists s, s ∈ allSentences (chapters story) /\ a_id s = id) ->
  Js.truthy (Js.trim newText) = true ->
  (forall id, id ∈ ids -> sentenceNumberOf id (chapters story) <> -1) ->
  let m := chapters story in
  let story' := addBulkComment env story ids newText grouped in
  let numbers := Js.sort (fun a b => a - b) ((fun id => sentenceNumberOf id m) <$> ids) in
  let newComment cid :=
    mkComment cid (Js.trim newText) group (clock env 0)
              (Some (generateUniqueId env 1)) (Some numbers) in
  title story' = title story
  /\ sameShape m (chapters story')
  /\ length (allComments (chapters story')) = (length (allComments m) + length ids)%nat
  /\ (forall i s, allSentences m !! i = Some s ->
        (a_id s ∈ ids ->
         Js.findIndex (sentence_id_is (a_id s)) (allSentences m) = Some i ->
         exists cid, allSentences (chapters story') !! i
                     = Some (appendComment (newComment cid) s))
        /\ (~ (a_id s ∈ ids
               /\ Js.findIndex (sentence_id_is (a_id s)) (allSentences m) = Some i) ->
            allSentences (chapters story') !! i = Some s))
  /\ StronglySorted Z.le numbers
  /\ numbers ≡ₚ (fun id => sentenceNumberOf id m) <$> ids
  /\ (forall id, id ∈ ids ->
        exists s, Js.find (sentence_id_is id) (allSentences m) = Some s
                  /\ sentenceNumberOf id m = a_SentenceNumber s).
Proof.
  intros Hnd Hex Ht Hnum. cbv zeta. rewrite (addBulkComment_grouped_eq _ _ _ _ Ht).
  cbn [title chapters].
  assert (sentenceNumbersForGroup ids (chapters story)
          = Js.sort (fun a b => a - b)
              ((fun id => sentenceNumberOf id (chapters story)) <$> ids)) as ->.
  { unfold sentenceNumbersForGroup. f_equal. apply filter_all, Forall_forall.
    intros n (id & -> & Hid)%list_elem_of_fmap. by apply Hnum. }
  destruct (addBulkLoop_spec env mode_group (Js.trim newText) (clock env 0)
              (Some (generateUniqueId env 1))
              (Some (Js.sort (fun a b => a - b)
                       ((fun id => sentenceNumberOf id (chapters story)) <$> ids)))
              ids 2%nat (chapters story) Hnd Hex) as (Hsh & Hlen & Hall).
  split; [done|]. split; [done|]. split; [done|]. split; [exact Hall|]. split; [|split].
  - eapply StronglySorted_weaken; [|apply sort_StronglySorted].
    + unfold Js.le. intros a b. lia.
    + unfold Js.le. intros a b. lia.
    + unfold Js.le. intros a b c. lia.
  - apply sort_Permutation.
  - intros id Hid. rewrite sentenceNumberOf_find.
    destruct (Js.find _ _) as [s|] eqn:Hf; [by exists s|].
    apply find_None in Hf. rewrite Forall_forall in Hf.
    destruct (Hex id Hid) as (s & Hs & Hs'). specialize (Hf s Hs).
    apply sentence_id_is_true in Hs'. congruence.
Qed.

Lemma group_add_postcondition_witness :
  let story :=
    mkStory "Tale" [(1, [demoSentence 1 1 []; demoSentence 1 2 []; demoSentence 1 3 []])] in
  allComments (chapters (addBulkComment demoEnv story ["ch1-s3"; "ch1-s1"]
                           " tighten pacing " grouped))
  = [demoComment "id-1003-3" "tighten pacing" group 1000 (Some "id-1001-1") (Some [1; 3]);
     demoComment "id-1002-2" "tighten pacing" group 1000 (Some "id-1001-1") (Some [1; 3])]
  /\ length (allComments (chapters (addBulkComment demoEnv story ["ch1-s3"; "ch1-s1"]
                                      " tighten pacing " grouped))) = 2%nat.
Proof.
  simpl. split; [reflexivity|].
  refine (proj1 (proj2 (proj2
    (group_add_postcondition demoEnv
       (mkStory "Tale" [(1, [demoSentence 1 1 []; demoSentence 1 2 []; demoSentence 1 3 []])])
       ["ch1-s3"; "ch1-s1"] " tighten pacing " _ _ eq_refl _)))).
  - apply (bool_decide_unpack _). vm_compute. exact I.
  - intros id Hid. apply elem_of_cons in Hid as [->|Hid].
    + eexists. split; [apply list_elem_of_further, list_elem_of_further, list_elem_of_here|].
      reflexivity.
    + apply list_elem_of_singleton in Hid as ->.
      eexists. split; [apply list_elem_of_here|]. reflexivity.
  - intros id Hid. apply elem_of_cons in Hid as [->|Hid].
    + vm_compute. discriminate.
    + apply list_elem_of_singleton in Hid as ->. vm_compute. discriminate.
Defined.

(** * Further properties of the application *)

(** ** Import succeeds exactly on valid documents *)

Lemma importEntry_valid env raw tick :
  validEntry raw -> exists item tick', importEntry env raw tick = inr (item, tick').
Proof.
  intros ([ch Hch] & [sn Hsn] & t & Ht & Htr). unfold importEntry.
  rewrite Hch, Hsn, Ht, Htr. destruct (currentComments env raw tick). by eexists _, _.
Qed.

Lemma importEntry_inr_valid env raw tick r :
  importEntry env raw tick = inr r -> validEntry raw.
Proof.
  unfold importEntry, validEntry.
  destruct (as_number (r_ChapterNumber raw)) as [ch|]; [|done].
  destruct (as_number (r_SentenceNumber raw)) as [sn|]; [|done].
  destruct (r_Sentence raw) as [t|]; [|done].
  destruct (Js.truthy t) eqn:Ht; [|done]. intros _. eauto 10.
Qed.

Lemma importEntries_valid env entries m tick :
  Forall validEntry entries -> exists m', importEntries env entries m tick = inr m'.
Proof.
  intros H. revert m tick. induction H as [|raw rest Hraw _ IH]; intros m tick; simpl.
  - by eexists.
  - destruct (importEntry_valid env raw tick Hraw) as (item & tick' & ->). apply IH.
Qed.

Lemma importEntries_inr_valid env entries m tick m' :
  importEntries env entries m tick = inr m' -> Forall validEntry entries.
Proof.
  revert m tick. induction entries as [|raw rest IH]; intros m tick; simpl; [constructor|].
  destruct (importEntry env raw tick) as [e|[item tick']] eqn:He; [done|].
  intros Hrest. constructor; [by eapply importEntry_inr_valid | by eapply IH].
Qed.

Lemma mixedDocument_plain : plainDocument mixedDocument.
Proof.
  intros entries [= <-].
  repeat constructor; try (by intros z [= <-]); try done;
    try (by apply map_Forall_singleton); try (by apply map_Forall_empty).
Qed.

(** On a plain document -- one whose extra properties [String] prints --
    import succeeds exactly when the document is valid, and then installs
    the document's title and complete-story block, clears the error banner
    and resets the editing mode and both selections. *)
Theorem import_succeeds_iff_valid env st d :
  plainDocument d ->
  (validDocument d <-> is_Some (storyData (importStory env st d)))
  /\ (forall s, storyData (importStory env st d) = Some s ->
        im_TheCompleteStory d ≫= cs_Title = Some (title s)
        /\ originalCompleteStory (importStory env st d) = im_TheCompleteStory d
        /\ error (importStory env st d) = None
        /\ editMode (importStory env st d) = mode_single
        /\ bulkSelectedSentenceIds (importStory env st d) = []
        /\ selectedAnalysisItem (importStory env st d) = None).
Proof.
  intros _. split; [split|].
  - intros (entries & complete & t & Ha & Hc & Ht & Htr & Hall).
    destruct (importEntries_valid env entries [] 0%nat Hall) as [m Hm].
    destruct d as [a c]. simpl in *. subst a c. destruct complete as [ti chs].
    simpl in Ht. subst ti. by rewrite (importStory_ok env st entries t chs m Htr Hm).
  - intros [s Hs].
    destruct (importStory_Some _ _ _ _ Hs)
      as (entries & complete & t & m & Ha & Hc & Ht & Htr & Hm & _).
    exists entries, complete, t. repeat split; try done.
    by eapply importEntries_inr_valid.
  - intros s Hs.
    destruct (importStory_Some _ _ _ _ Hs)
      as (entries & complete & t & m & Ha & Hc & Ht & Htr & Hm & -> & Ho).
    rewrite Hc. simpl. rewrite Ht, Ho. split; [done|]. split; [done|].
    revert Hs. unfold importStory, processFile. rewrite Ha, Hc. simpl. rewrite Ht. simpl.
    rewrite Htr. simpl. unfold handleFileLoad.
    by destruct (loadStory env d) as [e|[s' c']].
Qed.

Lemma import_succeeds_iff_valid_witness :
  plainDocument mixedDocument
  /\ validDocument mixedDocument
  /\ is_Some (storyData (importStory demoEnv emptyState mixedDocument)).
Proof.
  split; [exact mixedDocument_plain|].
  assert (validDocument mixedDocument) as H.
  { eexists _, _, _. split; [reflexivity|]. split; [reflexivity|]. split; [reflexivity|].
    split; [reflexivity|].
    repeat constructor; try (by eexists); eexists; split; reflexivity. }
  split; [exact H|].
  exact (proj1 (proj1 (import_succeeds_iff_valid demoEnv emptyState mixedDocument
                         mixedDocument_plain)) H).
Defined.

(** ** The structure of an imported story *)

Lemma importComment_from env c tick :
  commentFromRaw c (importComment env c tick).1.
Proof.
  unfold importComment, commentFromRaw.
  destruct (rc_id c) as [id|]; simpl; [destruct (Js.truthy id) eqn:Hi|];
    (destruct (rc_timestamp c) as [z|]; [destruct (Z.eqb_spec z 0)|]); simpl;
    repeat split; try done; intros; simplify_eq; congruence.
Qed.

Lemma importComments_from env cs tick :
  Forall2 commentFromRaw cs (importComments env cs tick).1.
Proof.
  revert tick. induction cs as [|c cs IH]; intros tick; simpl; [constructor|].
  pose proof (importComment_from env c tick) as Hc.
  destruct (importComment env c tick) as [c' tick1].
  specialize (IH tick1). destruct (importComments env cs tick1) as [cs' tick2].
  by constructor.
Qed.

Lemma legacyComment_from env t a tick :
  commentFromLegacy t a (legacyComment env t a tick).1.
Proof.
  unfold legacyComment, commentFromLegacy.
  destruct a as [applies|]; [destruct (Js.truthy applies) eqn:Ha|]; simpl;
    rewrite ?Ha; repeat split; try done.
  by eexists.
Qed.

Lemma currentComments_from env raw tick :
  commentsFromEntry raw (currentComments env raw tick).1.
Proof.
  unfold currentComments, commentsFromEntry.
  destruct (r_all_comments raw) as [cs|]; [apply importComments_from|].
  destruct (r_comment raw) as [t|]; [|done]. simpl.
  destruct (Js.truthy t); [|done].
  pose proof (legacyComment_from env t (r_commentAppliesTo raw) tick) as Hl.
  destruct (legacyComment env t (r_commentAppliesTo raw) tick) as [c tick'].
  by exists c.
Qed.

Lemma importEntry_from env raw tick item tick' :
  importEntry env raw tick = inr (item, tick') -> itemFromEntry raw item.
Proof.
  unfold importEntry, itemFromEntry.
  destruct (as_number (r_ChapterNumber raw)) as [ch|]; [|done].
  destruct (as_number (r_SentenceNumber raw)) as [sn|]; [|done].
  destruct (r_Sentence raw) as [t|]; [|done].
  destruct (Js.truthy t) eqn:Ht; [|done].
  pose proof (currentComments_from env raw tick) as Hc.
  destruct (currentComments env raw tick) as [cs tick1].
  intros [= <- <-]. by repeat split.
Qed.

Lemma importEntries_items env entries m tick m' :
  importEntries env entries m tick = inr m' ->
  exists items, m' = pushAll items m /\ Forall2 itemFromEntry entries items.
Proof.
  revert m tick. induction entries as [|raw rest IH]; intros m tick; simpl.
  - intros [= <-]. exists []. by split; [|constructor].
  - destruct (importEntry env raw tick) as [e|[item tick']] eqn:He; [done|].
    intros (items & -> & Hitems)%IH. exists (item :: items). split; [done|].
    constructor; [|done]. by eapply importEntry_from.
Qed.

Lemma map_set_absent k v (m : ChaptersMap) :
  map_get k m = None -> map_set k v m = m ++ [(k, v)].
Proof.
  induction m as [|[k' v'] m IH]; simpl; [done|].
  destruct (Z.eqb_spec k' k); [done|]. intros H. by rewrite IH.
Qed.

Lemma allSentences_map_set_snoc k v item (m : ChaptersMap) :
  map_get k m = Some v ->
  allSentences (map_set k (v ++ [item]) m) ≡ₚ allSentences m ++ [item].
Proof.
  intros Hget.
  destruct (map_set_present _ (v ++ [item]) _ _ Hget) as (pre & post & -> & ->).
  rewrite !allSentences_app, !allSentences_cons.
  rewrite <- !(assoc_L (++)). f_equiv. f_equiv. apply Permutation_app_comm.
Qed.

Lemma allSentences_pushItem item (m : ChaptersMap) :
  allSentences (pushItem item m) ≡ₚ allSentences m ++ [item].
Proof.
  unfold pushItem, map_has.
  destruct (map_get (a_ChapterNumber item) m) as [v|] eqn:Hget.
  - rewrite Hget. simpl. by apply allSentences_map_set_snoc.
  - rewrite map_get_map_set_eq. cbn [default].
    rewrite allSentences_map_set_snoc by apply map_get_map_set_eq.
    rewrite (map_set_absent _ [] m Hget), allSentences_app. simpl.
    by rewrite app_nil_r.
Qed.

Lemma allSentences_pushAll items (m : ChaptersMap) :
  allSentences (pushAll items m) ≡ₚ allSentences m ++ items.
Proof.
  revert m. induction items as [|item items IH]; intros m; simpl.
  - by rewrite app_nil_r.
  - rewrite IH, allSentences_pushItem. by rewrite <- (assoc_L (++)).
Qed.

Lemma allSentences_mapValues_Permutation f (m : ChaptersMap) :
  (forall l, f l ≡ₚ l) -> allSentences (mapValues f m) ≡ₚ allSentences m.
Proof.
  intros Hf. induction m as [|[k v] m IH]; [done|].
  unfold mapValues in *. rewrite fmap_cons. simpl.
  rewrite !allSentences_cons. by rewrite Hf, IH.
Qed.

Lemma sortedChapters_sort (m : ChaptersMap) :
  sortedChapters (mapValues (Js.sort bySentenceNumber) m).
Proof.
  unfold sortedChapters, mapValues. rewrite Forall_fmap. apply Forall_forall.
  intros [k v] _. simpl.
  eapply StronglySorted_weaken;
    [|apply (sort_StronglySorted bySentenceNumber bySentenceNumber_total
               bySentenceNumber_trans)].
  unfold Js.le, bySentenceNumber. intros a b. lia.
Qed.

Lemma map_get_elem_of k v (m : ChaptersMap) :
  NoDup m.*1 -> (k, v) ∈ m -> map_get k m = Some v.
Proof.
  induction m as [|[k' v'] m IH]; csimpl; [by intros _ ?%elem_of_nil|].
  intros [Hk Hn]%NoDup_cons [[= -> ->]|Hin]%elem_of_cons.
  - by rewrite Z.eqb_refl.
  - destruct (Z.eqb_spec k' k) as [->|]; [|by apply IH].
    destruct Hk. by apply (list_elem_of_fmap_2 fst) in Hin.
Qed.

(** The story imported from a plain document lists, under each chapter
    number of the document, the sentences built from the entries of that
    chapter, in ascending order of sentence number and, among equal numbers,
    in document order; chapter numbers without an entry are absent; and the
    sentences of the story are those built from the entries, one for
    each. *)
Theorem imported_story_structure env st d entries s :
  plainDocument d ->
  im_Analysis d = AnalysisArray entries ->
  storyData (importStory env st d) = Some s ->
  exists items,
    Forall2 itemFromEntry entries items
    /\ (forall k, map_get k (chapters s)
                  = match chapterItems k items with
                    | [] => None
                    | l => Some (Js.sort bySentenceNumber l)
                    end)
    /\ allSentences (chapters s) ≡ₚ items.
Proof.
  intros _ Ha Hs.
  destruct (importStory_Some _ _ _ _ Hs)
    as (entries' & complete & t & m & Ha' & _ & _ & _ & Hm & -> & _).
  rewrite Ha in Ha'. injection Ha' as <-.
  apply importEntries_items in Hm as (items & -> & Hitems).
  exists items. split; [done|]. simpl. split.
  - intros k. rewrite map_get_mapValues, pushAll_nil_get.
    by destruct (chapterItems k items).
  - rewrite allSentences_mapValues_Permutation by apply sort_Permutation.
    by rewrite allSentences_pushAll.
Qed.

Lemma imported_story_structure_witness :
  exists s items,
    storyData (importStory demoEnv emptyState mixedDocument) = Some s
    /\ allSentences (chapters s) ≡ₚ items
    /\ length items = 3%nat.
Proof.
  assert (exists s, storyData (importStory demoEnv emptyState mixedDocument) = Some s)
    as [s Hs].
  { eexists. vm_compute. reflexivity. }
  destruct (imported_story_structure demoEnv emptyState mixedDocument _ s
              mixedDocument_plain eq_refl Hs)
    as (items & H1 & _ & H3).
  exists s, items. split; [exact Hs|]. split; [exact H3|].
  apply Forall2_length in H1. symmetry. exact H1.
Defined.

Lemma imported_chapters_nonempty items :
  Forall (fun e => e.2 <> [])
    (mapValues (Js.sort bySentenceNumber) (pushAll items [])).
Proof.
  destruct (imported_chapters_invariants items) as [Hn Hw].
  apply Forall_forall. intros [k v] Hin. simpl.
  pose proof (map_get_elem_of _ _ _ Hn Hin) as Hget.
  rewrite map_get_mapValues, pushAll_nil_get in Hget.
  destruct (chapterItems k items) as [|y l] eqn:Hl; [done|].
  injection Hget as <-. intros Hnil. apply (f_equal length) in Hnil.
  pose proof (Permutation_length (sort_Permutation bySentenceNumber (y :: l))) as Hp.
  simpl in *. lia.
Qed.

Lemma imported_wellFormed env st d s :
  storyData (importStory env st d) = Some s -> storyWellFormed (chapters s).
Proof.
  intros Hs.
  destruct (importStory_Some _ _ _ _ Hs)
    as (entries & complete & t & m & _ & _ & _ & _ & Hm & -> & _).
  apply importEntries_inr in Hm as (items & -> & Hitems). simpl.
  destruct (imported_chapters_invariants items) as [Hn Hw].
  split; [done|]. split; [done|]. split; [apply sortedChapters_sort|].
  split; [apply imported_chapters_nonempty|].
  apply Forall_forall. intros x Hx%elem_of_imported_sentences.
  rewrite Forall_forall in Hitems. by apply Hitems.
Qed.

(** The chapters map of an imported story has distinct chapter numbers,
    keeps under each number only sentences of that chapter, has no empty
    chapter, and has every chapter in ascending order of sentence number. *)
Theorem imported_chapters_ordered env st d s :
  storyData (importStory env st d) = Some s ->
  NoDup (chapters s).*1
  /\ wellKeyed (chapters s)
  /\ sortedChapters (chapters s)
  /\ Forall (fun e => e.2 <> []) (chapters s).
Proof.
  intros Hs.
  destruct (importStory_Some _ _ _ _ Hs)
    as (entries & complete & t & m & _ & _ & _ & _ & Hm & -> & _).
  apply importEntries_inr in Hm as (items & -> & _). simpl.
  destruct (imported_chapters_invariants items) as [Hn Hw].
  split; [done|]. split; [done|]. split; [apply sortedChapters_sort|].
  apply imported_chapters_nonempty.
Qed.

Lemma imported_chapters_ordered_witness :
  exists s,
    storyData (importStory demoEnv emptyState mixedDocument) = Some s
    /\ (chapters s).*1 = [2; 1]
    /\ sortedChapters (chapters s).
Proof.
  assert (exists s, storyData (importStory demoEnv emptyState mixedDocument) = Some s
                    /\ (chapters s).*1 = [2; 1]) as (s & Hs & Hk).
  { eexists. split; vm_compute; reflexivity. }
  exists s. split; [exact Hs|]. split; [exact Hk|].
  exact (proj1 (proj2 (proj2 (imported_chapters_ordered demoEnv emptyState mixedDocument s Hs)))).
Defined.

(** ** Mutators change comments only *)

Lemma framesOf_app (m1 m2 : ChaptersMap) : framesOf (m1 ++ m2) = framesOf m1 ++ framesOf m2.
Proof. unfold framesOf, mapValues. apply fmap_app. Qed.

Lemma framesOf_cons k ss (m : ChaptersMap) :
  framesOf ((k, ss) :: m) = (k, frameOf <$> ss) :: framesOf m.
Proof. done. Qed.

Lemma framesOf_mapValues_fmap (f : AnalysisItem -> AnalysisItem) m :
  (forall s, frameOf (f s) = frameOf s) ->
  framesOf (mapValues (fmap f) m) = framesOf m.
Proof.
  intros Hf. induction m as [|[k ss] m IH]; [done|].
  change (mapValues (fmap f) ((k, ss) :: m)) with ((k, f <$> ss) :: mapValues (fmap f) m).
  rewrite !framesOf_cons, IH. f_equal. f_equal.
  rewrite <- list_fmap_compose. apply list_fmap_ext. intros _ s _. apply Hf.
Qed.

Lemma framesOf_updateFirst p f m m' :
  (forall s, frameOf (f s) = frameOf s) ->
  updateFirst p f m = Some m' -> framesOf m' = framesOf m.
Proof.
  intros Hf (pre & k & l1 & s & l2 & post & -> & -> & _)%updateFirst_Some.
  rewrite !framesOf_app, !framesOf_cons, !fmap_app, !fmap_cons. by rewrite Hf.
Qed.

Lemma framesOf_default_updateFirst p f m :
  (forall s, frameOf (f s) = frameOf s) ->
  framesOf (default m (updateFirst p f m)) = framesOf m.
Proof.
  intros Hf. destruct (updateFirst p f m) as [m'|] eqn:Hup; [|done].
  simpl. eapply framesOf_updateFirst; [exact Hf|exact Hup].
Qed.

Lemma frameOf_withComments s cs : frameOf (withComments s cs) = frameOf s.
Proof. done. Qed.

Lemma frameOf_editGroupSentence G eid text now s :
  frameOf (editGroupSentence G eid text now s) = frameOf s.
Proof. by rewrite editGroupSentence_eq. Qed.

Lemma framesOf_editChapters detail text now m :
  framesOf (editChapters detail text now m) = framesOf m.
Proof.
  unfold editChapters, editGroup, editSingle.
  destruct (e_groupId detail) as [g|]; [destruct (Js.truthy g)|].
  - apply framesOf_mapValues_fmap, frameOf_editGroupSentence.
  - by apply framesOf_default_updateFirst.
  - by apply framesOf_default_updateFirst.
Qed.

Lemma framesOf_addSingle c selected m :
  framesOf (addSingle c selected m).1 = framesOf m.
Proof.
  unfold addSingle.
  destruct (map_get _ m) as [ss|] eqn:Hget; [|done].
  destruct (Js.findIndex _ ss) as [i|] eqn:Hi; [|done]. simpl.
  apply findIndex_Some in Hi as (l1 & s & l2 & -> & <- & _ & _).
  destruct (map_set_present _ (alter (appendComment c) (length l1) (l1 ++ s :: l2)) _ _ Hget)
    as (pre & post & -> & ->).
  rewrite alter_middle, !framesOf_app, !framesOf_cons, !fmap_app, !fmap_cons. done.
Qed.

Lemma framesOf_addBulkLoop env mode text now gid nums ids tick m :
  framesOf (addBulkLoop env mode text now gid nums ids tick m) = framesOf m.
Proof.
  revert tick m. induction ids as [|id ids IH]; intros tick m; simpl; [done|].
  destruct (updateFirst _ _ m) as [m'|] eqn:Hup; rewrite IH; [|done].
  eapply framesOf_updateFirst; [|exact Hup]. done.
Qed.

Lemma framesOf_addBulk env mode text now ids m :
  framesOf (addBulk env mode text now ids m) = framesOf m.
Proof. unfold addBulk. destruct mode; apply framesOf_addBulkLoop. Qed.

Lemma framesOf_deleteChapters sid cid m :
  framesOf (deleteChapters sid cid m) = framesOf m.
Proof.
  assert (framesOf (deleteSingle sid cid m) = framesOf m) as Hs.
  { by apply framesOf_default_updateFirst. }
  unfold deleteChapters.
  destruct (commentToDeleteDetails _ _ m) as [d|]; [|done].
  destruct (c_type d); [done|].
  destruct (c_groupId d) as [g|]; [|done].
  destruct (Js.truthy g); [|done].
  by apply framesOf_mapValues_fmap.
Qed.

(** ** What each mutator does to the comments of a sentence *)

Section PerSentence.
Variable R : list CommentObject -> list CommentObject -> Prop.
Hypothesis R_refl : forall cs, R cs cs.

Lemma perSentence_refl m : perSentence R m m.
Proof using Type*. apply Forall_Forall2_diag, Forall_forall. intros s _. by split. Qed.

Lemma perSentence_mapValues (f : AnalysisItem -> AnalysisItem) m :
  (forall s, frameOf (f s) = frameOf s /\ R (a_comments s) (a_comments (f s))) ->
  perSentence R m (mapValues (fmap f) m).
Proof using Type.
  intros Hf. unfold perSentence. rewrite allSentences_mapValues_fmap.
  apply Forall2_fmap_r, Forall_Forall2_diag, Forall_forall. intros s _. apply Hf.
Qed.

Lemma perSentence_updateFirst p f m m' :
  (forall s, frameOf (f s) = frameOf s /\ R (a_comments s) (a_comments (f s))) ->
  updateFirst p f m = Some m' -> perSentence R m m'.
Proof using Type*.
  intros Hf (l1 & s & l2 & Hm & Hm' & _)%updateFirst_flat.
  unfold perSentence. rewrite Hm, Hm'.
  apply Forall2_app; [|constructor; [apply Hf|]];
    apply Forall_Forall2_diag, Forall_forall; intros x _; by split.
Qed.

Lemma perSentence_default_updateFirst p f m :
  (forall s, frameOf (f s) = frameOf s /\ R (a_comments s) (a_comments (f s))) ->
  perSentence R m (default m (updateFirst p f m)).
Proof using Type*.
  intros Hf. destruct (updateFirst p f m) as [m'|] eqn:Hup; simpl.
  - eapply perSentence_updateFirst; [exact Hf|exact Hup].
  - apply perSentence_refl.
Qed.

Hypothesis R_trans : forall a b c, R a b -> R b c -> R a c.

Lemma perSentence_trans m1 m2 m3 :
  perSentence R m1 m2 -> perSentence R m2 m3 -> perSentence R m1 m3.
Proof using R_trans.
  unfold perSentence. generalize (allSentences m1) (allSentences m2) (allSentences m3).
  intros l1 l2 l3 H12. revert l3. induction H12 as [|a b l1 l2 [Hf Hr] _ IH]; intros l3 H23.
  - by inversion H23.
  - inversion H23 as [|b' c ? l3' [Hf' Hr'] Hrest]; subst. constructor; [|by apply IH].
    split; [congruence|by eapply R_trans].
Qed.

End PerSentence.

Lemma appendedTo_refl env text cs : appendedTo env text cs cs.
Proof. exists []. by rewrite app_nil_r. Qed.

Lemma appendedTo_trans env text a b c :
  appendedTo env text a b -> appendedTo env text b c -> appendedTo env text a c.
Proof.
  intros (n1 & -> & H1) (n2 & -> & H2). exists (n1 ++ n2).
  rewrite (assoc_L (++)). split; [done|by apply Forall_app].
Qed.

Lemma appendedTo_one env text c s :
  addedBy env text c ->
  frameOf (appendComment c s) = frameOf s
  /\ appendedTo env text (a_comments s) (a_comments (appendComment c s)).
Proof. intros Hc. split; [done|]. exists [c]. split; [done|by constructor]. Qed.

Lemma addedBy_bulkComment env mode text gid nums tick :
  addedBy env text
    (bulkComment mode (generateUniqueId env tick) (Js.trim text) (clock env 0) gid nums).
Proof. destruct mode; repeat split; by exists tick. Qed.

Lemma perSentence_addBulkLoop env mode text gid nums ids tick m :
  perSentence (appendedTo env text) m
    (addBulkLoop env mode (Js.trim text) (clock env 0) gid nums ids tick m).
Proof.
  revert tick m. induction ids as [|id ids IH]; intros tick m; simpl.
  { apply perSentence_refl, appendedTo_refl. }
  destruct (updateFirst _ _ m) as [m'|] eqn:Hup; [|apply IH].
  eapply perSentence_trans; [apply appendedTo_trans| |apply IH].
  eapply perSentence_updateFirst; [apply appendedTo_refl| |exact Hup].
  intros s. apply appendedTo_one, addedBy_bulkComment.
Qed.

Lemma perSentence_addSingle env text c selected m :
  addedBy env text c ->
  perSentence (appendedTo env text) m (addSingle c selected m).1.
Proof.
  intros Hc. destruct (addSingle c selected m) as [m' [u|]] eqn:Hadd; simpl.
  - apply addSingle_replacedOne in Hadd as (s & l1 & l2 & Hm & Hm').
    unfold perSentence. rewrite Hm, Hm'.
    apply Forall2_app; [|constructor; [by apply appendedTo_one|]];
      apply Forall_Forall2_diag, Forall_forall; intros x _;
      (split; [done|apply appendedTo_refl]).
  - apply addSingle_None in Hadd as ->. apply perSentence_refl, appendedTo_refl.
Qed.


Lemma editedFrom_fmap text now (p : CommentObject -> bool) cs :
  Forall2 (editedFrom text now) cs ((fun c => if p c then withEdit text now c else c) <$> cs).
Proof.
  apply Forall2_fmap_r, Forall_Forall2_diag, Forall_forall. intros c _.
  unfold compose, editedFrom. destruct (p c); [by right|by left].
Qed.

Lemma editedFrom_refl text now cs : Forall2 (editedFrom text now) cs cs.
Proof. apply Forall_Forall2_diag, Forall_forall. intros c _. by left. Qed.

(** The story after saving a new comment. *)
Lemma save_new_effect env st text story :
  storyData st = Some story ->
  exists m',
    storyData (handleSaveOrUpdateComment env st text None) = Some (mkStory (title story) m')
    /\ framesOf m' = framesOf (chapters story)
    /\ perSentence (appendedTo env text) (chapters story) m'.
Proof.
  intros Hs. unfold handleSaveOrUpdateComment. rewrite Hs.
  assert (perSentence (appendedTo env text) (chapters story) (chapters story)) as Hrefl.
  { apply perSentence_refl, appendedTo_refl. }
  destruct (Js.truthy (Js.trim text)); simpl.
  2:{ exists (chapters story). by rewrite mkStory_eta. }
  assert (forall ids mode, perSentence (appendedTo env text) (chapters story)
            (addBulk env mode (Js.trim text) (clock env 0) ids (chapters story))) as Hbulk.
  { intros ids mode. unfold addBulk. destruct mode; apply perSentence_addBulkLoop. }
  destruct (editMode st).
  - destruct (selectedAnalysisItem st) as [selected|].
    + pose proof (perSentence_addSingle env text
                    (mkComment (generateUniqueId env 1) (Js.trim text) single
                       (clock env 0) None None) selected (chapters story)) as Hp.
      pose proof (framesOf_addSingle
                    (mkComment (generateUniqueId env 1) (Js.trim text) single
                       (clock env 0) None None) selected (chapters story)) as Hf.
      destruct (addSingle _ selected (chapters story)) as [m u].
      exists m. unfold setStory. rewrite Hs. simpl. split; [done|]. split; [done|].
      apply Hp. repeat split. by exists 1%nat.
    + exists (chapters story). unfold setStory. rewrite Hs. by simpl.
  - destruct (selectedAnalysisItem st), (bulkSelectedSentenceIds st); cbv beta iota;
      eexists; unfold setStory; rewrite Hs; simpl; (split; [done|]);
      (split; [done || apply framesOf_addBulk | done || apply Hbulk]).
  - destruct (selectedAnalysisItem st), (bulkSelectedSentenceIds st); cbv beta iota;
      eexists; unfold setStory; rewrite Hs; simpl; (split; [done|]);
      (split; [done || apply framesOf_addBulk | done || apply Hbulk]).
Qed.

(** The story after saving an edit. *)
Lemma save_edit_effect env st text detail story :
  storyData st = Some story ->
  exists m',
    storyData (handleSaveOrUpdateComment env st text (Some detail))
    = Some (mkStory (title story) m')
    /\ framesOf m' = framesOf (chapters story)
    /\ perSentence (editedTo env text) (chapters story) m'.
Proof.
  intros Hs. unfold handleSaveOrUpdateComment. rewrite Hs.
  destruct (Js.truthy (Js.trim text)); simpl.
  2:{ exists (chapters story). rewrite mkStory_eta. split; [done|]. split; [done|].
      apply perSentence_refl. intros cs. apply editedFrom_refl. }
  eexists. unfold setStory. rewrite Hs. simpl. split; [done|].
  split; [apply framesOf_editChapters|].
  assert (perSentence (editedTo env text) (chapters story)
            (editSingle (e_id detail) (Js.trim text) (clock env 0) (chapters story))) as Hsingle.
  { apply perSentence_default_updateFirst; [intros cs; apply editedFrom_refl|].
    intros s. split; [done|]. apply editedFrom_fmap. }
  unfold editChapters. destruct (e_groupId detail) as [g|]; [|done].
  destruct (Js.truthy g); [|done].
  apply perSentence_mapValues. intros s. rewrite editGroupSentence_eq. split; [done|].
  apply editedFrom_fmap.
Qed.

(** The story after a deletion. *)
Lemma delete_effect st sid cid story :
  storyData st = Some story ->
  exists m',
    storyData (handleDeleteComment st sid cid) = Some (mkStory (title story) m')
    /\ framesOf m' = framesOf (chapters story)
    /\ perSentence removedFrom (chapters story) m'.
Proof.
  intros Hs. unfold handleDeleteComment. rewrite Hs. simpl.
  eexists. split; [done|]. split; [apply framesOf_deleteChapters|].
  assert (perSentence removedFrom (chapters story) (deleteSingle sid cid (chapters story)))
    as Hsingle.
  { apply perSentence_default_updateFirst; [intros cs; unfold removedFrom; reflexivity|].
    intros s. split; [done|]. apply sublist_filter. }
  unfold deleteChapters.
  destruct (commentToDeleteDetails _ _ _) as [d|]; [|done].
  destruct (c_type d); [done|].
  destruct (c_groupId d) as [g|]; [|done].
  destruct (Js.truthy g); [|done].
  apply perSentence_mapValues. intros s. split; [done|]. apply sublist_filter.
Qed.

(** What a mutator does to the rest of the state. *)
Lemma mutation_fields st mu :
  originalCompleteStory (runMutation st mu) = originalCompleteStory st
  /\ error (runMutation st mu) = error st
  /\ isLoading (runMutation st mu) = isLoading st
  /\ editMode (runMutation st mu) = editMode st
  /\ (bulkSelectedSentenceIds (runMutation st mu) = bulkSelectedSentenceIds st
      \/ bulkSelectedSentenceIds (runMutation st mu) = []).
Proof.
  destruct mu as [env text detail|sid cid]; simpl.
  - unfold handleSaveOrUpdateComment.
    destruct (storyData st) as [story|]; [|by repeat split; try left].
    destruct (Js.truthy (Js.trim text)); simpl; [|by repeat split; try left].
    destruct detail as [detail|]; [by repeat split; try left|].
    destruct (editMode st) eqn:Hmode.
    + destruct (selectedAnalysisItem st) as [selected|].
      * destruct (addSingle _ selected (chapters story)) as [m u].
        by repeat split; try left.
      * by repeat split; try left.
    + destruct (selectedAnalysisItem st), (bulkSelectedSentenceIds st); cbv beta iota;
        by repeat split; try right.
    + destruct (selectedAnalysisItem st), (bulkSelectedSentenceIds st); cbv beta iota;
        by repeat split; try right.
  - unfold handleDeleteComment.
    destruct (storyData st) as [story|]; by repeat split; try left.
Qed.

(** No mutator adds, removes, reorders or alters a sentence, or touches
    the title, the retained complete-story block or the error banner: after
    any call, the chapters hold the same sentences in the same places, with
    the same id, text, numbers and additional analysis; only comment lists
    differ. *)
Theorem mutation_changes_comments_only st mu story :
  storyData st = Some story ->
  exists story',
    storyData (runMutation st mu) = Some story'
    /\ title story' = title story
    /\ framesOf (chapters story') = framesOf (chapters story)
    /\ originalCompleteStory (runMutation st mu) = originalCompleteStory st
    /\ error (runMutation st mu) = error st.
Proof.
  intros Hs.
  destruct (mutation_fields st mu) as (Ho & He & _).
  assert (exists m', storyData (runMutation st mu) = Some (mkStory (title story) m')
                     /\ framesOf m' = framesOf (chapters story)) as (m' & Hm & Hf).
  { destruct mu as [env text [detail|]|sid cid]; simpl.
    - destruct (save_edit_effect env st text detail story Hs) as (m' & ? & ? & _). eauto.
    - destruct (save_new_effect env st text story Hs) as (m' & ? & ? & _). eauto.
    - destruct (delete_effect st sid cid story Hs) as (m' & ? & ? & _). eauto. }
  exists (mkStory (title story) m'). by repeat split.
Qed.

Lemma mutation_changes_comments_only_witness :
  exists story',
    storyData (runMutation (stateOf linkedStory mode_single None []) (Delete "ch1-s1" "c1"))
    = Some story'
    /\ framesOf (chapters story') = framesOf (chapters linkedStory).
Proof.
  destruct (mutation_changes_comments_only (stateOf linkedStory mode_single None [])
              (Delete "ch1-s1" "c1") linkedStory eq_refl) as (story' & H1 & _ & H3 & _).
  exists story'. split; [exact H1 | exact H3].
Defined.

(** Saving a new comment only appends: every sentence keeps the comments
    it had, unchanged and in order, and whatever follows them carries the
    trimmed text, the time of the call and an id generated by the call. *)
Theorem add_only_appends env st text story :
  storyData st = Some story ->
  exists story',
    storyData (handleSaveOrUpdateComment env st text None) = Some story'
    /\ perSentence (appendedTo env text) (chapters story) (chapters story').
Proof.
  intros Hs. destruct (save_new_effect env st text story Hs) as (m' & Hm & _ & Hp).
  by exists (mkStory (title story) m').
Qed.

Lemma add_only_appends_witness :
  exists story',
    storyData (handleSaveOrUpdateComment demoEnv
                 (stateOf linkedStory mode_mass None ["ch1-s1"; "ch1-s2"]) " note " None)
    = Some story'
    /\ perSentence (appendedTo demoEnv " note ") (chapters linkedStory) (chapters story').
Proof.
  exact (add_only_appends demoEnv (stateOf linkedStory mode_mass None ["ch1-s1"; "ch1-s2"])
           " note " linkedStory eq_refl).
Defined.

(** Saving an edit never adds, removes or reorders a comment: position by
    position, every comment of every sentence is either untouched or the
    same comment with the trimmed text and the time of the call; its id,
    kind, group id and sentence-number list stay. *)
Theorem edit_changes_text_and_time_only env st text detail story :
  storyData st = Some story ->
  exists story',
    storyData (handleSaveOrUpdateComment env st text (Some detail)) = Some story'
    /\ perSentence (editedTo env text) (chapters story) (chapters story').
Proof.
  intros Hs. destruct (save_edit_effect env st text detail story Hs) as (m' & Hm & _ & Hp).
  by exists (mkStory (title story) m').
Qed.

Lemma edit_changes_text_and_time_only_witness :
  exists story',
    storyData (handleSaveOrUpdateComment demoEnv (stateOf linkedStory mode_single None [])
                 "cut" (Some (mkDetail "c1" None)))
    = Some story'
    /\ perSentence (editedTo demoEnv "cut") (chapters linkedStory) (chapters story').
Proof.
  exact (edit_changes_text_and_time_only demoEnv (stateOf linkedStory mode_single None [])
           "cut" (mkDetail "c1" None) linkedStory eq_refl).
Defined.

(** Deleting only removes: the comments a sentence has afterwards are
    comments it had before, unchanged and in their former order. *)
Theorem delete_only_removes st sid cid story :
  storyData st = Some story ->
  exists story',
    storyData (handleDeleteComment st sid cid) = Some story'
    /\ perSentence removedFrom (chapters story) (chapters story').
Proof.
  intros Hs. destruct (delete_effect st sid cid story Hs) as (m' & Hm & _ & Hp).
  by exists (mkStory (title story) m').
Qed.

Lemma delete_only_removes_witness :
  exists story',
    storyData (handleDeleteComment (stateOf linkedStory mode_single None []) "ch1-s1" "c1")
    = Some story'
    /\ perSentence removedFrom (chapters linkedStory) (chapters story').
Proof.
  exact (delete_only_removes (stateOf linkedStory mode_single None []) "ch1-s1" "c1"
           linkedStory eq_refl).
Defined.

(** ** Well-formedness is kept *)

Lemma StronglySorted_fmap_iff {A B} (R : B -> B -> Prop) (f : A -> B) l :
  StronglySorted R (f <$> l) <-> StronglySorted (fun a b => R (f a) (f b)) l.
Proof.
  induction l as [|x l IH]; simpl.
  - split; constructor.
  - split; intros H; inversion H as [|? ? Hs Hf]; subst; constructor.
    + by apply IH.
    + by apply (Forall_fmap f (R (f x)) l).
    + by apply IH.
    + by apply (Forall_fmap f (R (f x)) l).
Qed.

Lemma wellKeyed_framesOf m : wellKeyed (framesOf m) <-> wellKeyed m.
Proof.
  unfold wellKeyed, framesOf, mapValues. rewrite Forall_fmap.
  apply Forall_iff. intros [k l]. unfold compose. simpl. by rewrite Forall_fmap.
Qed.

Lemma sortedChapters_framesOf m : sortedChapters (framesOf m) <-> sortedChapters m.
Proof.
  unfold sortedChapters, framesOf, mapValues. rewrite Forall_fmap.
  apply Forall_iff. intros [k l]. unfold compose. simpl. by rewrite StronglySorted_fmap_iff.
Qed.

Lemma nonempty_framesOf m :
  Forall (fun e => e.2 <> []) (framesOf m) <-> Forall (fun e => e.2 <> []) m.
Proof.
  unfold framesOf, mapValues. rewrite Forall_fmap.
  apply Forall_iff. intros [k l]. unfold compose. simpl. by destruct l.
Qed.

Lemma storyWellFormed_framesOf m :
  storyWellFormed m
  <-> storyWellFormed (framesOf m)
      /\ Forall (fun c => Js.truthy (c_id c) = true) (allComments m).
Proof.
  unfold storyWellFormed.
  rewrite wellKeyed_framesOf, sortedChapters_framesOf, nonempty_framesOf.
  unfold framesOf at 1. rewrite keys_mapValues.
  unfold framesOf. rewrite allSentences_mapValues_fmap, Forall_fmap.
  assert (Forall importedItem (allSentences m)
          <-> Forall (importedItem ∘ frameOf) (allSentences m)
              /\ Forall (fun c => Js.truthy (c_id c) = true) (allComments m)) as ->; [|tauto].
  rewrite !Forall_forall. split.
  - intros H. split.
    + intros s Hs. destruct (H s Hs) as (? & ? & ?). by repeat split.
    + intros c (s & Hs & Hc)%elem_of_allComments.
      destruct (H s Hs) as (_ & _ & Hcs). rewrite Forall_forall in Hcs. by apply Hcs.
  - intros [H1 H2] s Hs. destruct (H1 s Hs) as (? & ? & _).
    repeat split; [done..|]. apply Forall_forall. intros c Hc.
    apply H2, elem_of_allComments. eauto.
Qed.

Lemma perSentence_Forall (P : CommentObject -> Prop)
    (R : list CommentObject -> list CommentObject -> Prop) m m' :
  (forall cs cs', R cs cs' -> Forall P cs -> Forall P cs') ->
  perSentence R m m' ->
  Forall P (allComments m) -> Forall P (allComments m').
Proof.
  intros HR Hp. rewrite !allComments_eq. unfold perSentence in Hp.
  induction Hp as [|s s' l l' [_ Hr] _ IH]; [done|].
  rewrite !commentsOf_cons, !Forall_app. intros [H1 H2]. split; [by eapply HR|by apply IH].
Qed.

Lemma mutation_keeps_wellFormed st mu :
  stateWellFormed st -> stateWellFormed (runMutation st mu).
Proof.
  unfold stateWellFormed. destruct (storyData st) as [story|] eqn:Hs.
  2:{ intros _. destruct mu; simpl.
      - unfold handleSaveOrUpdateComment. rewrite Hs. by rewrite Hs.
      - unfold handleDeleteComment. rewrite Hs. by rewrite Hs. }
  intros [Hwf Hids]%storyWellFormed_framesOf.
  assert (exists m', storyData (runMutation st mu) = Some (mkStory (title story) m')
            /\ framesOf m' = framesOf (chapters story)
            /\ Forall (fun c => Js.truthy (c_id c) = true) (allComments m'))
    as (m' & -> & Hf & Hids').
  { destruct mu as [env text [detail|]|sid cid]; simpl.
    - destruct (save_edit_effect env st text detail story Hs) as (m' & ? & ? & Hp).
      exists m'. split; [done|]. split; [done|].
      revert Hids. eapply perSentence_Forall, Hp.
      intros cs cs' Hcs. induction Hcs as [|c c' cs cs' [->| ->] _ IH];
        [done|intros [??]%Forall_cons; constructor; auto..].
    - destruct (save_new_effect env st text story Hs) as (m' & ? & ? & Hp).
      exists m'. split; [done|]. split; [done|].
      revert Hids. eapply perSentence_Forall, Hp.
      intros cs cs' (new & -> & Hnew) Hcs. apply Forall_app. split; [done|].
      eapply Forall_impl; [exact Hnew|]. intros c (_ & _ & tick & ->).
      apply generateUniqueId_truthy.
    - destruct (delete_effect st sid cid story Hs) as (m' & ? & ? & Hp).
      exists m'. split; [done|]. split; [done|].
      revert Hids. eapply perSentence_Forall, Hp.
      intros cs cs' Hsub Hcs. rewrite Forall_forall in Hcs. apply Forall_forall.
      intros c Hc. by eapply Hcs, elem_of_sublist. }
  simpl. apply storyWellFormed_framesOf. by rewrite Hf.
Qed.

(** ** Rendering sorts the comments of the state *)

Lemma byTimestampDesc_total a b :
  Js.le byTimestampDesc a b \/ Js.le byTimestampDesc b a.
Proof. unfold Js.le, byTimestampDesc. lia. Qed.

Lemma byTimestampDesc_trans a b c :
  Js.le byTimestampDesc a b -> Js.le byTimestampDesc b c -> Js.le byTimestampDesc a c.
Proof. unfold Js.le, byTimestampDesc. lia. Qed.

Lemma getCommentSummary_sorted cs : (getCommentSummary cs).2 = Js.sort byTimestampDesc cs.
Proof.
  destruct cs as [|c cs]; [done|]. unfold getCommentSummary.
  by destruct (head (Js.sort byTimestampDesc (c :: cs))).
Qed.

Lemma renderSentence_eq s :
  renderSentence s = withComments s (Js.sort byTimestampDesc (a_comments s)).
Proof.
  unfold renderSentence. destruct (a_comments s) as [|c cs] eqn:Hcs.
  - destruct s. simpl in *. by subst.
  - by rewrite getCommentSummary_sorted.
Qed.

Lemma latestComment_renderSentence s : latestComment (renderSentence s) = latestComment s.
Proof.
  rewrite renderSentence_eq. unfold latestComment. simpl.
  by rewrite (sort_idempotent byTimestampDesc byTimestampDesc_total byTimestampDesc_trans).
Qed.

Lemma renderSentence_idempotent s : renderSentence (renderSentence s) = renderSentence s.
Proof.
  rewrite !renderSentence_eq. simpl.
  by rewrite (sort_idempotent byTimestampDesc byTimestampDesc_total byTimestampDesc_trans).
Qed.

Lemma simpleExportItem_renderSentence s :
  simpleExportItem (renderSentence s) = simpleExportItem s.
Proof.
  unfold simpleExportItem, exportedComment, exportedAppliesTo.
  rewrite latestComment_renderSentence. by rewrite renderSentence_eq.
Qed.

Lemma mapValues_fmap_compose (f g : AnalysisItem -> AnalysisItem) (m : ChaptersMap) :
  mapValues (fmap f) (mapValues (fmap g) m) = mapValues (fmap (f ∘ g)) m.
Proof.
  unfold mapValues. rewrite <- list_fmap_compose. apply list_fmap_ext.
  intros _ [k l] _. simpl. unfold prod_map. simpl. by rewrite <- list_fmap_compose.
Qed.

(** Rendering the story sorts, in the state itself, the comments of every
    sentence by descending timestamp.  With a title and a chapter to show,
    the story after rendering has the same title and sentences; the comments
    of each sentence are the same comments, latest first; rendering again
    changes nothing more; the simple export and the two legacy fields of
    every sentence are what they were; and group consistency holds after
    exactly when it held before. *)
Theorem render_sorts_comments story :
  Js.truthy (title story) = true ->
  chapters story <> [] ->
  let story' := renderStory story in
  title story' = title story
  /\ framesOf (chapters story') = framesOf (chapters story)
  /\ perSentence reordered (chapters story) (chapters story')
  /\ renderStory story' = story'
  /\ simpleExport story' = simpleExport story
  /\ Forall2 (fun s s' => exportedComment s' = exportedComment s
                          /\ exportedAppliesTo s' = exportedAppliesTo s)
       (allSentences (chapters story)) (allSentences (chapters story'))
  /\ (groupConsistent (chapters story') <-> groupConsistent (chapters story)).
Proof.
  intros Ht Hne. cbv zeta.
  assert (renderStory story
          = mkStory (title story) (mapValues (fmap renderSentence) (chapters story))) as Hr.
  { unfold renderStory. rewrite Ht. by rewrite bool_decide_eq_false_2. }
  rewrite Hr. cbn [title chapters].
  split; [done|]. split.
  { apply framesOf_mapValues_fmap. intros s. by rewrite renderSentence_eq. }
  split.
  { apply perSentence_mapValues. intros s. rewrite renderSentence_eq. split; [done|].
    split; [apply sort_Permutation|]. simpl.
    eapply StronglySorted_weaken;
      [|apply (sort_StronglySorted byTimestampDesc byTimestampDesc_total
                 byTimestampDesc_trans)].
    intros a b. unfold Js.le, byTimestampDesc. lia. }
  split.
  { unfold renderStory. cbn [title chapters]. rewrite Ht.
    rewrite bool_decide_eq_false_2.
    - simpl. f_equal. rewrite mapValues_fmap_compose. unfold mapValues.
      apply list_fmap_ext. intros _ [k l] _. unfold prod_map. simpl. f_equal.
      apply list_fmap_ext. intros _ s _. apply renderSentence_idempotent.
    - destruct (chapters story); [done|]. discriminate. }
  split.
  { unfold simpleExport. cbn [chapters]. f_equal.
    rewrite allSentences_mapValues_fmap, <- list_fmap_compose.
    apply list_fmap_ext. intros _ s _. apply simpleExportItem_renderSentence. }
  split.
  { rewrite allSentences_mapValues_fmap.
    apply Forall2_fmap_r, Forall_Forall2_diag, Forall_forall. intros s _.
    unfold compose, exportedComment, exportedAppliesTo.
    by rewrite latestComment_renderSentence. }
  assert (forall c, c ∈ allComments (mapValues (fmap renderSentence) (chapters story))
                    <-> c ∈ allComments (chapters story)) as Hin.
  { intros c. rewrite !elem_of_allComments, allSentences_mapValues_fmap. split.
    - intros (s' & (s & -> & Hs)%list_elem_of_fmap & Hc).
      rewrite renderSentence_eq in Hc. simpl in Hc. rewrite sort_Permutation in Hc. eauto.
    - intros (s & Hs & Hc). exists (renderSentence s).
      split; [by apply list_elem_of_fmap_2|].
      rewrite renderSentence_eq. simpl. by rewrite sort_Permutation. }
  unfold groupConsistent. split; intros H c1 c2 G H1 H2; apply H; by apply Hin.
Qed.

Lemma render_sorts_comments_witness :
  renderStory (renderStory linkedStory) = renderStory linkedStory
  /\ simpleExport (renderStory linkedStory) = simpleExport linkedStory.
Proof.
  assert (chapters linkedStory <> []) as Hne by discriminate.
  destruct (render_sorts_comments linkedStory eq_refl Hne) as (_ & _ & _ & H4 & H5 & _).
  split; [exact H4|exact H5].
Defined.

(** ** The state between two handler calls *)

Lemma NoDup_toggleSelection id (l : list string) : NoDup l -> NoDup (toggleSelection id l).
Proof.
  intros Hl. unfold toggleSelection. case_bool_decide as Hin.
  - by apply NoDup_filter.
  - apply NoDup_app. split; [done|]. split; [|apply NoDup_singleton].
    intros x Hx ->%list_elem_of_singleton. done.
Qed.

Lemma elem_of_toggleSelection id (l : list string) x :
  x ∈ toggleSelection id l <-> (x <> id /\ x ∈ l) \/ (x = id /\ id ∉ l).
Proof.
  unfold toggleSelection. case_bool_decide as Hin.
  - rewrite list_elem_of_filter. split; [intros [??]; by left|].
    intros [[??]|[-> ?]]; done.
  - rewrite elem_of_app, list_elem_of_singleton. split.
    + intros [Hx| ->]; [left; split; [intros ->|]; done|by right].
    + intros [[??]|[-> ?]]; [by left|by right].
Qed.

Lemma appInvariant_empty : appInvariant emptyState.
Proof.
  repeat split; simpl; try done; try apply NoDup_nil_2; try by intros [? ?].
Qed.

Lemma appInvariant_handleProcessingError st e :
  appInvariant st -> appInvariant (handleProcessingError st e).
Proof.
  intros (_ & _ & _ & Hn & Hm & Hl). unfold handleProcessingError, appInvariant, stateWellFormed.
  simpl. repeat split; done.
Qed.

Lemma appInvariant_importStory env st d :
  appInvariant st -> appInvariant (importStory env st d).
Proof.
  intros Hinv. pose proof (imported_wellFormed env st d) as Hwf.
  unfold importStory, processFile in *.
  destruct (analysisFalsy _ || titleFalsy _)%bool;
    [by apply appInvariant_handleProcessingError|].
  destruct (negb (isArray _)); [by apply appInvariant_handleProcessingError|].
  unfold handleFileLoad in *. destruct (loadStory env d) as [e|[story complete]]; simpl in *.
  - unfold appInvariant, stateWellFormed. simpl.
    repeat split; try done; apply NoDup_nil_2.
  - unfold appInvariant, stateWellFormed. simpl.
    split; [by apply Hwf|].
    repeat split; try done; try apply NoDup_nil_2; try by intros [? ?].
Qed.

Lemma appInvariant_processFile env st file :
  appInvariant st -> appInvariant (processFile env st file).
Proof.
  intros Hinv. destruct file; try by apply appInvariant_handleProcessingError.
  by apply appInvariant_importStory.
Qed.

Lemma mutation_story_None st mu :
  storyData (runMutation st mu) = None <-> storyData st = None.
Proof.
  destruct (storyData st) as [story|] eqn:Hs.
  - split; [|done]. intros Hn.
    destruct mu as [env text [detail|]|sid cid]; simpl in Hn.
    + destruct (save_edit_effect env st text detail story Hs) as (m' & ? & _). congruence.
    + destruct (save_new_effect env st text story Hs) as (m' & ? & _). congruence.
    + destruct (delete_effect st sid cid story Hs) as (m' & ? & _). congruence.
  - split; [done|]. intros _. destruct mu; simpl.
    + unfold handleSaveOrUpdateComment. by rewrite Hs.
    + unfold handleDeleteComment. by rewrite Hs.
Qed.

Lemma appInvariant_runMutation st mu :
  appInvariant st -> appInvariant (runMutation st mu).
Proof.
  intros (Hwf & Ho & He & Hn & Hm & Hl).
  destruct (mutation_fields st mu) as (Eo & Ee & El & Em & Eb).
  split; [by apply mutation_keeps_wellFormed|].
  rewrite Eo, Ee, El, Em, mutation_story_None.
  split; [done|]. split; [done|].
  destruct Eb as [-> | ->]; [done|]. split; [apply NoDup_nil_2|done].
Qed.

Lemma renderStory_wellFormed story :
  storyWellFormed (chapters story) -> storyWellFormed (chapters (renderStory story)).
Proof.
  unfold renderStory.
  destruct (negb (Js.truthy (title story)) || bool_decide (chapters story = []))%bool;
    [done|].
  cbn [chapters]. intros [Hwf Hids]%storyWellFormed_framesOf.
  apply storyWellFormed_framesOf. split.
  - rewrite framesOf_mapValues_fmap; [done|]. intros s. by rewrite renderSentence_eq.
  - revert Hids. apply (perSentence_Forall _ (fun cs cs' => cs' ≡ₚ cs)).
    + intros cs cs' Hp Hcs. by rewrite Hp.
    + apply perSentence_mapValues. intros s. rewrite renderSentence_eq.
      split; [done|]. apply sort_Permutation.
Qed.

Lemma appInvariant_afterRender shared st :
  appInvariant st -> appInvariant (afterRender shared st).
Proof.
  intros Hinv. pose proof Hinv as (Hwf & Ho & He & Hn & Hm & Hl).
  unfold afterRender. destruct (storyShown st); [|exact Hinv].
  unfold appInvariant, stateWellFormed in *. simpl.
  destruct (storyData st) as [story|] eqn:Hs; simpl.
  - split; [by apply renderStory_wellFormed|].
    destruct Ho as [Ho1 Ho2]. repeat split; try done.
    + intros Hnone. by specialize (Ho2 Hnone).
    + intros Hsome. by specialize (He Hsome).
  - tauto.
Qed.

Lemma act_keeps_invariant st a : appInvariant st -> appInvariant (act st a).
Proof.
  intros Hinv.
  destruct a as [shared|env file|env isJson file|item| | |mode| |mu|isSimple]; simpl.
  - by apply appInvariant_afterRender.
  - by apply appInvariant_processFile.
  - unfold handleDrop. destruct isJson;
      [by apply appInvariant_processFile|by apply appInvariant_handleProcessingError].
  - destruct Hinv as (Hwf & Ho & He & Hn & Hm & Hl).
    unfold handleSelectSentence, appInvariant, stateWellFormed.
    destruct (editMode st) eqn:Hmode; simpl; rewrite ?Hmode;
      repeat split; try done; try tauto; by apply NoDup_toggleSelection.
  - pose proof Hinv as (Hwf & Ho & He & Hn & Hm & Hl).
    unfold handleOpenModalForBulkAnnotate.
    destruct (bulkSelectedSentenceIds st) eqn:Hb; [exact Hinv|].
    destruct (editMode st) eqn:Hmode; [exact Hinv|..];
      unfold appInvariant, stateWellFormed; simpl; rewrite ?Hmode, ?Hb;
      repeat split; try done; tauto.
  - destruct Hinv as (Hwf & Ho & He & Hn & Hm & Hl).
    unfold handleCloseModal, appInvariant, stateWellFormed; simpl.
    repeat split; try done; tauto.
  - destruct Hinv as (Hwf & Ho & He & Hn & Hm & Hl).
    unfold chooseEditMode, appInvariant, stateWellFormed; simpl.
    destruct mode, (editMode st) eqn:Hmode;
      repeat split; try done; try tauto; try apply NoDup_nil_2.
  - destruct Hinv as (Hwf & Ho & He & Hn & Hm & Hl).
    unfold dismissError, appInvariant, stateWellFormed; simpl.
    repeat split; try done; try tauto; try by intros [? ?].
  - by apply appInvariant_runMutation.
  - pose proof Hinv as (Hwf & Ho & He & Hn & Hm & Hl).
    unfold commonExportLogic.
    destruct (storyData st) as [story|] eqn:Hs.
    + destruct (originalCompleteStory st) as [original|] eqn:Horig; simpl.
      * exact Hinv.
      * destruct Ho as [_ Ho]. by specialize (Ho eq_refl).
    + simpl. unfold appInvariant, stateWellFormed. simpl.
      repeat split; try done; tauto.
Qed.

Lemma run_snoc actions a : run (actions ++ [a]) = act (run actions) a.
Proof. unfold run. by rewrite foldl_snoc. Qed.

Lemma run_invariant actions : appInvariant (run actions).
Proof.
  induction actions as [|a actions IH] using rev_ind; [apply appInvariant_empty|].
  rewrite run_snoc. by apply act_keeps_invariant.
Qed.

(** Whatever the user does and whenever the page renders, starting from
    the initial state and with plain documents for files, the state is well
    formed: a loaded story has distinct chapter numbers, no empty chapter,
    every chapter in ascending order of sentence number and holding only its
    own sentences, every sentence id made of its two numbers, and no comment
    without an id; the story and the retained complete-story block are
    present or absent together; an error banner is only shown without a
    story; the bulk selection has no duplicate and is empty in single
    mode. *)
Theorem app_invariant actions : plainSession actions -> appInvariant (run actions).
Proof. intros _. apply run_invariant. Qed.

Lemma app_invariant_witness :
  appInvariant
    (run [FileChosen demoEnv (FileJson mixedDocument); Rendered false;
          SentenceClicked (demoSentence 1 1 []); Rendered true;
          Mutated (SaveOrUpdate demoEnv "note" None); Rendered true]).
Proof.
  apply app_invariant. repeat constructor. exact mixedDocument_plain.
Defined.

(** In the mass and group modes a click on a sentence toggles its id in
    the bulk selection and nothing else: the id leaves the selection when it
    was in it, and enters it otherwise; every other id stays; the selection
    keeps having no duplicate; a second click on the same sentence restores
    the selection, up to the order of its ids; the story and the modal are
    not touched and no sentence is selected for the modal. *)
Theorem bulk_selection_toggle st item :
  editMode st <> mode_single ->
  NoDup (bulkSelectedSentenceIds st) ->
  let st' := handleSelectSentence st item in
  (forall id, id ∈ bulkSelectedSentenceIds st'
              <-> (id <> a_id item /\ id ∈ bulkSelectedSentenceIds st)
                  \/ (id = a_id item /\ a_id item ∉ bulkSelectedSentenceIds st))
  /\ NoDup (bulkSelectedSentenceIds st')
  /\ bulkSelectedSentenceIds (handleSelectSentence st' item) ≡ₚ bulkSelectedSentenceIds st
  /\ storyData st' = storyData st
  /\ selectedAnalysisItem st' = None
  /\ isModalOpen st' = isModalOpen st.
Proof.
  intros Hmode Hn.
  assert (handleSelectSentence st item
          = mkState (storyData st) (originalCompleteStory st) None (isModalOpen st) (error st)
              (isLoading st) (editMode st)
              (toggleSelection (a_id item) (bulkSelectedSentenceIds st))) as ->.
  { unfold handleSelectSentence. by destruct (editMode st). }
  simpl. split; [intros id; apply elem_of_toggleSelection|].
  split; [by apply NoDup_toggleSelection|].
  split; [|done].
  unfold handleSelectSentence. destruct (editMode st); [done|simpl..].
  all: apply NoDup_Permutation; [by do 2 apply NoDup_toggleSelection|done|].
  all: intros x; rewrite !elem_of_toggleSelection.
  all: destruct (decide (x = a_id item)) as [->|];
    destruct (decide (a_id item ∈ bulkSelectedSentenceIds st)); tauto.
Qed.

Lemma bulk_selection_toggle_witness :
  bulkSelectedSentenceIds
    (handleSelectSentence
       (handleSelectSentence (stateOf linkedStory mode_group None ["ch1-s1"; "ch1-s2"])
          (demoSentence 1 1 [])) (demoSentence 1 1 []))
  ≡ₚ ["ch1-s1"; "ch1-s2"].
Proof.
  refine (proj1 (proj2 (proj2
    (bulk_selection_toggle (stateOf linkedStory mode_group None ["ch1-s1"; "ch1-s2"])
       (demoSentence 1 1 []) _ _)))).
  - discriminate.
  - apply (bool_decide_unpack _). vm_compute. exact I.
Defined.

Lemma byChapterNumber_total a b :
  Js.le byChapterNumber a b \/ Js.le byChapterNumber b a.
Proof. unfold Js.le, byChapterNumber. lia. Qed.

Lemma byChapterNumber_trans a b c :
  Js.le byChapterNumber a b -> Js.le byChapterNumber b c -> Js.le byChapterNumber a c.
Proof. unfold Js.le, byChapterNumber. lia. Qed.

Lemma StronglySorted_strict {A} (f : A -> Z) l :
  StronglySorted (fun a b => f a <= f b) l -> NoDup (f <$> l) ->
  StronglySorted (fun a b => f a < f b) l.
Proof.
  induction 1 as [|x l Hs IH Hx]; [constructor|].
  rewrite fmap_cons. intros [Hnx Hnl]%NoDup_cons. constructor; [by apply IH|].
  rewrite Forall_forall in Hx. apply Forall_forall. intros y Hy.
  specialize (Hx y Hy). assert (f x <> f y); [|lia].
  intros Heq. apply Hnx. rewrite Heq. by apply list_elem_of_fmap_2.
Qed.

(** Whatever the user did and however often the page rendered before,
    with plain documents for files, the page lists the chapters of the
    loaded story in strictly ascending order of chapter number, each exactly
    once, none of them empty, each with its sentences in ascending order of
    sentence number and with sentences of that chapter only. *)
Theorem display_is_ordered actions story :
  plainSession actions ->
  storyData (run actions) = Some story ->
  let shown := displayChapters (run actions) in
  shown ≡ₚ chapters story
  /\ StronglySorted (fun a b => a.1 < b.1) shown
  /\ Forall (fun e =>
       e.2 <> []
       /\ StronglySorted (fun a b => a_SentenceNumber a <= a_SentenceNumber b) e.2
       /\ Forall (fun s => a_ChapterNumber s = e.1) e.2) shown.
Proof.
  intros _ Hs. destruct (run_invariant actions) as (Hwf & _).
  unfold stateWellFormed in Hwf. rewrite Hs in Hwf.
  destruct Hwf as (Hn & Hk & Hsorted & Hne & _).
  unfold displayChapters. rewrite Hs. simpl.
  pose proof (sort_Permutation byChapterNumber (chapters story)) as Hp.
  split; [done|]. split.
  - apply (StronglySorted_strict fst).
    + eapply StronglySorted_weaken;
        [|apply (sort_StronglySorted byChapterNumber byChapterNumber_total
                   byChapterNumber_trans)].
      intros a b. unfold Js.le, byChapterNumber. lia.
    + by rewrite Hp.
  - rewrite Hp. unfold wellKeyed, sortedChapters in *.
    rewrite Forall_forall in Hk, Hsorted, Hne. apply Forall_forall. intros e He.
    split; [by apply Hne|]. split; [by apply Hsorted|by apply Hk].
Qed.

Lemma display_is_ordered_witness :
  exists story,
    storyData (run [FileChosen demoEnv (FileJson mixedDocument); Rendered false])
    = Some story
    /\ displayChapters (run [FileChosen demoEnv (FileJson mixedDocument); Rendered false])
       ≡ₚ chapters story.
Proof.
  assert (exists story,
            storyData (run [FileChosen demoEnv (FileJson mixedDocument); Rendered false])
            = Some story)
    as [story Hs].
  { eexists. vm_compute. reflexivity. }
  exists story. split; [exact Hs|].
  refine (proj1 (display_is_ordered
                   [FileChosen demoEnv (FileJson mixedDocument); Rendered false] story
                   _ Hs)).
  repeat constructor. exact mixedDocument_plain.
Defined.

(** ** Additions: what they add, and how they compose with deletion *)

Lemma addBulkComment_mass_eq env story ids text :
  Js.truthy (Js.trim text) = true ->
  addBulkComment env story ids text mass
  = mkStory (title story)
      (addBulkLoop env mode_mass (Js.trim text) (clock env 0) None None ids 1
         (chapters story)).
Proof.
  intros Ht. unfold addBulkComment, storyOf, handleSaveOrUpdateComment, stateOf. simpl.
  rewrite Ht. simpl. by destruct ids.
Qed.

(** For a set of sentence ids the container has and a non-blank text,
    adding in mass mode keeps every chapter and sentence in place, appends
    to the first sentence with each selected id one comment of kind single
    with the trimmed text and the one timestamp, without group id or
    sentence-number list, and changes no other sentence and no other
    comment; the number of comments grows by the number of selected ids. *)
Theorem mass_add_postcondition env story ids newText :
  NoDup ids ->
  (forall id, id ∈ ids -> exists s, s ∈ allSentences (chapters story) /\ a_id s = id) ->
  Js.truthy (Js.trim newText) = true ->
  let m := chapters story in
  let story' := addBulkComment env story ids newText mass in
  let newComment cid := mkComment cid (Js.trim newText) single (clock env 0) None None in
  title story' = title story
  /\ sameShape m (chapters story')
  /\ length (allComments (chapters story')) = (length (allComments m) + length ids)%nat
  /\ (forall i s, allSentences m !! i = Some s ->
        (a_id s ∈ ids ->
         Js.findIndex (sentence_id_is (a_id s)) (allSentences m) = Some i ->
         exists cid, allSentences (chapters story') !! i
                     = Some (appendComment (newComment cid) s))
        /\ (~ (a_id s ∈ ids
               /\ Js.findIndex (sentence_id_is (a_id s)) (allSentences m) = Some i) ->
            allSentences (chapters story') !! i = Some s)).
Proof.
  intros Hnd Hex Ht. cbv zeta. rewrite (addBulkComment_mass_eq _ _ _ _ Ht).
  cbn [title chapters].
  destruct (addBulkLoop_spec env mode_mass (Js.trim newText) (clock env 0) None None
              ids 1%nat (chapters story) Hnd Hex) as (Hsh & Hlen & Hall).
  split; [done|]. split; [done|]. split; [done|]. exact Hall.
Qed.

Lemma mass_add_postcondition_witness :
  let story :=
    mkStory "Tale" [(1, [demoSentence 1 1 []; demoSentence 1 2 []; demoSentence 1 3 []])] in
  length (allComments (chapters (addBulkComment demoEnv story ["ch1-s3"; "ch1-s1"]
                                   " tighten pacing " mass))) = 2%nat.
Proof.
  simpl.
  refine (proj1 (proj2 (proj2
    (mass_add_postcondition demoEnv
       (mkStory "Tale" [(1, [demoSentence 1 1 []; demoSentence 1 2 []; demoSentence 1 3 []])])
       ["ch1-s3"; "ch1-s1"] " tighten pacing " _ _ eq_refl)))).
  - apply (bool_decide_unpack _). vm_compute. exact I.
  - intros id Hid. apply elem_of_cons in Hid as [->|Hid].
    + eexists. split; [apply list_elem_of_further, list_elem_of_further, list_elem_of_here|].
      reflexivity.
    + apply list_elem_of_singleton in Hid as ->.
      eexists. split; [apply list_elem_of_here|]. reflexivity.
Defined.

Lemma addBulkLoop_unknown env mode text now gid nums ids tick m :
  Forall (fun id => forall s, s ∈ allSentences m -> a_id s <> id) ids ->
  addBulkLoop env mode text now gid nums ids tick m = m.
Proof.
  induction 1 as [|id ids Hid _ IH]; simpl; [done|].
  assert (updateFirst (sentence_id_is id)
            (appendComment (bulkComment mode (generateUniqueId env tick) text now gid nums)) m
          = None) as ->; [|done].
  apply updateFirst_None, Forall_forall. intros s Hs.
  destruct (sentence_id_is id s) eqn:Hp; [|done].
  apply sentence_id_is_true in Hp. by destruct (Hid s Hs).
Qed.

(** A bulk addition returns the story it was given when the text is blank
    or when no selected id is the id of a sentence -- in particular when
    nothing is selected -- in the mass mode and in the group mode alike. *)
Theorem bulk_add_without_effect env story ids text kind :
  Js.truthy (Js.trim text) = false
  \/ Forall (fun id => forall s, s ∈ allSentences (chapters story) -> a_id s <> id) ids ->
  addBulkComment env story ids text kind = story.
Proof.
  intros H. unfold addBulkComment, storyOf, handleSaveOrUpdateComment, stateOf. simpl.
  destruct (Js.truthy (Js.trim text)) eqn:Ht; simpl; [|done].
  destruct H as [?|Hids]; [done|].
  destruct kind, ids as [|id ids]; simpl; rewrite ?mkStory_eta; try done.
  - unfold addBulk. rewrite (addBulkLoop_unknown _ _ _ _ _ _ (id :: ids)) by done.
    apply mkStory_eta.
  - unfold addBulk. rewrite (addBulkLoop_unknown _ _ _ _ _ _ (id :: ids)) by done.
    apply mkStory_eta.
Qed.

Lemma bulk_add_without_effect_witness :
  addBulkComment demoEnv linkedStory ["ch9-s9"] "note" grouped = linkedStory.
Proof.
  apply bulk_add_without_effect. right.
  constructor; [|constructor]. apply Forall_forall.
  apply (bool_decide_unpack _). vm_compute. exact I.
Defined.

Lemma groupId_isnt_true G c : groupId_isnt G c = true <-> c_groupId c <> Some G.
Proof. unfold groupId_isnt. rewrite negb_true_iff. apply groupId_is_false. Qed.

Lemma deleteGroup_fresh G m : freshGroupId m G -> deleteGroup G m = m.
Proof.
  intros Hfresh. unfold deleteGroup. apply mapValues_fmap_id_on, Forall_forall.
  intros s Hs. rewrite filter_all; [apply withComments_same|].
  apply Forall_forall. intros c Hc. apply Is_true_true, groupId_isnt_true.
  apply Hfresh, elem_of_allComments. eauto.
Qed.

Lemma deleteGroup_app G (m1 m2 : ChaptersMap) :
  deleteGroup G (m1 ++ m2) = deleteGroup G m1 ++ deleteGroup G m2.
Proof. unfold deleteGroup, mapValues. apply fmap_app. Qed.

Lemma deleteGroup_appended G c m m' p :
  c_groupId c = Some G ->
  updateFirst p (appendComment c) m = Some m' -> deleteGroup G m' = deleteGroup G m.
Proof.
  intros Hc (pre & k & l1 & s & l2 & post & -> & -> & _)%updateFirst_Some.
  rewrite !deleteGroup_app. f_equal.
  unfold deleteGroup, mapValues. rewrite !fmap_cons. f_equal. simpl. f_equal.
  rewrite !fmap_app, !fmap_cons. f_equal. f_equal.
  unfold appendComment, withComments. simpl. f_equal.
  rewrite filter_app. rewrite (filter_none _ [c]); [by rewrite app_nil_r|].
  constructor; [|constructor]. intros Hp. apply Is_true_true, groupId_isnt_true in Hp. done.
Qed.

Lemma deleteGroup_addBulkLoop env text now G nums ids tick m :
  deleteGroup G (addBulkLoop env mode_group text now (Some G) nums ids tick m)
  = deleteGroup G m.
Proof.
  revert tick m. induction ids as [|id ids IH]; intros tick m; simpl; [done|].
  destruct (updateFirst _ _ m) as [m'|] eqn:Hup; rewrite IH; [|done].
  eapply deleteGroup_appended; [|exact Hup]. done.
Qed.

Lemma addBulkLoop_comments env mode text now gid nums ids tick m c :
  c ∈ allComments (addBulkLoop env mode text now gid nums ids tick m) ->
  c ∈ allComments m
  \/ exists t, c = bulkComment mode (generateUniqueId env t) text now gid nums.
Proof.
  revert tick m. induction ids as [|id ids IH]; intros tick m; simpl; [by left|].
  destruct (updateFirst _ _ m) as [m'|] eqn:Hup; [|apply IH].
  intros [Hc|Hc]%IH; [|by right].
  apply updateFirst_replacedOne in Hup as (s & _ & Hrep).
  pose proof Hrep as (l1 & l2 & Hm & _).
  destruct (replacedOne_comments _ _ _ _ _ Hrep Hc) as [Hin|Hin]; [|by left].
  simpl in Hin. apply elem_of_app in Hin as [Hin| ->%list_elem_of_singleton]; [|by right; eauto].
  left. apply elem_of_allComments. exists s. split; [|done].
  rewrite Hm. apply elem_of_app. right. left.
Qed.

(** A group addition is undone by deleting any one of the comments it
    made: when the generated group id was not in use before, deleting a
    comment that carries it gives back the story as it was before the
    addition, whatever was selected. *)
Theorem group_add_then_delete_restores env story ids text sid cid d :
  Js.truthy (Js.trim text) = true ->
  freshGroupId (chapters story) (generateUniqueId env 1) ->
  let story' := addBulkComment env story ids text grouped in
  commentToDeleteDetails sid cid (chapters story') = Some d ->
  c_groupId d = Some (generateUniqueId env 1) ->
  deleteComment story' sid cid = story.
Proof.
  intros Ht Hfresh. cbv zeta. rewrite (addBulkComment_grouped_eq _ _ _ _ Ht).
  cbn [chapters]. intros Hd Hg. rewrite deleteComment_eq. cbn [title chapters].
  unfold deleteChapters. rewrite Hd.
  assert (c_type d = group) as ->.
  { apply commentToDeleteDetails_Some in Hd as (s & Hs & _ & Hin & _).
    assert (d ∈ allComments
                  (addBulkLoop env mode_group (Js.trim text) (clock env 0)
                     (Some (generateUniqueId env 1))
                     (Some (sentenceNumbersForGroup ids (chapters story))) ids 2
                     (chapters story))) as Hall.
    { apply elem_of_allComments. eauto. }
    apply addBulkLoop_comments in Hall as [Hold|[t ->]]; [|done].
    by destruct (Hfresh d Hold). }
  rewrite Hg, generateUniqueId_truthy, deleteGroup_addBulkLoop, deleteGroup_fresh by done.
  apply mkStory_eta.
Qed.

Lemma group_add_then_delete_restores_witness :
  deleteComment (addBulkComment demoEnv linkedStory ["ch1-s2"; "ch1-s1"] "note" grouped)
    "ch1-s1" "id-1003-3"
  = linkedStory.
Proof.
  eapply (group_add_then_delete_restores demoEnv linkedStory ["ch1-s2"; "ch1-s1"] "note").
  - reflexivity.
  - intros c Hc. revert c Hc. apply Forall_forall.
    apply (bool_decide_unpack _). vm_compute. exact I.
  - vm_compute. reflexivity.
  - reflexivity.
Defined.

Lemma updateFirst_at p f (pre : ChaptersMap) k l1 s l2 post :
  Forall (fun x => p x = false) (allSentences pre) ->
  Forall (fun x => p x = false) l1 ->
  p s = true ->
  updateFirst p f (pre ++ (k, l1 ++ s :: l2) :: post)
  = Some (pre ++ (k, l1 ++ f s :: l2) :: post).
Proof.
  intros Hpre Hl1 Hs. induction pre as [|[k0 ss0] pre IH]; simpl.
  - rewrite findIndex_app_false by done. simpl. rewrite Hs. simpl.
    by rewrite Nat.add_0_r, alter_middle.
  - rewrite allSentences_cons in Hpre. apply Forall_app in Hpre as [H0 Hpre].
    apply findIndex_None in H0. rewrite H0. by rewrite IH.
Qed.

Lemma NoDup_ids_split (l1 l2 : list AnalysisItem) s :
  NoDup (a_id <$> (l1 ++ s :: l2)) ->
  Forall (fun x => sentence_id_is (a_id s) x = false) l1.
Proof.
  rewrite fmap_app, fmap_cons. intros (_ & Hdisj & _)%NoDup_app.
  apply Forall_forall. intros x Hx.
  destruct (sentence_id_is (a_id s) x) eqn:Hp; [|done].
  apply sentence_id_is_true in Hp. destruct (Hdisj (a_id x)).
  - by apply list_elem_of_fmap_2.
  - rewrite Hp. left.
Qed.

(** A single addition is undone by deleting the comment it made: with
    distinct sentence ids and a generated comment id that was not in use,
    adding a comment to the selected sentence and then deleting the comment
    with the generated id from that sentence gives back the story as it was;
    this also holds when the selection is stale and nothing was added. *)
Theorem single_add_then_delete_restores env story selected text :
  Js.truthy (Js.trim text) = true ->
  NoDup (a_id <$> allSentences (chapters story)) ->
  (forall c, c ∈ allComments (chapters story) -> c_id c <> generateUniqueId env 1) ->
  deleteComment (addSingleComment env story selected text) (a_id selected)
    (generateUniqueId env 1)
  = story.
Proof.
  intros Ht Hnd Hfresh.
  set (cid := generateUniqueId env 1) in *.
  set (c := mkComment cid (Js.trim text) single (clock env 0) None None).
  assert (forall s x, s ∈ allSentences (chapters story) -> x ∈ a_comments s ->
                      id_is cid x = false) as Hno.
  { intros s x Hs Hx. destruct (id_is cid x) eqn:Hp; [|done].
    apply id_is_true in Hp. destruct (Hfresh x); [|done].
    apply elem_of_allComments. eauto. }
  assert (deleteComment story (a_id selected) cid = story) as Hstale.
  { rewrite deleteComment_eq. unfold deleteChapters.
    assert (forall s x, s ∈ allSentences (chapters story) -> a_id s = a_id selected ->
                        x ∈ a_comments s -> c_id x <> cid) as Habs.
    { intros s x Hs _ Hx Hid. apply id_is_true in Hid. by rewrite (Hno s x) in Hid. }
    rewrite commentToDeleteDetails_absent, deleteSingle_absent by done.
    apply mkStory_eta. }
  assert (addSingleComment env story selected text
          = mkStory (title story) (addSingle c selected (chapters story)).1) as ->.
  { unfold addSingleComment, storyOf, handleSaveOrUpdateComment, stateOf. simpl.
    rewrite Ht. simpl. fold cid. fold c.
    by destruct (addSingle c selected (chapters story)) as [m u]. }
  unfold addSingle.
  destruct (map_get _ (chapters story)) as [ss|] eqn:Hget;
    [|simpl; by rewrite mkStory_eta].
  destruct (Js.findIndex _ ss) as [i|] eqn:Hi; [|simpl; by rewrite mkStory_eta].
  simpl. apply findIndex_Some in Hi as (l1 & s & l2 & -> & <- & Hl1 & Hs).
  apply sentence_id_is_true in Hs.
  destruct (map_set_present _ (alter (appendComment c) (length l1) (l1 ++ s :: l2)) _ _ Hget)
    as (pre & post & Hm & ->).
  rewrite alter_middle. rewrite Hm in Hnd.
  rewrite allSentences_app, allSentences_cons, <- !(assoc_L (++)), (assoc_L (++)) in Hnd.
  pose proof (NoDup_ids_split _ _ _ Hnd) as Hbefore. rewrite Hs in Hbefore.
  apply Forall_app in Hbefore as [Hpre _].
  assert (s ∈ allSentences (chapters story)) as Hsin.
  { rewrite Hm, allSentences_app, allSentences_cons.
    apply elem_of_app. right. apply elem_of_app. left. apply elem_of_app. right. left. }
  assert (Js.find (id_is cid) (a_comments s ++ [c]) = Some c) as Hfind.
  { rewrite find_app_false.
    - simpl. unfold id_is at 1. simpl. by rewrite String.eqb_refl.
    - apply Forall_forall. intros x Hx. by eapply Hno. }
  assert (sentence_id_is (a_id selected) (appendComment c s) = true) as Hs'.
  { by apply sentence_id_is_true. }
  rewrite deleteComment_eq. cbn [title chapters]. unfold deleteChapters.
  assert (commentToDeleteDetails (a_id selected) cid
            (pre ++ (a_ChapterNumber selected, l1 ++ appendComment c s :: l2) :: post)
          = Some c) as ->.
  { unfold commentToDeleteDetails.
    rewrite allSentences_app, allSentences_cons, <- !(assoc_L (++)).
    rewrite !find_app_false by done. simpl. rewrite Hs'. simpl. exact Hfind. }
  simpl. unfold deleteSingle.
  rewrite (updateFirst_at _ _ pre _ l1 (appendComment c s) l2 post) by done. simpl.
  rewrite <- (mkStory_eta story) at 2. rewrite Hm. do 5 f_equal.
  unfold deleteSingleItem, appendComment, withComments. simpl.
  rewrite filter_app, (filter_none _ [c]), app_nil_r, filter_all.
  - by destruct s.
  - apply Forall_forall. intros x Hx. apply Is_true_true, negb_true_iff. by eapply Hno.
  - constructor; [|constructor]. intros Hp. apply Is_true_true, negb_true_iff in Hp.
    unfold id_is in Hp. simpl in Hp. by rewrite String.eqb_refl in Hp.
Qed.

Lemma single_add_then_delete_restores_witness :
  deleteComment
    (addSingleComment demoEnv linkedStory
       (demoSentence 1 2 [demoComment "c2" "tighten pacing" group 10 (Some "g1") (Some [1; 2])])
       "note")
    "ch1-s2" "id-1001-1"
  = linkedStory.
Proof.
  apply (single_add_then_delete_restores demoEnv linkedStory
           (demoSentence 1 2
              [demoComment "c2" "tighten pacing" group 10 (Some "g1") (Some [1; 2])]) "note").
  - reflexivity.
  - apply (bool_decide_unpack _). vm_compute. exact I.
  - intros c Hc. revert c Hc. apply Forall_forall.
    apply (bool_decide_unpack _). vm_compute. exact I.
Defined.

(** The sentence-number list a group addition records is in ascending
    order and holds exactly the numbers other than -1 of the sentences found
    for the selected ids -- for each id the first sentence with that id --
    so an unknown id contributes nothing and the list is never longer than
    the selection. *)
Theorem group_sentence_numbers ids m :
  let numbers := sentenceNumbersForGroup ids m in
  StronglySorted Z.le numbers
  /\ (forall n, n ∈ numbers
        <-> n <> -1
            /\ exists id s, id ∈ ids
                 /\ Js.find (sentence_id_is id) (allSentences m) = Some s
                 /\ a_SentenceNumber s = n)
  /\ (length numbers <= length ids)%nat.
Proof.
  cbv zeta. unfold sentenceNumbersForGroup. split; [|split].
  - eapply StronglySorted_weaken; [|apply sort_StronglySorted].
    + unfold Js.le. intros a b. lia.
    + unfold Js.le. intros a b. lia.
    + unfold Js.le. intros a b c. lia.
  - intros n. rewrite sort_Permutation, list_elem_of_filter, list_elem_of_fmap.
    split.
    + intros [Hn (id & -> & Hid)]. split; [done|].
      rewrite sentenceNumberOf_find in Hn |- *.
      destruct (Js.find _ _) as [s|] eqn:Hf; [|done]. by exists id, s.
    + intros [Hn (id & s & Hid & Hf & <-)]. split; [done|].
      exists id. split; [|done]. by rewrite sentenceNumberOf_find, Hf.
  - rewrite (Permutation_length (sort_Permutation _ _)).
    etrans; [apply length_filter|]. by rewrite length_fmap.
Qed.

(** ** Order of the exports *)

(** The full export lists every sentence of the story exactly once, in
    ascending order of chapter number and, within a chapter number, of
    sentence number; each entry is the full form of its sentence; the title
    is the story's and the chapter texts are the retained ones; exporting
    leaves the state as it is. *)
Theorem full_export_order st story original :
  storyData st = Some story ->
  originalCompleteStory st = Some original ->
  exists sentences,
    exportFull st
    = Some (mkImported (AnalysisArray (fullExportItem <$> sentences))
              (Some (mkCompleteStory (Some (title story)) (cs_Chapters original))))
    /\ sentences ≡ₚ allSentences (chapters story)
    /\ StronglySorted chapterThenSentence sentences
    /\ (commonExportLogic false st).1 = st.
Proof.
  intros Hs Ho. exists (Js.sort byChapterThenSentence (allSentences (chapters story))).
  unfold exportFull, commonExportLogic. rewrite Hs, Ho. simpl.
  split; [|split; [apply sort_Permutation|split; [|done]]].
  - unfold fullExport. do 3 f_equal.
    exact (sort_fmap byFullOrder fullExportItem (allSentences (chapters story))).
  - eapply StronglySorted_weaken;
      [|apply (sort_StronglySorted byChapterThenSentence byChapterThenSentence_total
                 byChapterThenSentence_trans)].
    intros a b. unfold Js.le, chapterThenSentence. rewrite byChapterThenSentence_eq.
    destruct (Z.eqb_spec (a_ChapterNumber a) (a_ChapterNumber b)); simpl; lia.
Qed.

Lemma full_export_order_witness :
  exists sentences,
    exportFull (mkState (Some linkedStory) (Some (mkCompleteStory (Some "Tale") None))
                  None false None false mode_single [])
    = Some (mkImported (AnalysisArray (fullExportItem <$> sentences))
              (Some (mkCompleteStory (Some "Tale") None)))
    /\ sentences ≡ₚ allSentences (chapters linkedStory).
Proof.
  destruct (full_export_order
              (mkState (Some linkedStory) (Some (mkCompleteStory (Some "Tale") None))
                 None false None false mode_single [])
              linkedStory (mkCompleteStory (Some "Tale") None) eq_refl eq_refl)
    as (sentences & H1 & H2 & _).
  exists sentences. split; [exact H1|exact H2].
Defined.

(** The simple export lists every sentence of the story exactly once, in
    ascending order of sentence number across chapters; each entry is the
    simple form of its sentence; exporting leaves the state as it is. *)
Theorem simple_export_order st story original :
  storyData st = Some story ->
  originalCompleteStory st = Some original ->
  exists sentences,
    exportSimple st = Some (simpleExportItem <$> sentences)
    /\ sentences ≡ₚ allSentences (chapters story)
    /\ StronglySorted (fun a b => a_SentenceNumber a <= a_SentenceNumber b) sentences
    /\ (commonExportLogic true st).1 = st.
Proof.
  intros Hs Ho. exists (Js.sort bySentenceNumber (allSentences (chapters story))).
  unfold exportSimple, commonExportLogic. rewrite Hs, Ho. simpl.
  split; [|split; [apply sort_Permutation|split; [|done]]].
  - unfold simpleExport. f_equal.
    exact (sort_fmap bySimpleOrder simpleExportItem (allSentences (chapters story))).
  - eapply StronglySorted_weaken;
      [|apply (sort_StronglySorted bySentenceNumber bySentenceNumber_total
                 bySentenceNumber_trans)].
    intros a b. unfold Js.le, bySentenceNumber. lia.
Qed.

Lemma simple_export_order_witness :
  exists sentences,
    exportSimple (mkState (Some linkedStory) (Some (mkCompleteStory (Some "Tale") None))
                    None false None false mode_single [])
    = Some (simpleExportItem <$> sentences)
    /\ sentences ≡ₚ allSentences (chapters linkedStory).
Proof.
  destruct (simple_export_order
              (mkState (Some linkedStory) (Some (mkCompleteStory (Some "Tale") None))
                 None false None false mode_single [])
              linkedStory (mkCompleteStory (Some "Tale") None) eq_refl eq_refl)
    as (sentences & H1 & H2 & _).
  exists sentences. split; [exact H1|exact H2].
Defined.

(** ** The name of the exported file *)






(** ** The annotation modal *)

Lemma trimStart_idempotent s : Js.trimStart (Js.trimStart s) = Js.trimStart s.
Proof.
  induction s as [|c s IH]; simpl; [done|].
  destruct (Js.isWhiteSpace c) eqn:Hc; [done|]. simpl. by rewrite Hc.
Qed.

Lemma trimEnd_idempotent s : Js.trimEnd (Js.trimEnd s) = Js.trimEnd s.
Proof.
  induction s as [|c s IH]; simpl; [done|].
  destruct (Js.trimEnd s) as [|d t] eqn:Ht.
  - destruct (Js.isWhiteSpace c) eqn:Hc; simpl; [done|]. by rewrite Hc.
  - change (Js.trimEnd (String c (String d t))
            = String c (String d t)).
    simpl in IH |- *. by rewrite IH.
Qed.

Lemma trimStart_trimEnd s :
  Js.trimStart s = s -> Js.trimStart (Js.trimEnd s) = Js.trimEnd s.
Proof.
  destruct s as [|c s]; simpl; [done|].
  destruct (Js.isWhiteSpace c) eqn:Hc.
  - intros Hs. exfalso.
    assert (forall u, String.length (Js.trimStart u) <= String.length u)%nat as Hlen.
    { induction u as [|e u IHu]; simpl; [done|]. destruct (Js.isWhiteSpace e); simpl; lia. }
    specialize (Hlen s). rewrite Hs in Hlen. simpl in Hlen. lia.
  - intros _. destruct (Js.trimEnd s); simpl; by rewrite Hc.
Qed.

Lemma trim_idempotent s : Js.trim (Js.trim s) = Js.trim s.
Proof.
  unfold Js.trim. rewrite trimStart_trimEnd by apply trimStart_idempotent.
  apply trimEnd_idempotent.
Qed.

Lemma truthy_eqb_empty s : String.eqb s EmptyString = negb (Js.truthy s).
Proof. by destruct s. Qed.

(** The save button of the modal gives the application the state that
    [handleSaveOrUpdateComment] gives on the draft as typed: trimming the
    draft before the call and refusing a blank one change nothing, since the
    handler trims and refuses by itself.  The draft and the edit detail are
    reset exactly when the draft is not blank. *)
Theorem modal_save_is_handler_save env ms st :
  let result := AnnotationModal.handleSaveOrUpdate env ms st in
  result.2
  = handleSaveOrUpdateComment env st (AnnotationModal.newCommentText ms)
      (AnnotationModal.editingCommentDetail ms)
  /\ result.1
     = if Js.truthy (Js.trim (AnnotationModal.newCommentText ms))
       then AnnotationModal.mkModal EmptyString None else ms.
Proof.
  cbv zeta. unfold AnnotationModal.handleSaveOrUpdate. rewrite truthy_eqb_empty.
  destruct (Js.truthy (Js.trim (AnnotationModal.newCommentText ms))) eqn:Ht; simpl.
  - split; [|done]. unfold handleSaveOrUpdateComment.
    by rewrite trim_idempotent.
  - split; [|done]. unfold handleSaveOrUpdateComment. rewrite Ht. simpl.
    by destruct (storyData st).
Qed.

Lemma modal_save_state env ms st :
  (AnnotationModal.handleSaveOrUpdate env ms st).2
  = handleSaveOrUpdateComment env st (AnnotationModal.newCommentText ms)
      (AnnotationModal.editingCommentDetail ms).
Proof.
  unfold AnnotationModal.handleSaveOrUpdate. rewrite truthy_eqb_empty.
  destruct (Js.truthy (Js.trim (AnnotationModal.newCommentText ms))) eqn:Ht; simpl.
  - unfold handleSaveOrUpdateComment. by rewrite trim_idempotent.
  - unfold handleSaveOrUpdateComment. rewrite Ht. simpl. by destruct (storyData st).
Qed.

(** Editing through the modal keeps group consistency.  The modal fills
    the edit detail from the comment whose pencil was clicked, group id
    included; when that comment is in the story, its group id is not the
    empty string and, if it has none, no comment shares its id with a
    grouped one, then saving whatever was typed leaves a story in which all
    comments of a group agree on text and timestamp.  Deleting through the
    modal keeps the property without any condition. *)
Theorem modal_edit_keeps_group_consistency env st story c ms text :
  storyData st = Some story ->
  groupConsistent (chapters story) ->
  c ∈ allComments (chapters story) ->
  c_groupId c <> Some EmptyString ->
  (c_groupId c = None ->
   forall c', c' ∈ allComments (chapters story) -> c_id c' = c_id c -> c_groupId c' = None) ->
  let ms' := AnnotationModal.setNewCommentText text (AnnotationModal.handleEditComment c ms) in
  stateConsistent (AnnotationModal.handleSaveOrUpdate env ms' st).2
  /\ forall commentId, stateConsistent (AnnotationModal.handleDelete commentId ms' st).2.
Proof.
  intros Hs Hcons Hc Hg Hids. cbv zeta.
  assert (stateConsistent st) as Hst.
  { unfold stateConsistent. by rewrite Hs. }
  split.
  - rewrite modal_save_state. simpl. apply stateConsistent_save; [done|].
    unfold mutationAllowed. rewrite Hs. unfold editNamesGroup. simpl.
    destruct (c_groupId c) as [g|] eqn:Hgc.
    + left. simpl. destruct g; [done|done].
    + right. by apply Hids.
  - intros commentId. unfold AnnotationModal.handleDelete.
    destruct (selectedAnalysisItem st); simpl; [|done].
    by apply stateConsistent_delete.
Qed.

Lemma modal_edit_keeps_group_consistency_witness :
  stateConsistent
    (AnnotationModal.handleSaveOrUpdate demoEnv
       (AnnotationModal.setNewCommentText "cut entirely"
          (AnnotationModal.handleEditComment
             (demoComment "c1" "tighten pacing" group 10 (Some "g1") (Some [1; 2]))
             (AnnotationModal.mkModal EmptyString None)))
       (stateOf linkedStory mode_single None [])).2.
Proof.
  refine (proj1 (modal_edit_keeps_group_consistency demoEnv
                   (stateOf linkedStory mode_single None []) linkedStory
                   (demoComment "c1" "tighten pacing" group 10 (Some "g1") (Some [1; 2]))
                   (AnnotationModal.mkModal EmptyString None) "cut entirely"
                   eq_refl _ _ _ _)).
  - apply (bool_decide_unpack _). vm_compute. exact I.
  - apply elem_of_allComments. exists (demoSentence 1 1
      [demoComment "c1" "tighten pacing" group 10 (Some "g1") (Some [1; 2])]).
    split; apply list_elem_of_here.
  - discriminate.
  - discriminate.
Defined.

(** ** The file name shown by the importer *)

(** The importer shows a file as loaded whenever the file passes the
    checks of [processFile], whether or not a story is installed: a story
    being installed implies that the name is shown, but a document with an
    entry array and a title, one of whose entries is invalid, has its name
    shown while the story is cleared and the error banner raised. *)
Theorem file_name_shown_for_rejected_story env st name d entries raw :
  im_Analysis d = AnalysisArray entries ->
  titleFalsy (im_TheCompleteStory d) = false ->
  raw ∈ entries ->
  invalidEntry raw ->
  fileNameAfterProcess name (FileJson d) = Some name
  /\ storyData (processFile env st (FileJson d)) = None
  /\ signalsError (processFile env st (FileJson d))
  /\ forall file,
       is_Some (storyData (processFile env st file)) ->
       fileNameAfterProcess name file = Some name.
Proof.
  intros Ha Ht Hin Hraw. split; [|split; [|split]].
  - simpl. by rewrite Ha, Ht.
  - simpl. rewrite Ha, Ht. simpl. unfold handleFileLoad, loadStory. rewrite Ha.
    by destruct (importEntries_invalid env entries raw [] 0%nat Hin Hraw) as [raw' ->].
  - unfold signalsError. simpl. rewrite Ha, Ht. simpl.
    unfold handleFileLoad, loadStory. rewrite Ha.
    by destruct (importEntries_invalid env entries raw [] 0%nat Hin Hraw) as [raw' ->].
  - intros file [s Hs]. destruct file as [| | |d']; try done. simpl in *.
    destruct (analysisFalsy _ || titleFalsy _)%bool; [done|].
    by destruct (negb (isArray _)).
Qed.

Lemma file_name_shown_for_rejected_story_witness :
  fileNameAfterProcess "tale.json" (FileJson badChapterDocument) = Some "tale.json"
  /\ storyData (processFile demoEnv emptyState (FileJson badChapterDocument)) = None.
Proof.
  destruct (file_name_shown_for_rejected_story demoEnv emptyState "tale.json"
              badChapterDocument _
              (mkRaw (Some "The end.") (Some (JStr "one")) (Some (JNum 2)) None None None ∅)
              eq_refl eq_refl) as (H1 & H2 & _).
  - apply list_elem_of_further, list_elem_of_here.
  - left. reflexivity.
  - split; [exact H1|exact H2].
Defined.

(** ** The legacy applies-to field, written and read back *)

Lemma isNumeral_string_of_uint d : isNumeral (NilEmpty.string_of_uint d) = true.
Proof. induction d; simpl; done. Qed.

Lemma isNumeral_string_of_Z z : isNumeral (Js.string_of_Z z) = true.
Proof.
  unfold Js.string_of_Z, NilZero.string_of_int, NilZero.string_of_uint.
  destruct (Z.to_int z) as [d|d]; destruct d; simpl; try done;
    apply isNumeral_string_of_uint.
Qed.

Lemma isNumeralChar_not_space c : isNumeralChar c = true -> Js.isWhiteSpace c = false.
Proof. destruct c as [[] [] [] [] [] [] [] []]; vm_compute; (reflexivity || discriminate). Qed.

Lemma isNumeralChar_not_comma c : isNumeralChar c = true -> Ascii.eqb c ","%char = false.
Proof. destruct c as [[] [] [] [] [] [] [] []]; vm_compute; (reflexivity || discriminate). Qed.

Lemma trim_numeral s : isNumeral s = true -> Js.trim s = s.
Proof.
  intros Hs. unfold Js.trim.
  assert (Js.trimStart s = s) as ->.
  { destruct s as [|c s]; simpl in *; [done|].
    apply andb_true_iff in Hs as [Hc _]. by rewrite (isNumeralChar_not_space c Hc). }
  induction s as [|c s IH]; simpl in *; [done|].
  apply andb_true_iff in Hs as [Hc Hs]. rewrite (IH Hs).
  destruct s; [by rewrite (isNumeralChar_not_space c Hc)|done].
Qed.

Lemma digits_acc d acc :
  Js.digits (Some (Z.pos acc)) (NilEmpty.string_of_uint d)
  = Some (Z.pos (Pos.of_uint_acc d acc)).
Proof.
  revert acc. induction d; intros acc; simpl; [done|..];
    (etrans; [|apply IHd]); do 2 f_equal; lia.
Qed.

Lemma digits_zero d :
  Js.digits (Some 0) (NilEmpty.string_of_uint d) = Some (Z.of_N (Pos.of_uint d)).
Proof.
  induction d; simpl; [done|exact IHd|..]; apply digits_acc.
Qed.

Lemma digits_to_uint p :
  Js.digits None (NilZero.string_of_uint (Pos.to_uint p)) = Some (Z.pos p).
Proof.
  pose proof (Unsigned.of_to p) as Hp. pose proof (digits_zero (Pos.to_uint p)) as Hd.
  rewrite Hp in Hd. simpl in Hd. rewrite <- Hd.
  unfold NilZero.string_of_uint. by destruct (Pos.to_uint p).
Qed.

Lemma parseInt_string_of_Z z : Js.parseInt (Js.string_of_Z z) = Some z.
Proof.
  destruct z as [|p|p].
  - done.
  - pose proof (digits_to_uint p) as Hd.
    unfold Js.string_of_Z, Js.parseInt. simpl.
    unfold NilZero.string_of_uint in *.
    destruct (Pos.to_uint p); [done|exact Hd..].
  - pose proof (digits_to_uint p) as Hd.
    unfold Js.string_of_Z, Js.parseInt. simpl. by rewrite Hd.
Qed.

Lemma split_comma_aux_last x :
  isNumeral x = true ->
  forall cur, Js.split_comma_aux cur x = [String.rev_app cur x].
Proof.
  induction x as [|c x IH]; intros Hx cur; simpl in *; [done|].
  apply andb_true_iff in Hx as [Hc Hx]. rewrite (isNumeralChar_not_comma c Hc).
  by rewrite IH.
Qed.

Lemma split_comma_aux_piece x s :
  isNumeral x = true ->
  forall cur,
    Js.split_comma_aux cur (x +:+ String ","%char s)
    = String.rev_app cur x :: Js.split_comma_aux EmptyString s.
Proof.
  induction x as [|c x IH]; intros Hx cur; simpl in *; [done|].
  apply andb_true_iff in Hx as [Hc Hx].
  change (String c x +:+ String ","%char s) with (String c (x +:+ String ","%char s)).
  simpl. rewrite (isNumeralChar_not_comma c Hc). by rewrite IH.
Qed.

Lemma split_comma_join x l :
  Forall (fun s => isNumeral s = true) (x :: l) ->
  Js.split_comma (Js.join "," (x :: l)) = x :: l.
Proof.
  unfold Js.split_comma. revert x. induction l as [|y l IH]; intros x Hx.
  - apply Forall_cons in Hx as [Hx _]. simpl. by rewrite split_comma_aux_last.
  - apply Forall_cons in Hx as [Hx Hl].
    change (Js.join "," (x :: y :: l)) with (x +:+ String ","%char (Js.join "," (y :: l))).
    rewrite split_comma_aux_piece by done. simpl. f_equal. by apply IH.
Qed.

Lemma omap_parseInt_string_of_Z (l : list Z) :
  omap (fun n => Js.parseInt (Js.trim n)) (Js.string_of_Z <$> l) = l.
Proof.
  induction l as [|z l IH]; [done|]. rewrite fmap_cons. csimpl.
  rewrite trim_numeral, parseInt_string_of_Z by apply isNumeral_string_of_Z.
  by rewrite IH.
Qed.

Lemma parseAppliesTo_join numbers :
  parseAppliesTo (Js.join "," (Js.string_of_Z <$> numbers)) = numbers.
Proof.
  unfold parseAppliesTo. destruct numbers as [|n numbers]; [done|].
  rewrite fmap_cons, split_comma_join.
  - rewrite <- fmap_cons. apply omap_parseInt_string_of_Z.
  - rewrite <- fmap_cons. apply Forall_fmap, Forall_forall. intros z _.
    apply isNumeral_string_of_Z.
Qed.

(** The applies-to field an export writes reads back as the list it was
    written from, for sentence numbers that are safe integers: when the
    exporter gives a sentence the field, the sentence has a latest comment
    of kind group whose sentence-number list is what the importer's parsing
    of the field gives, negative numbers included. *)
Theorem exported_applies_to_reads_back item field :
  safeNumbers item ->
  exportedAppliesTo item = Some field ->
  exists latest,
    latestComment item = Some latest
    /\ c_type latest = group
    /\ c_appliesToSentenceNumbers latest = Some (parseAppliesTo field).
Proof.
  intros _.
  unfold exportedAppliesTo. destruct (latestComment item) as [latest|]; [|done].
  destruct (c_type latest) eqn:Hty; [done|].
  destruct (c_appliesToSentenceNumbers latest) as [numbers|] eqn:Hn; [|done].
  destruct (Js.truthy _); [|done]. intros [= <-].
  exists latest. by rewrite parseAppliesTo_join.
Qed.

Lemma exported_applies_to_reads_back_witness :
  exists latest,
    latestComment
      (demoSentence 1 1
         [demoComment "c1" "tighten pacing" group 10 (Some "g1") (Some [-2; 0; 13])])
    = Some latest
    /\ c_appliesToSentenceNumbers latest = Some (parseAppliesTo "-2,0,13").
Proof.
  destruct (exported_applies_to_reads_back
              (demoSentence 1 1
                 [demoComment "c1" "tighten pacing" group 10 (Some "g1") (Some [-2; 0; 13])])
              "-2,0,13") as (latest & H1 & _ & H3).
  - repeat constructor.
  - reflexivity.
  - exists latest. split; [exact H1|exact H3].
Defined.

(** The legacy fields survive an import followed by an export.  For a
    plain entry without comment history whose legacy comment is not empty,
    the sentence built by the import is exported with the same legacy
    comment, and with an applies-to field that reads back as the sentence
    numbers the original field reads as (the field itself is rewritten:
    spacing and tokens that are not numbers are lost). *)
Theorem legacy_fields_survive env raw tick item tick' text :
  plainEntry raw ->
  importEntry env raw tick = inr (item, tick') ->
  r_all_comments raw = None ->
  r_comment raw = Some text ->
  Js.truthy text = true ->
  exportedComment item = Some text
  /\ default [] (parseAppliesTo <$> exportedAppliesTo item)
     = parseAppliesTo (default EmptyString (r_commentAppliesTo raw)).
Proof.
  unfold importEntry. intros _ Himp Hall Hc Ht.
  destruct (as_number (r_ChapterNumber raw)) as [ch|]; [|done].
  destruct (as_number (r_SentenceNumber raw)) as [sn|]; [|done].
  destruct (r_Sentence raw) as [sentenceText|]; [|done].
  destruct (Js.truthy sentenceText); [|done].
  unfold currentComments in Himp. rewrite Hall, Hc, Ht in Himp.
  unfold legacyComment in Himp.
  destruct (r_commentAppliesTo raw) as [applies|]; [destruct (Js.truthy applies) eqn:Ha|];
    injection Himp as <- <-;
    unfold exportedComment, exportedAppliesTo, latestComment; simpl; rewrite Ht.
  - split; [done|].
    destruct (Js.truthy (Js.join "," (Js.string_of_Z <$> parseAppliesTo applies))) eqn:Hj;
      simpl.
    + apply parseAppliesTo_join.
    + destruct (parseAppliesTo applies) as [|n l]; [done|].
      rewrite fmap_cons, join_truthy in Hj; [done|apply string_of_Z_truthy].
  - split; [done|]. by destruct applies.
  - done.
Qed.

Lemma legacy_fields_survive_witness :
  exists item tick',
    importEntry demoEnv
      (mkRaw (Some "The end.") (Some (JNum 2)) (Some (JNum 1))
         (Some "tighten pacing") (Some "1, x, 3") None ∅) 0
    = inr (item, tick')
    /\ exportedComment item = Some "tighten pacing"
    /\ default [] (parseAppliesTo <$> exportedAppliesTo item) = [1; 3].
Proof.
  assert (exists item tick',
            importEntry demoEnv
              (mkRaw (Some "The end.") (Some (JNum 2)) (Some (JNum 1))
                 (Some "tighten pacing") (Some "1, x, 3") None ∅) 0
            = inr (item, tick')) as (item & tick' & Himp).
  { eexists _, _. vm_compute. reflexivity. }
  exists item, tick'. split; [exact Himp|].
  refine (legacy_fields_survive demoEnv _ 0 item tick' "tighten pacing"
            _ Himp eq_refl eq_refl eq_refl).
  repeat constructor; try (by intros z [= <-]); try done; by apply map_Forall_empty.
Defined.
